(** * Ant colony optimisation over a weighted directed graph (aco.py)

    A shallow embedding of the class [ACO] of [aco.py] and the properties of
    its pheromone update, route scoring, elite archive and tour construction.

    Conventions of the embedding.
    - Python floats are exact rationals [Q], extended by [+inf] in the type
      [xdist] wherever the program can produce [float('inf')].  Rounding,
      overflow and NaN are outside the model, and with them the exceptions
      that only they cause: [OverflowError] from a float power, and the
      [ValueError] of [random.choices] on weights whose total is not finite.
      Equality of numbers is [Qeq].
    - Graph nodes are natural numbers.  A [networkx.DiGraph] is its node
      sequence together with its edge list; an edge carries the optional
      attribute ['weight'], a finite Python number.
    - The exponents [alpha] and [beta] are non-negative integers.
    - A Python [set] of nodes is a duplicate-free list; its iteration order is
      the order of that list.
    - The numpy matrix [self.pheromone] is a list of rows.
    - An uncaught Python exception is the outcome [Raise e]; the state of the
      object after an uncaught exception is not observed.
    - [random] is a stream of raw draws that the program consumes in order.
    - [print] and the default [update_callback] (which returns [None]) have no
      effect on the state of the solver. *)

From Stdlib Require Import List Arith ZArith QArith Qpower Lia Lqa Bool Sorted.
Import ListNotations.

Set Implicit Arguments.

(** ** Outcomes: normal return, uncaught exception, or loop bound exhausted *)

Inductive exn : Type :=
| ZeroDivisionError
| KeyError
| IndexError
| ValueError
| NetworkXNoPath
| RouteNotFound.   (* Exception("route not found") *)

Inductive outcome (A : Type) : Type :=
| Ret (a : A)
| Raise (e : exn)
| Diverge.         (* the bound put on a [while] loop was not enough *)

Arguments Ret {A} a.
Arguments Raise {A} e.
Arguments Diverge {A}.

Definition bind {A B : Type} (m : outcome A) (k : A -> outcome B) : outcome B :=
  match m with
  | Ret a => k a
  | Raise e => Raise e
  | Diverge => Diverge
  end.

Notation "x <- m ;; k" := (bind m (fun x => k))
  (at level 61, m at next level, right associativity).
Notation "' pat <- m ;; k" := (bind m (fun x => match x with pat => k end))
  (at level 61, pat pattern, m at next level, right associativity).

(** ** Numbers *)

Inductive xdist : Type :=
| Fin (q : Q)
| Inf.

(** [a < b] on floats that may be [inf]. *)
Definition xltb (a b : xdist) : bool :=
  match a, b with
  | Fin x, Fin y => negb (Qle_bool y x)
  | Fin _, Inf => true
  | Inf, _ => false
  end.

Definition xadd (a b : xdist) : xdist :=
  match a, b with
  | Fin x, Fin y => Fin (x + y)
  | _, _ => Inf
  end.

(** Equality of extended numbers up to [Qeq]. *)
Definition xeq (a b : xdist) : Prop :=
  match a, b with
  | Fin x, Fin y => x == y
  | Inf, Inf => True
  | _, _ => False
  end.

(** [num / d] for a Python float [d]: [num / inf] is [0.0] and [num / 0.0]
    raises [ZeroDivisionError]. *)
Definition fdiv (num : Q) (d : xdist) : outcome Q :=
  match d with
  | Inf => Ret 0
  | Fin q => if Qeq_bool q 0 then Raise ZeroDivisionError else Ret (num / q)
  end.

(** ** The graph *)

Definition node := nat.

Record edge : Type := mkEdge {
  src : node;
  dst : node;
  weight_attr : option Q      (* the edge attribute 'weight', when set *)
}.

Record DiGraph : Type := mkGraph {
  nodes : list node;          (* cities.nodes(), each node once *)
  edges : list edge
}.

Definition is_edge (u v : node) (e : edge) : bool :=
  (src e =? u) && (dst e =? v).

Definition has_edge (g : DiGraph) (u v : node) : bool :=
  existsb (is_edge u v) (edges g).

(** [cities[u][v].get('weight', 0.0)]; only evaluated under [has_edge]. *)
Definition get_weight (g : DiGraph) (u v : node) : Q :=
  match find (is_edge u v) (edges g) with
  | Some e => match weight_attr e with Some w => w | None => 0 end
  | None => 0
  end.

Definition neighbors (g : DiGraph) (u : node) : list node :=
  map dst (filter (fun e => src e =? u) (edges g)).

Definition mem (x : node) (l : list node) : bool := existsb (Nat.eqb x) l.

(** ** The matrix *)

Definition matrix := list (list Q).

Definition entry (P : matrix) (i j : nat) : Q := nth j (nth i P []) 0.

Fixpoint update_nth {A : Type} (f : A -> A) (i : nat) (l : list A) : list A :=
  match l, i with
  | [], _ => []
  | x :: l', O => f x :: l'
  | x :: l', S i' => x :: update_nth f i' l'
  end.

(** [P[i][j] += x] *)
Definition add_at (P : matrix) (i j : nat) (x : Q) : matrix :=
  update_nth (update_nth (fun y => y + x) j) i P.

(** [P *= r] *)
Definition scale (r : Q) (P : matrix) : matrix := map (map (Qmult r)) P.

(** [nx.to_numpy_array(cities, weight=None)]: 1 where the edge exists. *)
Definition to_numpy_array (g : DiGraph) : matrix :=
  map (fun u => map (fun v => if has_edge g u v then 1 else 0) (nodes g)) (nodes g).

(** ** The solver object *)

Record ACO : Type := mkACO {
  cities : DiGraph;
  n_ants : nat;
  alpha : nat;
  beta : nat;
  evaporation : Q;
  update_callback : bool;     (* is a callback registered *)
  node_list : list node;
  pheromone : matrix
}.

Definition set_pheromone (self : ACO) (P : matrix) : ACO :=
  mkACO (cities self) (n_ants self) (alpha self) (beta self) (evaporation self)
        (update_callback self) (node_list self) P.

(** [__init__] *)
Definition init (g : DiGraph) (ants a b : nat) (evap : Q) (conc : bool) : ACO :=
  mkACO g ants a b evap (negb conc) (nodes g) (to_numpy_array g).

Fixpoint index_of (u : node) (l : list node) : option nat :=
  match l with
  | [] => None
  | x :: l' => if x =? u then Some O else option_map S (index_of u l')
  end.

(** [self.node_to_idx[u]] *)
Definition node_to_idx (self : ACO) (u : node) : outcome nat :=
  match index_of u (node_list self) with
  | Some i => Ret i
  | None => Raise KeyError
  end.

Definition n_cities (self : ACO) : nat := length (node_list self).

Definition route := list node.

(** ** route_distance *)

Fixpoint route_distance_loop (g : DiGraph) (r : route) (idxs : list nat)
    (distance : Q) : xdist :=
  match idxs with
  | [] => Fin distance
  | i :: idxs' =>
      let u := nth i r O in
      let v := nth ((i + 1) mod length r) r O in
      if has_edge g u v
      then route_distance_loop g r idxs' (distance + get_weight g u v)
      else Inf
  end.

Definition route_distance (self : ACO) (r : route) : xdist :=
  route_distance_loop (cities self) r (seq 0 (length r - 1)) 0.

(** ** update_pheromones *)

Fixpoint update_pheromones_loop (self : ACO) (r : route) (distance : xdist)
    (pherm_rate : Q) (idxs : list nat) (P : matrix) : outcome matrix :=
  match idxs with
  | [] => Ret P
  | i :: idxs' =>
      let u := nth i r O in
      let v := nth ((i + 1) mod length r) r O in
      u_idx <- node_to_idx self u ;;
      v_idx <- node_to_idx self v ;;
      if has_edge (cities self) u v
      then d <- fdiv pherm_rate distance ;;
           update_pheromones_loop self r distance pherm_rate idxs'
             (add_at P u_idx v_idx d)
      else update_pheromones_loop self r distance pherm_rate idxs' P
  end.

Definition update_pheromones (self : ACO) (r : route) (distance : xdist)
    (pherm_rate : Q) : outcome ACO :=
  match r with
  | [] => Ret self
  | _ =>
      P <- update_pheromones_loop self r distance pherm_rate
             (seq 0 (length r)) (scale (evaporation self) (pheromone self)) ;;
      Ret (set_pheromone self P)
  end.

(** ** calculate_probabilities *)

Fixpoint attractions (self : ACO) (current : node) (current_idx : nat)
    (possible_next : list node) (total : Q) (pheromones : list Q)
    : outcome (Q * list Q) :=
  match possible_next with
  | [] => Ret (total, pheromones)
  | city :: rest =>
      city_idx <- node_to_idx self city ;;
      let pheromone :=
        Qpower (entry (pheromone self) current_idx city_idx) (Z.of_nat (alpha self)) in
      let distance := route_distance self [current; city] in
      inv <- fdiv 1 distance ;;
      let heuristic := Qpower inv (Z.of_nat (beta self)) in
      let attraction := pheromone * heuristic in
      attractions self current current_idx rest
        (total + attraction) (pheromones ++ [attraction])
  end.

Definition calculate_probabilities (self : ACO) (current : node)
    (possible_next : list node) : outcome (list Q) :=
  match possible_next with
  | [] => Ret []
  | _ =>
      current_idx <- node_to_idx self current ;;
      '(total, pheromones) <- attractions self current current_idx possible_next 0 [] ;;
      if Qeq_bool total 0
      then Ret (repeat (1 / inject_Z (Z.of_nat (length possible_next)))
                       (length possible_next))
      else Ret (map (fun p => p / total) pheromones)
  end.

(** ** The module [random]

    The generator is a stream of raw draws.  [random()] maps a draw to a
    fraction in [[0, 1)] with 53 bits, [_randbelow(n)] maps it to [[0, n)]. *)

Definition rng := nat -> N.

Definition draw (s : rng) : N * rng := (s O, fun n => s (S n)).

Definition random_unit (k : N) : Q :=
  ((Z.of_N k) mod (2 ^ 53))%Z # (2 ^ 53).

Definition randbelow (k : N) (n : nat) : nat := N.to_nat (k mod N.of_nat n).

(** [random.choice(seq)]; an empty sequence raises [IndexError]. *)
Definition random_choice (l : list node) (s : rng) : outcome (node * rng) :=
  match l with
  | [] => Raise IndexError
  | _ => let (k, s') := draw s in Ret (nth (randbelow k (length l)) l O, s')
  end.

(** [itertools.accumulate(weights)], running sums. *)
Fixpoint accumulate (acc : Q) (w : list Q) : list Q :=
  match w with
  | [] => []
  | x :: w' => (acc + x) :: accumulate (acc + x) w'
  end.

(** [bisect(a, x, 0, hi)] on a non-decreasing [a]: how many of the first [hi]
    entries are [<= x]. *)
Fixpoint bisect (a : list Q) (x : Q) (hi : nat) : nat :=
  match hi, a with
  | S hi', y :: a' => if Qle_bool y x then S (bisect a' x hi') else O
  | _, _ => O
  end.

(** [random.choices(population, weights=weights, k=1)[0]] *)
Definition random_choices (population : list node) (weights : list Q) (s : rng)
    : outcome (node * rng) :=
  let cum_weights := accumulate 0 weights in
  if negb (length cum_weights =? length population) then Raise ValueError
  else match cum_weights with
       | [] => Raise IndexError          (* cum_weights[-1] *)
       | _ =>
           let total := last cum_weights 0 in
           if Qle_bool total 0 then Raise ValueError
           else let (k, s') := draw s in
                let hi := (length population - 1)%nat in
                Ret (nth (bisect cum_weights (random_unit k * total) hi) population O, s')
       end.

(** ** The elite archive: the insertion loop of construct_solution *)

(** [l[i+1:] = l[i:-1]] *)
Definition slice_shift {A : Type} (i : nat) (l : list A) : list A :=
  firstn (i + 1) l ++ skipn i (removelast l).

(** [l[i] = x]; out of range raises [IndexError]. *)
Definition set_item {A : Type} (i : nat) (x : A) (l : list A) : outcome (list A) :=
  if i <? length l then Ret (update_nth (fun _ => x) i l) else Raise IndexError.

(** [for i, best_distance in enumerate(best_distances)]: the list is mutated
    while it is iterated, so each step reads the current list at [i].  The
    slice assignment keeps the length, so the iterator yields the positions
    [0 .. len-1] of the list as it was on entry. *)
Fixpoint offer_loop (r : route) (distance : xdist) (idxs : list nat)
    (best_routes : list route) (best_distances : list xdist)
    : outcome (list route * list xdist) :=
  match idxs with
  | [] => Ret (best_routes, best_distances)
  | i :: idxs' =>
      match nth_error best_distances i with
      | None => Ret (best_routes, best_distances)
      | Some best_distance =>
          if xltb distance best_distance
          then
            let shift := i <? length best_distances - 1 in
            let bd := if shift then slice_shift i best_distances else best_distances in
            let br := if shift then slice_shift i best_routes else best_routes in
            br' <- set_item i r br ;;
            bd' <- set_item i distance bd ;;
            offer_loop r distance idxs' br' bd'
          else offer_loop r distance idxs' best_routes best_distances
      end
  end.

Definition offer (r : route) (distance : xdist)
    (best_routes : list route) (best_distances : list xdist)
    : outcome (list route * list xdist) :=
  offer_loop r distance (seq 0 (length best_distances)) best_routes best_distances.

(** [min(l)]; [ValueError] on the empty list. *)
Definition xmin2 (a b : xdist) : xdist := if xltb b a then b else a.

Definition xmin (l : list xdist) : outcome xdist :=
  match l with
  | [] => Raise ValueError
  | x :: l' => Ret (fold_left xmin2 l' x)
  end.

(** [sum(l) / len(l)] *)
Definition xmean (l : list xdist) : outcome xdist :=
  match l with
  | [] => Raise ZeroDivisionError
  | _ =>
      match fold_left xadd l (Fin 0) with
      | Fin q => Ret (Fin (q / inject_Z (Z.of_nat (length l))))
      | Inf => Ret Inf
      end
  end.

(** [l[0]]; [IndexError] on the empty list. *)
Definition first_item {A : Type} (l : list A) : outcome A :=
  match l with
  | [] => Raise IndexError
  | x :: _ => Ret x
  end.

(** [set.remove(x)] on a set kept as a duplicate-free list. *)
Definition remove_node (x : node) (l : list node) : list node :=
  filter (fun y => negb (y =? x)) l.

Section Solver.

(** [nx.shortest_path(cities, u, v, weight="weight")], an external service:
    the node sequence from [u] to [v], or [NetworkXNoPath]. *)
Variable shortest_path : DiGraph -> node -> node -> option (list node).

(** *** ant_tour *)

(** Lines 64-67: the unvisited neighbours, or every unvisited node when
    there is none. *)
Definition candidates (self : ACO) (unvisited : list node) (current : node)
    : list node :=
  let neighbors := neighbors (cities self) current in
  let possible_next := filter (fun n => mem n unvisited) neighbors in
  match possible_next with [] => unvisited | _ => possible_next end.

(** Lines 68-72: the choice of the next city. *)
Definition select_next (self : ACO) (unvisited : list node) (current : node)
    (s : rng) : outcome (node * rng) :=
  let neighbors := neighbors (cities self) current in
  let possible_next := candidates self unvisited current in
  probabilities <- calculate_probabilities self current possible_next ;;
  match probabilities with
  | [] => random_choice neighbors s
  | _ => random_choices possible_next probabilities s
  end.

(** One pass through the body of [while unvisited]. *)
Definition tour_step (self : ACO) (rt : route) (unvisited : list node)
    (current : node) (s : rng) : outcome (route * list node * node * rng) :=
  let neighbors := neighbors (cities self) current in
  '(next_city, s') <- select_next self unvisited current s ;;
  rt' <- (if mem next_city neighbors then Ret (rt ++ [next_city])
          else match shortest_path (cities self) current next_city with
               | Some p => Ret (rt ++ tl p)
               | None => Raise NetworkXNoPath
               end) ;;
  let unvisited' :=
    if mem next_city unvisited then remove_node next_city unvisited
    else unvisited in
  Ret (rt', unvisited', next_city, s').

Fixpoint ant_tour_loop (fuel : nat) (self : ACO) (rt : route)
    (unvisited : list node) (current : node) (s : rng)
    : outcome (route * rng) :=
  match unvisited with
  | [] => Ret (rt, s)
  | _ =>
      match fuel with
      | O => Diverge
      | S fuel' =>
          '(rt', unvisited', current', s') <-
             tour_step self rt unvisited current s ;;
          ant_tour_loop fuel' self rt' unvisited' current' s'
      end
  end.

(** [ant_tour] with the bound [fuel] on the passes of its loop. *)
Definition ant_tour_fuel (fuel : nat) (self : ACO) (s : rng)
    : outcome (route * rng) :=
  let unvisited := nodup Nat.eq_dec (nodes (cities self)) in
  match unvisited with
  | [] => Ret ([], s)
  | _ =>
      '(current, s1) <- random_choice unvisited s ;;
      ant_tour_loop fuel self [current]
        (remove_node current unvisited) current s1
  end.

Definition ant_tour (self : ACO) (s : rng) : outcome (route * rng) :=
  ant_tour_fuel (length (nodup Nat.eq_dec (nodes (cities self)))) self s.

(** *** construct_solution *)

(** Lines 26-31: the archive taken from the supplied routes. *)
Fixpoint seed_loop (self : ACO) (routes : list route)
    (best_distances : list xdist) : outcome (ACO * list xdist) :=
  match routes with
  | [] => Ret (self, best_distances)
  | prev_route :: rest =>
      self' <- update_pheromones self prev_route
                 (route_distance self prev_route) 10 ;;
      seed_loop self' rest (best_distances ++ [route_distance self' prev_route])
  end.

Definition seed (self : ACO) (routes : list route)
    : outcome (ACO * list route * list xdist) :=
  '(self', best_distances) <- seed_loop self routes [] ;;
  Ret (self', firstn (n_ants self') routes, firstn (n_ants self') best_distances).

(** Lines 21-33. *)
Definition initial_archive (self : ACO) (routes : option (list route))
    : outcome (ACO * list route * list xdist) :=
  match routes with
  | Some (r :: rest) => seed self (r :: rest)
  | _ => Ret (self, repeat [] (n_ants self), repeat Inf (n_ants self))
  end.

Definition solver_state : Type := ACO * rng * list route * list xdist.

(** Lines 37-49: one ant. *)
Definition ant (st : solver_state) : outcome solver_state :=
  let '(self, s, best_routes, best_distances) := st in
  '(rt, s') <- ant_tour self s ;;
  match rt with
  | [] => Ret (self, s', best_routes, best_distances)
  | _ =>
      let distance := route_distance self rt in
      '(br, bd) <- offer rt distance best_routes best_distances ;;
      self' <- update_pheromones self rt distance 1 ;;
      Ret (self', s', br, bd)
  end.

Fixpoint ants_loop (k : nat) (st : solver_state) : outcome solver_state :=
  match k with
  | O => Ret st
  | S k' => st' <- ant st ;; ants_loop k' st'
  end.

Definition history : Type := list xdist * list xdist.

(** Lines 35-53: one iteration. *)
Definition iteration (st : solver_state) (h : history)
    : outcome (solver_state * history) :=
  let '(self0, _, _, _) := st in
  '(self, s, best_routes, best_distances) <- ants_loop (n_ants self0) st ;;
  _ <- (if update_callback self
        then r0 <- first_item best_routes ;;
             d0 <- first_item best_distances ;; Ret tt
        else Ret tt) ;;
  m <- xmin best_distances ;;
  a <- xmean best_distances ;;
  Ret (self, s, best_routes, best_distances, (fst h ++ [m], snd h ++ [a])).

Fixpoint iterations_loop (k : nat) (st : solver_state) (h : history)
    : outcome (solver_state * history) :=
  match k with
  | O => Ret (st, h)
  | S k' => '(st', h') <- iteration st h ;; iterations_loop k' st' h'
  end.

Definition construct_solution (self : ACO) (iterations : nat)
    (routes : option (list route)) (s : rng)
    : outcome (solver_state * history) :=
  '(self', best_routes, best_distances) <- initial_archive self routes ;;
  iterations_loop iterations (self', s, best_routes, best_distances) ([], []).

(** *** run_aco *)

Definition run_aco (self : ACO) (iterations : nat) (s : rng)
    : outcome (route * xdist * history) :=
  '(_, _, routes, distances, h) <- construct_solution self iterations None s ;;
  d0 <- first_item distances ;;
  best <- (if xltb d0 Inf
           then r0 <- first_item routes ;; Ret (Some r0, d0)
           else Ret (None, Inf)) ;;
  match fst best with
  | None => Raise RouteNotFound
  | Some best_route => Ret (best_route, snd best, h)
  end.

End Solver.

(** ** Definitions used to state the properties *)

(** The consecutive pairs of a route, first to last, without the pair that
    closes the cycle. *)
Fixpoint consecutive (r : route) : list (node * node) :=
  match r with
  | u :: ((v :: _) as rest) => (u, v) :: consecutive rest
  | _ => []
  end.

Definition pair_is_edge (g : DiGraph) (p : node * node) : bool :=
  has_edge g (fst p) (snd p).

(** The sum of the weights of the consecutive pairs. *)
Definition path_weight (g : DiGraph) (r : route) : Q :=
  fold_right (fun p acc => get_weight g (fst p) (snd p) + acc) 0 (consecutive r).

(** The pairs that [update_pheromones] visits: the pair at position [i] is
    [(route[i], route[(i+1) % len(route)])], the last one closes the cycle. *)
Definition pair_at (r : route) (i : nat) : node * node :=
  (nth i r O, nth ((i + 1) mod length r) r O).

Definition route_pairs (r : route) : list (node * node) :=
  map (pair_at r) (seq 0 (length r)).

(** An [n] by [n] matrix. *)
Definition matrix_shape (n : nat) (P : matrix) : Prop :=
  length P = n /\ Forall (fun row => length row = n) P.

(** The pair [p] is an edge of the graph and addresses the entry [(a, b)]. *)
Definition deposit_at (self : ACO) (a b : nat) (p : node * node) : bool :=
  has_edge (cities self) (fst p) (snd p)
  && match index_of (fst p) (node_list self), index_of (snd p) (node_list self) with
     | Some i, Some j => (i =? a) && (j =? b)
     | _, _ => false
     end.

(** What a list of pairs adds to the entry [(a, b)], [dep] per deposit. *)
Definition deposit_sum (self : ACO) (a b : nat) (dep : Q)
    (pairs : list (node * node)) : Q :=
  fold_right (fun p acc => (if deposit_at self a b p then dep else 0) + acc) 0 pairs.

(** The statement "reinforcement only adds": entries on a pair of the route do
    not decrease and all other entries keep their value. *)
Definition reinforce_only_adds (self : ACO) (r : route) (d rate : Q) : Prop :=
  forall self', update_pheromones self r (Fin d) rate = Ret self' ->
  forall u v a b,
    index_of u (node_list self) = Some a ->
    index_of v (node_list self) = Some b ->
    (In (u, v) (route_pairs r) ->
       entry (pheromone self) a b <= entry (pheromone self') a b)
    /\ (~ In (u, v) (route_pairs r) ->
          entry (pheromone self') a b == entry (pheromone self) a b).

(** The statement "a bad distance skips the reinforcement": the call returns
    and leaves every entry as it was. *)
Definition reinforce_skipped (self : ACO) (r : route) (distance : xdist)
    (rate : Q) : Prop :=
  exists self', update_pheromones self r distance rate = Ret self'
    /\ forall a b, entry (pheromone self') a b == entry (pheromone self) a b.

(** A small instance: nodes 0, 1, 2 and the edges 0 -> 1, 1 -> 0, 1 -> 2,
    each of weight 1, with the default evaporation 0.5. *)
Definition graph3 : DiGraph :=
  mkGraph [0; 1; 2]%nat
          [mkEdge 0%nat 1%nat (Some 1); mkEdge 1%nat 0%nat (Some 1);
           mkEdge 1%nat 2%nat (Some 1)].

Definition aco3 : ACO := init graph3 20%nat 1%nat 2%nat (1 # 2) false.

(** Two nodes joined by an edge of weight 0. *)
Definition graph_zero : DiGraph :=
  mkGraph [0; 1]%nat [mkEdge 0%nat 1%nat (Some 0)].

Definition aco_zero : ACO := init graph_zero 20%nat 1%nat 2%nat (1 # 2) false.

(** [a <= b] on distances, as the failure of [b < a]. *)
Definition xle (a b : xdist) : Prop := xltb b a = false.

(** Sorted ascending by distance. *)
Definition ascending (l : list xdist) : Prop := StronglySorted xle l.

(** The archive as [construct_solution] creates it without supplied routes. *)
Definition empty_archive (n : nat) : list route * list xdist :=
  (repeat [] n, repeat Inf n).

(** A sequence of offers, one run of the insertion loop for each. *)
Fixpoint offer_all (offers : list (route * xdist))
    (archive : list route * list xdist) : outcome (list route * list xdist) :=
  match offers with
  | [] => Ret archive
  | (r, d) :: rest =>
      archive' <- offer r d (fst archive) (snd archive) ;;
      offer_all rest archive'
  end.

(** What the insertion loop makes of a sorted archive: the entries up to the
    first one that is greater than the offered distance stay, and every slot
    from there on holds the offered pair. *)
Fixpoint fill_from (r : route) (d : xdist) (best_routes : list route)
    (best_distances : list xdist) : list route * list xdist :=
  match best_routes, best_distances with
  | r0 :: br, d0 :: bd =>
      if xltb d d0
      then (repeat r (length best_distances), repeat d (length best_distances))
      else let (x, y) := fill_from r d br bd in (r0 :: x, d0 :: y)
  | _, _ => (best_routes, best_distances)
  end.

(** The selection weights (attractions) that [calculate_probabilities]
    computes for the candidates, before it normalises them. *)
Definition selection_weights (self : ACO) (current : node)
    (possible_next : list node) : outcome (list Q) :=
  current_idx <- node_to_idx self current ;;
  '(_, pheromones) <- attractions self current current_idx possible_next 0 [] ;;
  Ret pheromones.

Definition Qsum (l : list Q) : Q := fold_right Qplus 0 l.

(** The statement "when every selection weight is zero, the next city is
    drawn uniformly among the neighbours of the current city". *)
Definition zero_weights_draw_neighbor (self : ACO) (unvisited : list node)
    (current : node) (s : rng) : Prop :=
  forall ws,
    selection_weights self current (candidates self unvisited current) = Ret ws ->
    Forall (fun w => w == 0) ws ->
    select_next self unvisited current s
    = random_choice (neighbors (cities self) current) s.

(** A generator that always draws 0. *)
Definition rng_zero : rng := fun _ => 0%N.

(** "For each supplied route, reinforce with that route's own distance and
    the deposit rate 10." *)
Fixpoint reinforce_all (self : ACO) (routes : list route) : outcome ACO :=
  match routes with
  | [] => Ret self
  | r :: rest =>
      self' <- update_pheromones self r (route_distance self r) 10 ;;
      reinforce_all self' rest
  end.

(** The statement "after seeding, the archive has exactly [n_ants]
    entries". *)
Definition seed_fills_archive (self : ACO) (routes : list route) : Prop :=
  forall self' best_routes best_distances,
    initial_archive self (Some routes) = Ret (self', best_routes, best_distances) ->
    length best_routes = n_ants self /\ length best_distances = n_ants self.

(** An offer made by an ant of the solver [self0]: a nonempty route with its
    own distance. *)
Definition valid_offer (self0 : ACO) (o : route * xdist) : Prop :=
  fst o <> [] /\ snd o = route_distance self0 (fst o).

(** The archive of a solver state is what the offers of the ants so far made
    of the empty archive; the graph and the number of ants are those of
    [self0]. *)
Definition archive_of_offers (self0 : ACO) (offers : list (route * xdist))
    (st : ACO * rng * list route * list xdist) : Prop :=
  let '(self, _, best_routes, best_distances) := st in
  cities self = cities self0
  /\ n_ants self = n_ants self0
  /\ update_callback self = update_callback self0
  /\ offer_all offers (empty_archive (n_ants self0))
     = Ret (best_routes, best_distances)
  /\ Forall (valid_offer self0) offers.

(** The best recorded distance, [best_distances[0]]. *)
Definition best_of (st : ACO * rng * list route * list xdist) : xdist :=
  hd Inf (snd st).

(** A sequence that never goes up. *)
Definition non_increasing (l : list xdist) : Prop :=
  StronglySorted (fun a b => xle b a) l.

(** The complete graph on 0, 1, 2 with the weights 0->1: 1, 0->2: 5,
    1->2: 1, 1->0: 2, 2->0: 2, 2->1: 5, two ants. *)
Definition graphK : DiGraph :=
  mkGraph [0; 1; 2]%nat
    [mkEdge 0%nat 1%nat (Some 1); mkEdge 0%nat 2%nat (Some 5);
     mkEdge 1%nat 2%nat (Some 1); mkEdge 1%nat 0%nat (Some 2);
     mkEdge 2%nat 0%nat (Some 2); mkEdge 2%nat 1%nat (Some 5)].

Definition acoK : ACO := init graphK 2%nat 1%nat 2%nat (1 # 2) false.

(** Draws that make both ants of the first iteration walk 0, 2, 1 and both
    ants of the second iteration walk 1, 2, 0. *)
Definition rngK : rng :=
  fun n => nth n [0; 2 ^ 53 - 1; 0; 0; 2 ^ 53 - 1; 0; 1; 0; 0; 1; 0; 0]%N 0%N.

(** Supplied routes of distance 10 and 2, the better one second. *)
Definition seedsK : list route := [[0; 2; 1]; [0; 1; 2]]%nat.

(** A shortest-path service that finds no path. *)
Definition no_path : DiGraph -> node -> node -> option (list node) :=
  fun _ _ _ => None.

(** Only [run_aco] raises "route not found"; no computation below it does. *)
Definition below_run_aco {A : Type} (m : outcome A) : Prop :=
  m <> Raise RouteNotFound.

(** Line 147 of the script part: the pairs of the best route that are drawn,
    [(best_route[i], best_route[(i + 1) % len(best_route)])] for
    [i] in [range(len(best_route) - 1)]. *)
Definition route_edges (best_route : route) : list (node * node) :=
  map (pair_at best_route) (seq 0 (length best_route - 1)).

(** What [nx.shortest_path] promises: a node sequence from the source to the
    target along edges of the graph. *)
Definition path_contract
    (shortest_path : DiGraph -> node -> node -> option (list node)) : Prop :=
  forall g u v p,
    shortest_path g u v = Some p ->
    hd_error p = Some u
    /\ last p u = v
    /\ forallb (pair_is_edge g) (consecutive p) = true.

(** Every two different nodes are joined by an edge. *)
Definition complete (g : DiGraph) : Prop :=
  forall u v, In u (nodes g) -> In v (nodes g) -> u <> v -> has_edge g u v = true.

(** An archive slot holds a route with its own distance, or is still in its
    initial state [([], inf)]. *)
Definition scored (self0 : ACO) (r : route) (d : xdist) : Prop :=
  (r = [] /\ d = Inf) \/ (r <> [] /\ d = route_distance self0 r).

(** The amount [pherm_rate / distance] where the division is defined. *)
Definition deposit_of (rate : Q) (d : xdist) : Q :=
  match fdiv rate d with
  | Ret x => x
  | _ => 0
  end.

(** A generator that always draws 2. *)
Definition rng_two : rng := fun _ => 2%N.

(** The statement "a run raises 'route not found' or else returns a result
    without raising". *)
Definition not_found_or_returns
    (shortest_path : DiGraph -> node -> node -> option (list node))
    (self : ACO) (iterations : nat) (s : rng) : Prop :=
  run_aco shortest_path self iterations s = Raise RouteNotFound
  \/ exists r d h, run_aco shortest_path self iterations s = Ret (r, d, h).

(** * Properties *)

Unset Implicit Arguments.

(** ** route_distance *)

Lemma consecutive_cons (u v : node) (l : route) :
  consecutive (u :: v :: l) = (u, v) :: consecutive (v :: l).
Proof. reflexivity. Qed.

Lemma path_weight_cons (g : DiGraph) (u v : node) (l : route) :
  path_weight g (u :: v :: l) = get_weight g u v + path_weight g (v :: l).
Proof. reflexivity. Qed.

Lemma route_distance_loop_spec (g : DiGraph) (rest pre : route) (acc : Q) :
  xeq (route_distance_loop g (pre ++ rest)
         (seq (length pre) (length rest - 1)) acc)
      (if forallb (pair_is_edge g) (consecutive rest)
       then Fin (acc + path_weight g rest) else Inf).
Proof.
  revert pre acc.
  induction rest as [|u rest IH]; intros pre acc.
  - simpl. unfold path_weight. simpl. lra.
  - destruct rest as [|v rest'].
    + simpl. unfold path_weight. simpl. lra.
    + replace (length (u :: v :: rest') - 1)%nat with (S (length rest')) by (simpl; lia).
      cbn [seq route_distance_loop].
      assert (Hu : nth (length pre) (pre ++ u :: v :: rest') O = u).
      { rewrite app_nth2 by lia. now rewrite Nat.sub_diag. }
      assert (Hv : nth ((length pre + 1) mod length (pre ++ u :: v :: rest'))
                     (pre ++ u :: v :: rest') O = v).
      { rewrite Nat.mod_small by (rewrite length_app; simpl; lia).
        rewrite app_nth2 by lia.
        now replace (length pre + 1 - length pre)%nat with 1%nat by lia. }
      rewrite Hu, Hv, consecutive_cons, path_weight_cons.
      cbn [forallb]. unfold pair_is_edge at 1. cbn [fst snd].
      destruct (has_edge g u v); [|exact I].
      cbn [andb].
      specialize (IH (pre ++ [u]) (acc + get_weight g u v)).
      rewrite <- app_assoc in IH. cbn [app] in IH.
      rewrite length_app in IH. cbn [length] in IH.
      replace (length pre + 1)%nat with (S (length pre)) in IH by lia.
      replace (S (length rest') - 1)%nat with (length rest') in IH by lia.
      destruct (route_distance_loop g (pre ++ u :: v :: rest')
                  (seq (S (length pre)) (length rest')) (acc + get_weight g u v));
        destruct (forallb (pair_is_edge g) (consecutive (v :: rest')));
        cbn [xeq] in *; try contradiction; try exact I.
      lra.
Qed.

(** C3.  [route_distance] is the sum of the weights of the edges between
    consecutive nodes of the route, first to last with no pair closing the
    cycle, and is [inf] as soon as one consecutive pair is not an edge of the
    graph; it reads only the graph and the route, no other field of the
    solver. *)
Theorem route_distance_spec (self : ACO) (r : route) :
  xeq (route_distance self r)
      (if forallb (pair_is_edge (cities self)) (consecutive r)
       then Fin (path_weight (cities self) r) else Inf)
  /\ (forall u v, In (u, v) (consecutive r) ->
                  has_edge (cities self) u v = false ->
                  route_distance self r = Inf)
  /\ (forall k a b e c l P,
        route_distance (mkACO (cities self) k a b e c l P) r
        = route_distance self r).
Proof.
  assert (Hspec : xeq (route_distance self r)
            (if forallb (pair_is_edge (cities self)) (consecutive r)
             then Fin (path_weight (cities self) r) else Inf)).
  { unfold route_distance.
    pose proof (route_distance_loop_spec (cities self) r [] 0) as H.
    cbn [app length] in H.
    destruct (route_distance_loop (cities self) r (seq 0 (length r - 1)) 0);
      destruct (forallb (pair_is_edge (cities self)) (consecutive r));
      cbn [xeq] in *; try contradiction; try exact I.
    lra. }
  split; [exact Hspec|]. split.
  - intros u v Hin He.
    destruct (forallb (pair_is_edge (cities self)) (consecutive r)) eqn:Hall.
    + rewrite forallb_forall in Hall. specialize (Hall (u, v) Hin).
      unfold pair_is_edge in Hall. cbn [fst snd] in Hall. congruence.
    + destruct (route_distance self r); [contradiction|reflexivity].
  - intros. reflexivity.
Qed.

(** ** The pheromone matrix *)

Section ListUpdate.
Context {A : Type}.
Variable f : A -> A.

Lemma length_update_nth (i : nat) (l : list A) :
  length (update_nth f i l) = length l.
Proof.
  revert i. induction l as [|x l IH]; intros [|i]; simpl; auto.
Qed.

Lemma nth_update_nth_eq (i : nat) (l : list A) (d : A) :
  (i < length l)%nat -> nth i (update_nth f i l) d = f (nth i l d).
Proof.
  revert i. induction l as [|x l IH]; intros [|i] H; simpl in *; try lia; auto.
  apply IH. lia.
Qed.

Lemma nth_update_nth_neq (i k : nat) (l : list A) (d : A) :
  k <> i -> nth k (update_nth f i l) d = nth k l d.
Proof.
  revert i k. induction l as [|x l IH]; intros [|i] [|k] H; simpl; auto.
  congruence.
Qed.

Lemma Forall_update_nth (Pr : A -> Prop) (i : nat) (l : list A) :
  (forall x, Pr x -> Pr (f x)) -> Forall Pr l -> Forall Pr (update_nth f i l).
Proof.
  intros Hf. revert i.
  induction l as [|x l IH]; intros i H; destruct i; simpl; auto;
    inversion H; subst; constructor; auto.
Qed.
End ListUpdate.

Lemma nth_scale_row (r : Q) (row : list Q) (j : nat) :
  nth j (map (Qmult r) row) 0 == r * nth j row 0.
Proof.
  revert j. induction row as [|x row IH]; intros [|j]; simpl; try lra.
  apply IH.
Qed.

Lemma entry_scale (r : Q) (P : matrix) (a b : nat) :
  entry (scale r P) a b == r * entry P a b.
Proof.
  unfold entry, scale.
  change (@nil Q) with (map (Qmult r) []) at 1.
  rewrite map_nth. apply nth_scale_row.
Qed.

Lemma matrix_shape_scale (n : nat) (r : Q) (P : matrix) :
  matrix_shape n P -> matrix_shape n (scale r P).
Proof.
  intros [Hl Hr]. split.
  - unfold scale. now rewrite length_map.
  - unfold scale. rewrite Forall_map.
    eapply Forall_impl; [|exact Hr]. intros row H. now rewrite length_map.
Qed.

Lemma matrix_shape_add_at (n : nat) (P : matrix) (i j : nat) (x : Q) :
  matrix_shape n P -> matrix_shape n (add_at P i j x).
Proof.
  intros [Hl Hr]. split.
  - unfold add_at. now rewrite length_update_nth.
  - unfold add_at. apply Forall_update_nth; [|exact Hr].
    intros row H. now rewrite length_update_nth.
Qed.

Lemma matrix_shape_row (n : nat) (P : matrix) (i : nat) :
  matrix_shape n P -> (i < n)%nat -> length (nth i P []) = n.
Proof.
  intros [Hl Hr] Hi. rewrite Forall_forall in Hr. apply Hr.
  apply nth_In. lia.
Qed.

Lemma entry_add_at (n : nat) (P : matrix) (i j a b : nat) (x : Q) :
  matrix_shape n P -> (i < n)%nat -> (j < n)%nat ->
  entry (add_at P i j x) a b
  = if (i =? a) && (j =? b) then entry P a b + x else entry P a b.
Proof.
  intros HP Hi Hj. unfold entry, add_at.
  destruct (Nat.eqb_spec i a) as [->|Hia].
  - rewrite nth_update_nth_eq by (destruct HP; lia).
    destruct (Nat.eqb_spec j b) as [->|Hjb]; cbn [andb].
    + rewrite nth_update_nth_eq; [reflexivity|].
      rewrite (matrix_shape_row n P a HP); assumption.
    + rewrite nth_update_nth_neq by congruence. reflexivity.
  - cbn [andb]. rewrite nth_update_nth_neq by congruence. reflexivity.
Qed.

(** ** node_to_idx *)

Lemma index_of_Some (u : node) (l : list node) (i : nat) :
  index_of u l = Some i -> (i < length l)%nat /\ nth i l O = u.
Proof.
  revert i. induction l as [|x l IH]; intros i H; simpl in *; [discriminate|].
  destruct (Nat.eqb_spec x u) as [->|Hne].
  - inversion H; subst. split; [lia|reflexivity].
  - destruct (index_of u l) as [k|]; [|discriminate].
    inversion H; subst. destruct (IH k eq_refl). split; [lia|assumption].
Qed.

Lemma index_of_In (u : node) (l : list node) :
  In u l -> exists i, index_of u l = Some i.
Proof.
  induction l as [|x l IH]; intros H; simpl in *; [contradiction|].
  destruct (Nat.eqb_spec x u) as [->|Hne]; [eauto|].
  destruct H as [H|H]; [congruence|].
  destruct (IH H) as [i Hi]. rewrite Hi. simpl. eauto.
Qed.

Lemma index_of_inj (u v : node) (l : list node) (i : nat) :
  index_of u l = Some i -> index_of v l = Some i -> u = v.
Proof.
  intros Hu Hv. apply index_of_Some in Hu, Hv.
  destruct Hu as [_ Hu], Hv as [_ Hv]. congruence.
Qed.

(** ** update_pheromones *)

Lemma pair_at_In (r : route) (i : nat) :
  (i < length r)%nat -> In (fst (pair_at r i)) r /\ In (snd (pair_at r i)) r.
Proof.
  intros H. unfold pair_at. cbn [fst snd]. split; apply nth_In; [assumption|].
  apply Nat.mod_upper_bound. lia.
Qed.

Lemma deposit_sum_cons (self : ACO) (a b : nat) (dep : Q) (p : node * node)
    (pairs : list (node * node)) :
  deposit_sum self a b dep (p :: pairs)
  = (if deposit_at self a b p then dep else 0) + deposit_sum self a b dep pairs.
Proof. reflexivity. Qed.

Lemma deposit_at_indices (self : ACO) (a b : nat) (u v : node) (ui vi : nat) :
  index_of u (node_list self) = Some ui ->
  index_of v (node_list self) = Some vi ->
  deposit_at self a b (u, v)
  = has_edge (cities self) u v && ((ui =? a)%nat && (vi =? b)%nat).
Proof.
  intros Hu Hv. unfold deposit_at. cbn [fst snd]. now rewrite Hu, Hv.
Qed.

Lemma update_pheromones_loop_entries (self : ACO) (r : route) (d : xdist)
    (rate dep : Q) :
  fdiv rate d = Ret dep ->
  (forall u, In u r -> In u (node_list self)) ->
  forall idxs P,
    matrix_shape (n_cities self) P ->
    (forall i, In i idxs -> (i < length r)%nat) ->
    exists P',
      update_pheromones_loop self r d rate idxs P = Ret P'
      /\ matrix_shape (n_cities self) P'
      /\ forall a b,
           entry P' a b
           == entry P a b + deposit_sum self a b dep (map (pair_at r) idxs).
Proof.
  intros Hdiv Hnodes.
  induction idxs as [|i idxs IH]; intros P HP Hidx.
  - exists P. split; [reflexivity|split; [assumption|]].
    intros a b. unfold deposit_sum. cbn [map fold_right]. lra.
  - assert (Hi : (i < length r)%nat) by (apply Hidx; now left).
    destruct (pair_at_In r i Hi) as [Hu Hv].
    destruct (index_of_In _ _ (Hnodes _ Hu)) as [ui Hui].
    destruct (index_of_In _ _ (Hnodes _ Hv)) as [vi Hvi].
    unfold pair_at in Hui, Hvi. cbn [fst snd] in Hui, Hvi.
    assert (Hrest : forall k, In k idxs -> (k < length r)%nat)
      by (intros k Hk; apply Hidx; now right).
    cbn [update_pheromones_loop map]. unfold node_to_idx.
    rewrite Hui, Hvi. cbn [bind].
    destruct (has_edge (cities self) (nth i r O)
                (nth ((i + 1) mod length r) r O)) eqn:He.
    + rewrite Hdiv. cbn [bind].
      destruct (index_of_Some _ _ _ Hui) as [Hui' _].
      destruct (index_of_Some _ _ _ Hvi) as [Hvi' _].
      destruct (IH (add_at P ui vi dep) (matrix_shape_add_at _ P ui vi dep HP) Hrest)
        as (P' & HP' & Hsh & Hent).
      exists P'. split; [assumption|split; [assumption|]].
      intros a b. rewrite Hent, deposit_sum_cons.
      rewrite (entry_add_at _ P ui vi a b dep HP Hui' Hvi').
      change (pair_at r i)
        with (nth i r O, nth ((i + 1) mod length r) r O).
      rewrite (deposit_at_indices self a b _ _ _ _ Hui Hvi), He.
      cbn [andb].
      destruct ((ui =? a)%nat && (vi =? b)%nat); lra.
    + destruct (IH P HP Hrest) as (P' & HP' & Hsh & Hent).
      exists P'. split; [assumption|split; [assumption|]].
      intros a b. rewrite Hent, deposit_sum_cons.
      change (pair_at r i)
        with (nth i r O, nth ((i + 1) mod length r) r O).
      rewrite (deposit_at_indices self a b _ _ _ _ Hui Hvi), He.
      cbn [andb]. lra.
Qed.

Lemma deposit_sum_nonneg (self : ACO) (a b : nat) (dep : Q)
    (pairs : list (node * node)) :
  0 <= dep -> 0 <= deposit_sum self a b dep pairs.
Proof.
  intros H. induction pairs as [|p pairs IH]; cbn; [lra|].
  fold (deposit_sum self a b dep pairs).
  destruct (deposit_at self a b p); lra.
Qed.

Lemma deposit_sum_hit (self : ACO) (a b : nat) (dep : Q)
    (pairs : list (node * node)) (p : node * node) :
  0 <= dep -> In p pairs -> deposit_at self a b p = true ->
  dep <= deposit_sum self a b dep pairs.
Proof.
  intros H Hin Hp. induction pairs as [|q pairs IH]; [contradiction|].
  cbn. fold (deposit_sum self a b dep pairs).
  pose proof (deposit_sum_nonneg self a b dep pairs H) as Hn.
  destruct Hin as [->|Hin].
  - rewrite Hp. lra.
  - specialize (IH Hin). destruct (deposit_at self a b q); lra.
Qed.

Lemma deposit_sum_miss (self : ACO) (a b : nat) (dep : Q)
    (pairs : list (node * node)) :
  (forall p, In p pairs -> deposit_at self a b p = false) ->
  deposit_sum self a b dep pairs == 0.
Proof.
  intros H. induction pairs as [|q pairs IH]; cbn; [lra|].
  fold (deposit_sum self a b dep pairs).
  rewrite (H q) by now left.
  rewrite IH; [lra|]. intros p Hp. apply H. now right.
Qed.

Lemma deposit_sum_zero (self : ACO) (a b : nat) (pairs : list (node * node)) :
  deposit_sum self a b 0 pairs == 0.
Proof.
  induction pairs as [|q pairs IH]; cbn; [lra|].
  fold (deposit_sum self a b 0 pairs).
  destruct (deposit_at self a b q); lra.
Qed.

(** The whole call: evaporation first, then the deposits. *)
Lemma update_pheromones_entries (self : ACO) (r : route) (d : xdist)
    (rate dep : Q) :
  matrix_shape (n_cities self) (pheromone self) ->
  r <> [] ->
  (forall u, In u r -> In u (node_list self)) ->
  fdiv rate d = Ret dep ->
  exists P',
    update_pheromones self r d rate = Ret (set_pheromone self P')
    /\ matrix_shape (n_cities self) P'
    /\ forall a b,
         entry P' a b
         == evaporation self * entry (pheromone self) a b
            + deposit_sum self a b dep (route_pairs r).
Proof.
  intros HP Hr Hnodes Hdiv.
  destruct (update_pheromones_loop_entries self r d rate dep Hdiv Hnodes
              (seq 0 (length r)) _
              (matrix_shape_scale _ (evaporation self) _ HP))
    as (P' & HP' & Hsh & Hent).
  { intros i Hi. apply in_seq in Hi. lia. }
  exists P'. split; [|split; [assumption|]].
  - unfold update_pheromones. destruct r; [congruence|].
    rewrite HP'. reflexivity.
  - intros a b. rewrite Hent, entry_scale. reflexivity.
Qed.

Lemma fdiv_pos (rate d : Q) : 0 < d -> fdiv rate (Fin d) = Ret (rate / d).
Proof.
  intros H. unfold fdiv.
  destruct (Qeq_bool d 0) eqn:E; [|reflexivity].
  apply Qeq_bool_iff in E. lra.
Qed.

Lemma fdiv_neg (rate d : Q) : d < 0 -> fdiv rate (Fin d) = Ret (rate / d).
Proof.
  intros H. unfold fdiv.
  destruct (Qeq_bool d 0) eqn:E; [|reflexivity].
  apply Qeq_bool_iff in E. lra.
Qed.

Lemma Qdiv_nonneg (rate d : Q) : 0 <= rate -> 0 < d -> 0 <= rate / d.
Proof.
  intros Hr Hd. unfold Qdiv. apply Qmult_le_0_compat; [assumption|].
  apply Qlt_le_weak. now apply Qinv_lt_0_compat.
Qed.

Lemma deposit_at_pair (self : ACO) (a b : nat) (u v : node) (p : node * node) :
  index_of u (node_list self) = Some a ->
  index_of v (node_list self) = Some b ->
  deposit_at self a b p = true -> p = (u, v).
Proof.
  intros Hu Hv H. unfold deposit_at in H. destruct p as [x y]. cbn [fst snd] in H.
  apply andb_true_iff in H. destruct H as [_ H].
  destruct (index_of x (node_list self)) as [i|] eqn:Hx; [|discriminate].
  destruct (index_of y (node_list self)) as [j|] eqn:Hy; [|discriminate].
  apply andb_true_iff in H. destruct H as [Hi Hj].
  apply Nat.eqb_eq in Hi, Hj. subst.
  f_equal; eapply index_of_inj; eassumption.
Qed.

(** C1, as the code has it.  [update_pheromones] multiplies the whole matrix
    by the evaporation factor before it deposits.  For a nonempty route over
    known nodes, a positive finite distance and a non-negative rate, the call
    returns; every entry is at least evaporation times its value before the
    call; an entry on a pair of the route that is an edge of the graph gains
    at least [rate / distance] on top of that; an entry on no pair of the
    route is exactly evaporation times its value before the call. *)
Theorem update_pheromones_evaporates_then_adds (self : ACO) (r : route)
    (d rate : Q) :
  matrix_shape (n_cities self) (pheromone self) ->
  r <> [] ->
  (forall u, In u r -> In u (node_list self)) ->
  0 < d -> 0 <= rate ->
  exists self',
    update_pheromones self r (Fin d) rate = Ret self'
    /\ forall u v a b,
         index_of u (node_list self) = Some a ->
         index_of v (node_list self) = Some b ->
         evaporation self * entry (pheromone self) a b
           <= entry (pheromone self') a b
         /\ (In (u, v) (route_pairs r) -> has_edge (cities self) u v = true ->
               evaporation self * entry (pheromone self) a b + rate / d
                 <= entry (pheromone self') a b)
         /\ (~ In (u, v) (route_pairs r) ->
               entry (pheromone self') a b
               == evaporation self * entry (pheromone self) a b).
Proof.
  intros HP Hr Hnodes Hd Hrate.
  destruct (update_pheromones_entries self r (Fin d) rate (rate / d)
              HP Hr Hnodes (fdiv_pos rate d Hd))
    as (P' & Hrun & _ & Hent).
  exists (set_pheromone self P'). split; [assumption|].
  intros u v a b Hu Hv. cbn [pheromone set_pheromone].
  pose proof (Qdiv_nonneg rate d Hrate Hd) as Hdep.
  repeat split.
  - rewrite Hent.
    pose proof (deposit_sum_nonneg self a b _ (route_pairs r) Hdep). lra.
  - intros Hin He. rewrite Hent.
    assert (Hhit : deposit_at self a b (u, v) = true).
    { rewrite (deposit_at_indices self a b _ _ _ _ Hu Hv), He, !Nat.eqb_refl.
      reflexivity. }
    pose proof (deposit_sum_hit self a b _ (route_pairs r) (u, v) Hdep Hin Hhit).
    lra.
  - intros Hnin. rewrite Hent.
    rewrite deposit_sum_miss; [lra|].
    intros p Hp. destruct (deposit_at self a b p) eqn:E; [|reflexivity].
    apply (deposit_at_pair self a b u v p Hu Hv) in E. subst p. contradiction.
Qed.

Lemma matrix_shape_aco3 : matrix_shape (n_cities aco3) (pheromone aco3).
Proof.
  split; [reflexivity|]. repeat constructor.
Defined.

Lemma route01_known : forall u, In u [0; 1]%nat -> In u (node_list aco3).
Proof.
  intros u [<-|[<-|[]]]; cbn; auto.
Defined.

Lemma update_pheromones_evaporates_then_adds_witness :
  exists self',
    update_pheromones aco3 [0; 1]%nat (Fin 1) 1 = Ret self'
    /\ forall u v a b,
         index_of u (node_list aco3) = Some a ->
         index_of v (node_list aco3) = Some b ->
         evaporation aco3 * entry (pheromone aco3) a b
           <= entry (pheromone self') a b
         /\ (In (u, v) (route_pairs [0; 1]%nat) ->
             has_edge (cities aco3) u v = true ->
               evaporation aco3 * entry (pheromone aco3) a b + 1 / 1
                 <= entry (pheromone self') a b)
         /\ (~ In (u, v) (route_pairs [0; 1]%nat) ->
               entry (pheromone self') a b
               == evaporation aco3 * entry (pheromone aco3) a b).
Proof.
  apply (update_pheromones_evaporates_then_adds aco3 [0; 1]%nat 1 1).
  - exact matrix_shape_aco3.
  - discriminate.
  - exact route01_known.
  - reflexivity.
  - discriminate.
Defined.

(** C1, as stated, fails: with the default evaporation 0.5 the entry of the
    edge 1 -> 2, which is on no pair of the route [0; 1], drops from 1 to
    0.5 in a single call. *)
Lemma reinforce_only_adds_fails : ~ reinforce_only_adds aco3 [0; 1]%nat 1 1.
Proof.
  intros H.
  destruct (H _ eq_refl 1%nat 2%nat 1%nat 2%nat eq_refl eq_refl) as [_ H2].
  assert (Hn : ~ In (1%nat, 2%nat) (route_pairs [0; 1]%nat)).
  { cbn. intros [E|[E|[]]]; discriminate. }
  specialize (H2 Hn). vm_compute in H2. discriminate.
Qed.

(** The deposit that [update_pheromones] computes for a distance that is
    infinite or negative. *)
Lemma fdiv_inf_or_neg (rate : Q) (d : xdist) :
  (d = Inf \/ exists q, d = Fin q /\ q < 0) ->
  exists dep, fdiv rate d = Ret dep
    /\ (d = Inf -> dep = 0)
    /\ (forall q, d = Fin q -> dep = rate / q).
Proof.
  intros [->|(q & -> & Hq)].
  - exists 0. split; [reflexivity|]. split; [reflexivity|discriminate].
  - exists (rate / q). split; [now apply fdiv_neg|].
    split; [discriminate|]. intros q' E. now inversion E.
Qed.

(** C4, as the code has it.  [update_pheromones] has no guard on the distance.
    For a nonempty route over known nodes and a distance that is infinite or
    negative the call returns without an error, but it is not skipped: the
    matrix is first multiplied by the evaporation factor.  With an infinite
    distance the deposit is [rate / inf = 0], so every entry is evaporation
    times its value before the call; with a negative distance the negative
    amount [rate / distance] is added once for every pair of the route that is
    an edge of the graph. *)
Theorem update_pheromones_no_guard (self : ACO) (r : route) (d : xdist)
    (rate : Q) :
  matrix_shape (n_cities self) (pheromone self) ->
  r <> [] ->
  (forall u, In u r -> In u (node_list self)) ->
  (d = Inf \/ exists q, d = Fin q /\ q < 0) ->
  exists self',
    update_pheromones self r d rate = Ret self'
    /\ (d = Inf ->
        forall a b,
          entry (pheromone self') a b
          == evaporation self * entry (pheromone self) a b)
    /\ (forall q, d = Fin q ->
        forall a b,
          entry (pheromone self') a b
          == evaporation self * entry (pheromone self) a b
             + deposit_sum self a b (rate / q) (route_pairs r)).
Proof.
  intros HP Hr Hnodes Hd.
  destruct (fdiv_inf_or_neg rate d Hd) as (dep & Hdiv & Hinf & Hfin).
  destruct (update_pheromones_entries self r d rate dep HP Hr Hnodes Hdiv)
    as (P' & Hrun & _ & Hent).
  exists (set_pheromone self P'). split; [assumption|].
  cbn [pheromone set_pheromone]. split.
  - intros E a b. rewrite Hent, (Hinf E), deposit_sum_zero. lra.
  - intros q E a b. rewrite Hent, (Hfin q E). reflexivity.
Qed.

Lemma update_pheromones_no_guard_witness :
  exists self',
    update_pheromones aco3 [0; 1]%nat Inf 1 = Ret self'
    /\ (Inf = Inf ->
        forall a b,
          entry (pheromone self') a b
          == evaporation aco3 * entry (pheromone aco3) a b)
    /\ (forall q, Inf = Fin q ->
        forall a b,
          entry (pheromone self') a b
          == evaporation aco3 * entry (pheromone aco3) a b
             + deposit_sum aco3 a b (1 / q) (route_pairs [0; 1]%nat)).
Proof.
  apply (update_pheromones_no_guard aco3 [0; 1]%nat Inf 1).
  - exact matrix_shape_aco3.
  - discriminate.
  - exact route01_known.
  - left. reflexivity.
Defined.

(** C4, as stated, fails: an infinite distance does not skip the call; with
    the default evaporation 0.5 the entry of the edge 0 -> 1 drops from 1 to
    0.5. *)
Lemma reinforce_skipped_fails : ~ reinforce_skipped aco3 [0; 1]%nat Inf 1.
Proof.
  intros (self' & Hrun & Hent).
  vm_compute in Hrun. injection Hrun as <-.
  specialize (Hent 0%nat 1%nat). vm_compute in Hent. discriminate.
Qed.

(** With distance [0.0] the first pair of the route that is an edge of the
    graph reaches [pherm_rate / 0.0]. *)
Lemma update_pheromones_loop_zero (self : ACO) (r : route) (q rate : Q) :
  q == 0 ->
  (forall u, In u r -> In u (node_list self)) ->
  forall idxs P,
    (forall i, In i idxs -> (i < length r)%nat) ->
    (exists i, In i idxs
       /\ has_edge (cities self) (fst (pair_at r i)) (snd (pair_at r i)) = true) ->
    update_pheromones_loop self r (Fin q) rate idxs P = Raise ZeroDivisionError.
Proof.
  intros Hq Hnodes.
  induction idxs as [|i idxs IH]; intros P Hidx (k & Hk & He).
  - contradiction.
  - assert (Hi : (i < length r)%nat) by (apply Hidx; now left).
    destruct (pair_at_In r i Hi) as [Hu Hv].
    destruct (index_of_In _ _ (Hnodes _ Hu)) as [ui Hui].
    destruct (index_of_In _ _ (Hnodes _ Hv)) as [vi Hvi].
    unfold pair_at in Hui, Hvi. cbn [fst snd] in Hui, Hvi.
    cbn [update_pheromones_loop]. unfold node_to_idx.
    rewrite Hui, Hvi. cbn [bind].
    destruct (has_edge (cities self) (nth i r O)
                (nth ((i + 1) mod length r) r O)) eqn:Hei.
    + unfold fdiv. apply Qeq_bool_iff in Hq. rewrite Hq. reflexivity.
    + apply IH.
      * intros j Hj. apply Hidx. now right.
      * destruct Hk as [->|Hk].
        -- unfold pair_at in He. cbn [fst snd] in He. congruence.
        -- exists k. split; assumption.
Qed.

Lemma update_pheromones_zero_distance (self : ACO) (r : route) (q rate : Q)
    (u v : node) :
  q == 0 ->
  (forall x, In x r -> In x (node_list self)) ->
  In (u, v) (route_pairs r) ->
  has_edge (cities self) u v = true ->
  update_pheromones self r (Fin q) rate = Raise ZeroDivisionError.
Proof.
  intros Hq Hnodes Hin He.
  unfold route_pairs in Hin. apply in_map_iff in Hin.
  destruct Hin as (i & Hp & Hi).
  unfold update_pheromones. destruct r as [|x r']; [contradiction|].
  rewrite (update_pheromones_loop_zero self (x :: r') q rate Hq Hnodes); [reflexivity| |].
  - intros j Hj. apply in_seq in Hj. lia.
  - exists i. split; [assumption|]. rewrite Hp. exact He.
Qed.

(** ** calculate_probabilities *)

Lemma route_distance_pair (self : ACO) (u v : node) :
  route_distance self [u; v]
  = if has_edge (cities self) u v
    then Fin (0 + get_weight (cities self) u v) else Inf.
Proof.
  unfold route_distance. cbn.
  destruct (has_edge (cities self) u v); reflexivity.
Qed.

Lemma attractions_positive (self : ACO) (current : node) (current_idx : nat) :
  (forall v, has_edge (cities self) current v = true ->
             0 < get_weight (cities self) current v) ->
  forall possible_next total pheromones,
    (forall c, In c possible_next -> In c (node_list self)) ->
    exists t p,
      attractions self current current_idx possible_next total pheromones
      = Ret (t, p)
      /\ length p = (length pheromones + length possible_next)%nat.
Proof.
  intros Hpos.
  induction possible_next as [|city rest IH]; intros total pheromones Hknown.
  - exists total, pheromones. split; [reflexivity|]. cbn. lia.
  - cbn [attractions]. unfold node_to_idx.
    destruct (index_of_In city (node_list self)) as [ci Hci].
    { apply Hknown. now left. }
    rewrite Hci. cbn [bind].
    rewrite route_distance_pair.
    assert (Hrest : forall c, In c rest -> In c (node_list self))
      by (intros c Hc; apply Hknown; now right).
    destruct (has_edge (cities self) current city) eqn:He.
    + rewrite fdiv_pos by (specialize (Hpos city He); lra).
      cbn [bind].
      edestruct IH as (t & p & Hrun & Hlen); [exact Hrest|].
      exists t, p. split; [exact Hrun|].
      rewrite Hlen, length_app. cbn. lia.
    + cbn [fdiv bind].
      edestruct IH as (t & p & Hrun & Hlen); [exact Hrest|].
      exists t, p. split; [exact Hrun|].
      rewrite Hlen, length_app. cbn. lia.
Qed.

Lemma attractions_zero_weight (self : ACO) (current : node) (current_idx : nat) :
  forall possible_next total pheromones,
    (forall c, In c possible_next -> In c (node_list self)) ->
    (exists c, In c possible_next
       /\ has_edge (cities self) current c = true
       /\ get_weight (cities self) current c == 0) ->
    attractions self current current_idx possible_next total pheromones
    = Raise ZeroDivisionError.
Proof.
  induction possible_next as [|city rest IH];
    intros total pheromones Hknown (c & Hc & He & Hw).
  - contradiction.
  - cbn [attractions]. unfold node_to_idx.
    destruct (index_of_In city (node_list self)) as [ci Hci].
    { apply Hknown. now left. }
    rewrite Hci. cbn [bind].
    destruct (fdiv 1 (route_distance self [current; city])) as [inv|e|] eqn:Hdiv.
    + cbn [bind]. apply IH.
      * intros x Hx. apply Hknown. now right.
      * destruct Hc as [->|Hc]; [|exists c; auto].
        exfalso. rewrite route_distance_pair, He in Hdiv.
        unfold fdiv in Hdiv.
        assert (Hz : Qeq_bool (0 + get_weight (cities self) current c) 0 = true)
          by (apply Qeq_bool_iff; lra).
        rewrite Hz in Hdiv. discriminate.
    + cbn [bind]. unfold fdiv in Hdiv.
      destruct (route_distance self [current; city]) as [q|]; [|discriminate].
      destruct (Qeq_bool q 0); congruence.
    + unfold fdiv in Hdiv.
      destruct (route_distance self [current; city]) as [q|]; [|discriminate].
      destruct (Qeq_bool q 0); discriminate.
Qed.

(** C10.  The selection weight divides [1.0] by the distance of the one-edge
    route from the current node to the candidate.  Over known nodes: when
    every edge out of the current node has a strictly positive weight, each
    divisor is positive or infinite and [calculate_probabilities] returns one
    probability per candidate; when some candidate is reached by an edge of
    weight 0, the call raises [ZeroDivisionError]. *)
Theorem calculate_probabilities_division (self : ACO) (current : node)
    (possible_next : list node) :
  In current (node_list self) ->
  (forall c, In c possible_next -> In c (node_list self)) ->
  ((forall v, has_edge (cities self) current v = true ->
              0 < get_weight (cities self) current v) ->
   (forall c, route_distance self [current; c] = Inf
              \/ exists w, route_distance self [current; c] = Fin w /\ 0 < w)
   /\ exists probabilities,
        calculate_probabilities self current possible_next = Ret probabilities
        /\ length probabilities = length possible_next)
  /\ ((exists c, In c possible_next
         /\ has_edge (cities self) current c = true
         /\ get_weight (cities self) current c == 0) ->
      calculate_probabilities self current possible_next
      = Raise ZeroDivisionError).
Proof.
  intros Hcur Hknown. split.
  - intros Hpos. split.
    + intros c. rewrite route_distance_pair.
      destruct (has_edge (cities self) current c) eqn:He; [right|now left].
      eexists. split; [reflexivity|]. specialize (Hpos c He). lra.
    + unfold calculate_probabilities.
      destruct possible_next as [|c0 rest] eqn:Epn; [exists []; now split|].
      rewrite <- Epn in *. unfold node_to_idx.
      destruct (index_of_In current (node_list self) Hcur) as [ci Hci].
      rewrite Hci. cbn [bind].
      destruct (attractions_positive self current ci Hpos possible_next 0 [] Hknown)
        as (t & p & Hrun & Hlen).
      rewrite Hrun. cbn [bind].
      destruct (Qeq_bool t 0).
      * eexists. split; [reflexivity|]. now rewrite repeat_length.
      * eexists. split; [reflexivity|]. rewrite length_map, Hlen. reflexivity.
  - intros Hzero. unfold calculate_probabilities.
    destruct possible_next as [|c0 rest] eqn:Epn.
    + destruct Hzero as (c & [] & _).
    + rewrite <- Epn in *. unfold node_to_idx.
      destruct (index_of_In current (node_list self) Hcur) as [ci Hci].
      rewrite Hci. cbn [bind].
      now rewrite (attractions_zero_weight self current ci possible_next 0 []
                     Hknown Hzero).
Qed.

Lemma graph3_positive_from_1 (v : node) :
  has_edge (cities aco3) 1%nat v = true -> 0 < get_weight (cities aco3) 1%nat v.
Proof.
  destruct v as [|[|[|v]]]; cbn; intros H; try discriminate; reflexivity.
Defined.

Lemma calculate_probabilities_division_witness :
  (exists probabilities,
     calculate_probabilities aco3 1%nat [0; 2]%nat = Ret probabilities
     /\ length probabilities = 2%nat)
  /\ calculate_probabilities aco_zero 0%nat [1]%nat = Raise ZeroDivisionError.
Proof.
  split.
  - refine (proj2 (proj1 (calculate_probabilities_division aco3 1%nat [0; 2]%nat
                            _ _) graph3_positive_from_1)).
    + cbn. auto.
    + intros c [<-|[<-|[]]]; cbn; auto.
  - refine (proj2 (calculate_probabilities_division aco_zero 0%nat [1]%nat _ _) _).
    + cbn. auto.
    + intros c [<-|[]]; cbn; auto.
    + exists 1%nat. split; [now left|]. split; reflexivity.
Defined.

(** ** The elite archive *)

Lemma xltb_irrefl (a : xdist) : xltb a a = false.
Proof.
  destruct a as [q|]; cbn; [|reflexivity].
  apply negb_false_iff, Qle_bool_iff. lra.
Qed.

Lemma xltb_le_trans (a b c : xdist) :
  xltb a b = true -> xle b c -> xltb a c = true.
Proof.
  unfold xle. destruct a as [x|], b as [y|], c as [z|]; cbn; try congruence.
  rewrite !negb_true_iff, negb_false_iff, Qle_bool_iff.
  intros H1 H2.
  destruct (Qle_bool z x) eqn:E; [|reflexivity].
  apply Qle_bool_iff in E.
  assert (Qle_bool y x = true) by (apply Qle_bool_iff; lra). congruence.
Qed.

Lemma In_removelast {A : Type} (x : A) (l : list A) :
  In x (removelast l) -> In x l.
Proof.
  induction l as [|y l IH]; [auto|].
  destruct l as [|z l]; [contradiction|].
  intros [->|H]; [now left|]. right. now apply IH.
Qed.

Lemma length_removelast_cons {A : Type} (e : A) (l : list A) :
  length (removelast (e :: l)) = length l.
Proof.
  revert e. induction l as [|y l IH]; intros e; [reflexivity|].
  change (removelast (e :: y :: l)) with (e :: removelast (y :: l)).
  cbn [length]. now rewrite IH.
Qed.

Lemma removelast_app_cons {A : Type} (pre : list A) (e : A) (l : list A) :
  removelast (pre ++ e :: l) = pre ++ removelast (e :: l).
Proof. apply removelast_app. discriminate. Qed.

Lemma update_nth_app {A : Type} (f : A -> A) (pre : list A) (e : A) (l : list A) :
  update_nth f (length pre) (pre ++ e :: l) = pre ++ f e :: l.
Proof.
  induction pre as [|x pre IH]; [reflexivity|]. cbn. now rewrite IH.
Qed.

(** The slice assignment followed by the store at [i], on a list split at
    position [i]. *)
Lemma shift_then_set {A : Type} (i : nat) (pre : list A) (e : A) (tl : list A)
    (x : A) (shift : bool) :
  i = length pre ->
  shift = (i <? length pre + length tl)%nat ->
  set_item i x (if shift then slice_shift i (pre ++ e :: tl) else pre ++ e :: tl)
  = Ret (pre ++ x :: removelast (e :: tl)).
Proof.
  intros -> ->. destruct tl as [|e' tl].
  - cbn [length].
    assert (E : (length pre <? length pre + 0)%nat = false)
      by (apply Nat.ltb_ge; lia).
    rewrite E. unfold set_item. rewrite length_app. cbn [length].
    assert (E' : (length pre <? length pre + 1)%nat = true)
      by (apply Nat.ltb_lt; lia).
    rewrite E'. now rewrite update_nth_app.
  - cbn [length].
    assert (E : (length pre <? length pre + S (length tl))%nat = true)
      by (apply Nat.ltb_lt; lia).
    rewrite E. unfold slice_shift.
    rewrite removelast_app_cons.
    rewrite skipn_app, skipn_all, Nat.sub_diag. cbn [skipn app].
    rewrite firstn_app.
    rewrite firstn_all2 by lia.
    replace (length pre + 1 - length pre)%nat with 1%nat by lia.
    cbn [firstn]. rewrite <- app_assoc. cbn [app].
    unfold set_item. rewrite length_app. cbn [length].
    assert (E' : (length pre
                  <? length pre + S (length (removelast (e :: e' :: tl))))%nat
                 = true) by (apply Nat.ltb_lt; lia).
    rewrite E'. now rewrite update_nth_app.
Qed.

Lemma nth_error_split {A : Type} (pre : list A) (e : A) (tl : list A) :
  nth_error (pre ++ e :: tl) (length pre) = Some e.
Proof.
  rewrite nth_error_app2 by lia. now rewrite Nat.sub_diag.
Qed.

(** One step of the insertion loop at position [length pre_d] when the offered
    distance is smaller than the entry there. *)
Lemma offer_loop_step_lt (r : route) (d : xdist) (idxs : list nat)
    (pre_r : list route) (rb : route) (tl_r : list route)
    (pre_d : list xdist) (e : xdist) (tl_d : list xdist) :
  length pre_r = length pre_d -> length tl_r = length tl_d ->
  xltb d e = true ->
  offer_loop r d (length pre_d :: idxs) (pre_r ++ rb :: tl_r) (pre_d ++ e :: tl_d)
  = offer_loop r d idxs
      ((pre_r ++ [r]) ++ removelast (rb :: tl_r))
      ((pre_d ++ [d]) ++ removelast (e :: tl_d)).
Proof.
  intros Hpre Htl Hlt. cbn [offer_loop].
  rewrite nth_error_split, Hlt. cbv zeta.
  rewrite (shift_then_set (length pre_d) pre_r rb tl_r r).
  - cbn [bind]. rewrite (shift_then_set (length pre_d) pre_d e tl_d d).
    + cbn [bind]. now rewrite <- !app_assoc.
    + reflexivity.
    + rewrite length_app. cbn [length]. f_equal. lia.
  - now symmetry.
  - rewrite length_app. cbn [length]. f_equal. lia.
Qed.

Lemma offer_loop_step_ge (r : route) (d : xdist) (idxs : list nat)
    (best_routes : list route) (pre_d : list xdist) (e : xdist)
    (tl_d : list xdist) :
  xltb d e = false ->
  offer_loop r d (length pre_d :: idxs) best_routes (pre_d ++ e :: tl_d)
  = offer_loop r d idxs best_routes ((pre_d ++ [e]) ++ tl_d).
Proof.
  intros Hge. cbn [offer_loop].
  rewrite nth_error_split, Hge. now rewrite <- app_assoc.
Qed.

(** Once the offered distance is smaller than every remaining entry, every
    remaining slot is overwritten with the offered pair. *)
Lemma offer_loop_all_greater (r : route) (d : xdist) (n : nat) :
  forall suf_r suf_d pre_r pre_d,
    length suf_d = n -> length suf_r = n -> length pre_r = length pre_d ->
    Forall (fun x => xltb d x = true) suf_d ->
    offer_loop r d (seq (length pre_d) n) (pre_r ++ suf_r) (pre_d ++ suf_d)
    = Ret (pre_r ++ repeat r n, pre_d ++ repeat d n).
Proof.
  induction n as [|n IH]; intros suf_r suf_d pre_r pre_d Hd Hr Hpre Hall.
  - destruct suf_d; [|discriminate]. destruct suf_r; [|discriminate].
    reflexivity.
  - destruct suf_d as [|e tl_d]; [discriminate|].
    destruct suf_r as [|rb tl_r]; [discriminate|].
    cbn [length] in Hd, Hr. cbn [seq].
    rewrite offer_loop_step_lt; [|assumption|lia|now inversion Hall].
    replace (S (length pre_d)) with (length (pre_d ++ [d]))
      by (rewrite length_app; cbn; lia).
    rewrite IH.
    + rewrite <- !app_assoc. reflexivity.
    + rewrite length_removelast_cons. lia.
    + rewrite length_removelast_cons. lia.
    + rewrite !length_app. cbn. lia.
    + rewrite Forall_forall in *. intros x Hx. apply Hall.
      now apply In_removelast.
Qed.

Lemma fill_from_length (r : route) (d : xdist) (br : list route)
    (bd : list xdist) :
  length br = length bd ->
  length (fst (fill_from r d br bd)) = length bd
  /\ length (snd (fill_from r d br bd)) = length bd.
Proof.
  revert bd. induction br as [|r0 br IH]; intros [|d0 bd] H;
    cbn in *; try discriminate; auto.
  destruct (xltb d d0).
  - cbn. now rewrite !repeat_length.
  - destruct (IH bd ltac:(lia)) as [H1 H2].
    destruct (fill_from r d br bd) as [x y]. cbn in *. lia.
Qed.

(** On a sorted archive the insertion loop computes [fill_from]. *)
Lemma offer_loop_sorted (r : route) (d : xdist) (n : nat) :
  forall suf_r suf_d pre_r pre_d,
    length suf_d = n -> length suf_r = n -> length pre_r = length pre_d ->
    ascending suf_d ->
    offer_loop r d (seq (length pre_d) n) (pre_r ++ suf_r) (pre_d ++ suf_d)
    = Ret (pre_r ++ fst (fill_from r d suf_r suf_d),
           pre_d ++ snd (fill_from r d suf_r suf_d)).
Proof.
  induction n as [|n IH]; intros suf_r suf_d pre_r pre_d Hd Hr Hpre Hs.
  - destruct suf_d; [|discriminate]. destruct suf_r; [|discriminate].
    reflexivity.
  - destruct suf_d as [|e tl_d]; [discriminate|].
    destruct suf_r as [|rb tl_r]; [discriminate|].
    cbn [fill_from]. destruct (xltb d e) eqn:Hlt.
    + cbn [fst snd]. rewrite <- Hd.
      apply offer_loop_all_greater; try assumption; try lia.
      inversion Hs as [|? ? Htl Hall]; subst.
      constructor; [assumption|].
      eapply Forall_impl; [|exact Hall].
      intros x Hx. eapply xltb_le_trans; eassumption.
    + cbn [length] in Hd, Hr. cbn [seq].
      rewrite offer_loop_step_ge by assumption.
      replace (S (length pre_d)) with (length (pre_d ++ [e]))
        by (rewrite length_app; cbn; lia).
      replace (pre_r ++ rb :: tl_r) with ((pre_r ++ [rb]) ++ tl_r)
        by (now rewrite <- app_assoc).
      rewrite IH.
      * destruct (fill_from r d tl_r tl_d) as [x y]. cbn [fst snd].
        now rewrite <- !app_assoc.
      * lia.
      * lia.
      * rewrite !length_app. cbn. lia.
      * now inversion Hs.
Qed.

Lemma offer_sorted (r : route) (d : xdist) (br : list route) (bd : list xdist) :
  length br = length bd -> ascending bd ->
  offer r d br bd = Ret (fill_from r d br bd).
Proof.
  intros Hlen Hs. unfold offer.
  pose proof (offer_loop_sorted r d (length bd) br bd [] [] eq_refl Hlen eq_refl Hs)
    as H.
  cbn [app length] in H. rewrite H. now destruct (fill_from r d br bd).
Qed.

Lemma ascending_repeat (d : xdist) (n : nat) : ascending (repeat d n).
Proof.
  induction n as [|n IH]; cbn; constructor; [assumption|].
  apply Forall_forall. intros x Hx. apply repeat_spec in Hx. subst.
  apply xltb_irrefl.
Qed.

Lemma fill_from_In (r : route) (d : xdist) (br : list route) (bd : list xdist)
    (x : xdist) :
  In x (snd (fill_from r d br bd)) -> In x bd \/ x = d.
Proof.
  revert bd. induction br as [|r0 br IH]; intros [|d0 bd] H; cbn in *; auto.
  destruct (xltb d d0).
  - cbn in H. destruct H as [H|H]; [now right|].
    apply repeat_spec in H. now right.
  - destruct (fill_from r d br bd) as [u v] eqn:E. cbn in *.
    destruct H as [H|H]; [now left; left|].
    specialize (IH bd). rewrite E in IH. cbn in IH.
    destruct (IH H); auto.
Qed.

Lemma fill_from_ascending (r : route) (d : xdist) (br : list route)
    (bd : list xdist) :
  ascending bd -> ascending (snd (fill_from r d br bd)).
Proof.
  revert bd. induction br as [|r0 br IH]; intros [|d0 bd] Hs; cbn; auto.
  destruct (xltb d d0) eqn:Hlt.
  - cbn [snd]. apply (ascending_repeat d (S (length bd))).
  - pose proof (fill_from_In r d br bd) as Hin.
    specialize (IH bd).
    destruct (fill_from r d br bd) as [u v]. cbn [snd] in *.
    inversion Hs as [|? ? Htl Hall]; subst.
    constructor; [now apply IH|].
    apply Forall_forall. intros x Hx.
    destruct (Hin x Hx) as [H| ->].
    + rewrite Forall_forall in Hall. now apply Hall.
    + exact Hlt.
Qed.

(** What one offer does to a sorted archive: lengths and order are kept. *)
Lemma offer_keeps_archive (r : route) (d : xdist) (br : list route)
    (bd : list xdist) :
  length br = length bd -> ascending bd ->
  exists br' bd',
    offer r d br bd = Ret (br', bd')
    /\ length br' = length bd /\ length bd' = length bd /\ ascending bd'.
Proof.
  intros Hlen Hs.
  exists (fst (fill_from r d br bd)), (snd (fill_from r d br bd)).
  rewrite offer_sorted by assumption.
  destruct (fill_from_length r d br bd Hlen) as [H1 H2].
  pose proof (fill_from_ascending r d br bd Hs).
  destruct (fill_from r d br bd). cbn [fst snd] in *. auto.
Qed.

Lemma offer_all_keeps_archive (offers : list (route * xdist)) :
  forall br bd,
    length br = length bd -> ascending bd ->
    exists br' bd',
      offer_all offers (br, bd) = Ret (br', bd')
      /\ length br' = length bd /\ length bd' = length bd /\ ascending bd'.
Proof.
  induction offers as [|[r d] offers IH]; intros br bd Hlen Hs.
  - exists br, bd. cbn. auto.
  - destruct (offer_keeps_archive r d br bd Hlen Hs)
      as (br1 & bd1 & Hrun & Hl1 & Hl2 & Hs1).
    destruct (IH br1 bd1 ltac:(congruence) Hs1)
      as (br' & bd' & Hrun' & Hl1' & Hl2' & Hs').
    exists br', bd'. cbn [offer_all fst snd]. rewrite Hrun. cbn [bind].
    rewrite Hrun'. split; [reflexivity|].
    split; [congruence|]. split; [congruence|assumption].
Qed.

(** C2.  From the archive of [n_ants] entries [([], inf)], any sequence of
    offers runs without an error and leaves an archive of exactly [n_ants]
    routes and [n_ants] distances, so never longer than [n_ants], whose
    distances are sorted ascending. *)
Theorem archive_bounded_sorted (ants : nat) (offers : list (route * xdist)) :
  exists best_routes best_distances,
    offer_all offers (empty_archive ants) = Ret (best_routes, best_distances)
    /\ length best_routes = ants
    /\ length best_distances = ants
    /\ (length best_distances <= ants)%nat
    /\ ascending best_distances.
Proof.
  destruct (offer_all_keeps_archive offers (repeat [] ants) (repeat Inf ants))
    as (br & bd & Hrun & H1 & H2 & Hs).
  - now rewrite !repeat_length.
  - apply ascending_repeat.
  - rewrite repeat_length in H1, H2.
    exists br, bd. unfold empty_archive.
    split; [assumption|]. split; [assumption|]. split; [assumption|].
    split; [lia|assumption].
Qed.

(** ** Probabilities and the random draw *)

Ltac bind_inv H :=
  match type of H with
  | bind ?m _ = _ =>
      let E := fresh "E" in
      destruct m eqn:E; cbn [bind] in H; try discriminate H
  end.

Lemma attractions_spec (self : ACO) (current : node) (current_idx : nat) :
  forall possible_next total pheromones t p,
    attractions self current current_idx possible_next total pheromones
    = Ret (t, p) ->
    exists ws, p = pheromones ++ ws
      /\ length ws = length possible_next
      /\ t == total + Qsum ws.
Proof.
  induction possible_next as [|city rest IH]; intros total pheromones t p H.
  - cbn in H. inversion H; subst. exists []. rewrite app_nil_r.
    split; [reflexivity|]. split; [reflexivity|]. cbn. lra.
  - cbn [attractions] in H. bind_inv H. bind_inv H.
    apply IH in H. destruct H as (ws & -> & Hlen & Ht).
    eexists (_ :: ws). rewrite <- app_assoc. cbn [app].
    split; [reflexivity|]. split; [cbn; lia|].
    rewrite Ht. cbn [Qsum fold_right]. fold (Qsum ws). lra.
Qed.

Lemma Qsum_repeat (x : Q) (n : nat) :
  Qsum (repeat x n) == inject_Z (Z.of_nat n) * x.
Proof.
  induction n as [|n IH].
  - cbn [repeat Qsum fold_right Z.of_nat]. change (inject_Z 0) with 0. ring.
  - cbn [repeat Qsum fold_right]. fold (Qsum (repeat x n)).
    rewrite IH, Nat2Z.inj_succ. unfold Z.succ. rewrite inject_Z_plus.
    change (inject_Z 1) with 1. ring.
Qed.

Lemma Qsum_map_div (l : list Q) (t : Q) :
  Qsum (map (fun p => p / t) l) == Qsum l / t.
Proof.
  induction l as [|x l IH].
  - cbn. unfold Qdiv. ring.
  - cbn [map Qsum fold_right]. fold (Qsum (map (fun p => p / t) l)).
    fold (Qsum l). rewrite IH. unfold Qdiv. ring.
Qed.

Lemma Qsum_zero (l : list Q) : Forall (fun w => w == 0) l -> Qsum l == 0.
Proof.
  induction 1 as [|x l Hx _ IH]; cbn; [lra|]. fold (Qsum l). lra.
Qed.

Lemma inject_nat_pos (n : nat) : (0 < n)%nat -> 0 < inject_Z (Z.of_nat n).
Proof.
  intros H. change 0 with (inject_Z 0). rewrite <- Zlt_Qlt. lia.
Qed.

(** [calculate_probabilities] returns one probability per candidate, and the
    probabilities add up to 1. *)
Lemma calculate_probabilities_length (self : ACO) (current : node)
    (possible_next : list node) (probabilities : list Q) :
  calculate_probabilities self current possible_next = Ret probabilities ->
  length probabilities = length possible_next
  /\ (possible_next <> [] -> Qsum probabilities == 1).
Proof.
  unfold calculate_probabilities.
  destruct possible_next as [|c0 rest] eqn:Epn.
  - intros H. inversion H. split; [reflexivity|congruence].
  - rewrite <- Epn. intros H. bind_inv H. bind_inv H.
    destruct a0 as [t p].
    apply attractions_spec in E0. destruct E0 as (ws & Hp & Hlen & Ht).
    cbn [app] in Hp. subst p.
    assert (Hn : (0 < length possible_next)%nat) by (rewrite Epn; cbn; lia).
    pose proof (inject_nat_pos _ Hn) as Hpos.
    destruct (Qeq_bool t 0) eqn:Hz; inversion H; subst probabilities.
    + split; [now rewrite repeat_length|]. intros _.
      rewrite Qsum_repeat. field. lra.
    + split; [now rewrite length_map|]. intros _.
      rewrite Qsum_map_div.
      assert (Hne : ~ t == 0).
      { intros Hc. apply Qeq_bool_iff in Hc. congruence. }
      assert (Hs : Qsum ws == t) by lra.
      rewrite Hs. field. exact Hne.
Qed.

Lemma length_accumulate (acc : Q) (w : list Q) :
  length (accumulate acc w) = length w.
Proof.
  revert acc. induction w as [|x w IH]; intros acc; cbn; [reflexivity|].
  now rewrite IH.
Qed.

Lemma last_accumulate (w : list Q) :
  forall acc, w <> [] -> last (accumulate acc w) 0 == acc + Qsum w.
Proof.
  induction w as [|x w IH]; intros acc Hne; [congruence|].
  destruct w as [|y w].
  - cbn. lra.
  - change (accumulate acc (x :: y :: w))
      with ((acc + x) :: accumulate (acc + x) (y :: w)).
    change (accumulate (acc + x) (y :: w))
      with ((acc + x + y) :: accumulate (acc + x + y) w).
    change (last ((acc + x) :: (acc + x + y) :: accumulate (acc + x + y) w) 0)
      with (last ((acc + x + y) :: accumulate (acc + x + y) w) 0).
    change ((acc + x + y) :: accumulate (acc + x + y) w)
      with (accumulate (acc + x) (y :: w)).
    rewrite IH by discriminate.
    cbn [Qsum fold_right]. lra.
Qed.

Lemma bisect_le (a : list Q) (x : Q) (hi : nat) : (bisect a x hi <= hi)%nat.
Proof.
  revert a. induction hi as [|hi IH]; intros a.
  - destruct a; cbn; lia.
  - destruct a as [|y a]; cbn [bisect]; [lia|].
    destruct (Qle_bool y x); [|lia]. specialize (IH a). lia.
Qed.

(** Whatever [random.choices] returns is a member of the population. *)
Lemma random_choices_In (population : list node) (weights : list Q) (s : rng)
    (x : node) (s' : rng) :
  random_choices population weights s = Ret (x, s') -> In x population.
Proof.
  unfold random_choices.
  destruct (length (accumulate 0 weights) =? length population)%nat eqn:El;
    cbn [negb]; [|discriminate].
  apply Nat.eqb_eq in El.
  destruct (accumulate 0 weights) as [|c cs] eqn:Ec; [discriminate|].
  destruct (Qle_bool (last (c :: cs) 0) 0); [discriminate|].
  cbn [draw].
  pose proof (bisect_le (c :: cs) (random_unit (s O) * last (c :: cs) 0)
                (length population - 1)) as Hb.
  set (k := bisect (c :: cs) (random_unit (s O) * last (c :: cs) 0)
              (length population - 1)) in *.
  intros H. injection H as Hx _. subst x.
  apply nth_In. cbn [length] in El. lia.
Qed.

(** With one weight per member and a positive total, [random.choices]
    returns. *)
Lemma random_choices_returns (population : list node) (weights : list Q)
    (s : rng) :
  population <> [] -> length weights = length population ->
  0 < Qsum weights ->
  exists x s', random_choices population weights s = Ret (x, s').
Proof.
  intros Hne Hlen Hsum. unfold random_choices.
  rewrite length_accumulate, Hlen, Nat.eqb_refl. cbn [negb].
  assert (Hw : weights <> []).
  { destruct weights; [|discriminate]. destruct population; [congruence|].
    discriminate. }
  pose proof (last_accumulate weights 0 Hw) as Hlast.
  destruct (accumulate 0 weights) as [|c cs] eqn:Ec.
  - destruct weights; [congruence|discriminate].
  - destruct (Qle_bool (last (c :: cs) 0) 0) eqn:Ele.
    + apply Qle_bool_iff in Ele. lra.
    + cbn [draw]. eauto.
Qed.

(** ** ant_tour *)

Lemma mem_In (x : node) (l : list node) : mem x l = true <-> In x l.
Proof.
  unfold mem. rewrite existsb_exists. split.
  - intros (y & Hy & E). apply Nat.eqb_eq in E. now subst.
  - intros H. exists x. split; [assumption|apply Nat.eqb_refl].
Qed.

Lemma candidates_spec (self : ACO) (unvisited : list node) (current : node) :
  unvisited <> [] ->
  candidates self unvisited current <> []
  /\ incl (candidates self unvisited current) unvisited.
Proof.
  intros Hne. unfold candidates.
  destruct (filter (fun n => mem n unvisited) (neighbors (cities self) current))
    as [|c cs] eqn:E.
  - split; [assumption|apply incl_refl].
  - split; [discriminate|].
    intros x Hx. rewrite <- E in Hx. apply filter_In in Hx.
    now apply mem_In.
Qed.

(** The probability list is never empty inside the loop, so the draw among
    the neighbours is never reached and the chosen city is a candidate. *)
Lemma select_next_spec (self : ACO) (unvisited : list node) (current : node)
    (s : rng) :
  unvisited <> [] ->
  (forall probabilities,
     calculate_probabilities self current (candidates self unvisited current)
     = Ret probabilities -> probabilities <> [])
  /\ (forall probabilities,
        calculate_probabilities self current (candidates self unvisited current)
        = Ret probabilities ->
        select_next self unvisited current s
        = random_choices (candidates self unvisited current) probabilities s)
  /\ (forall next s',
        select_next self unvisited current s = Ret (next, s') ->
        In next (candidates self unvisited current)).
Proof.
  intros Hne. destruct (candidates_spec self unvisited current Hne) as [Hc _].
  assert (Hnonempty : forall probabilities,
    calculate_probabilities self current (candidates self unvisited current)
    = Ret probabilities -> probabilities <> []).
  { intros probabilities H.
    apply calculate_probabilities_length in H. destruct H as [Hlen _].
    destruct probabilities; [|discriminate].
    destruct (candidates self unvisited current); [congruence|discriminate]. }
  assert (Hsel : forall probabilities,
    calculate_probabilities self current (candidates self unvisited current)
    = Ret probabilities ->
    select_next self unvisited current s
    = random_choices (candidates self unvisited current) probabilities s).
  { intros probabilities H. unfold select_next. cbv zeta. rewrite H. cbn [bind].
    specialize (Hnonempty _ H). destruct probabilities; [congruence|reflexivity]. }
  split; [assumption|]. split; [assumption|].
  intros next s' H.
  destruct (calculate_probabilities self current
              (candidates self unvisited current)) as [probabilities|e|] eqn:E.
  - rewrite (Hsel _ eq_refl) in H. eapply random_choices_In; eassumption.
  - unfold select_next in H. cbv zeta in H. rewrite E in H. discriminate.
  - unfold select_next in H. cbv zeta in H. rewrite E in H. discriminate.
Qed.


Lemma remove_node_NoDup (x : node) (l : list node) :
  NoDup l -> NoDup (remove_node x l).
Proof. intros H. now apply NoDup_filter. Qed.








Lemma random_choice_In (l : list node) (s : rng) :
  l <> [] ->
  exists x s', random_choice l s = Ret (x, s') /\ In x l.
Proof.
  intros Hne. unfold random_choice. destruct l as [|y l]; [congruence|].
  cbn [draw]. eexists. eexists. split; [reflexivity|].
  apply nth_In. unfold randbelow.
  pose proof (N.mod_lt (s O) (N.of_nat (length (y :: l))))
    as Hlt.
  cbn [length] in *. lia.
Qed.


(** C7, as the code has it.  When every selection weight of the candidates is
    zero, [calculate_probabilities] returns the probability
    [1 / len(candidates)] for each candidate; the list is not empty, so the
    next city is drawn by [random.choices] among the candidates, not among
    the neighbours: the drawn city is a candidate and is unvisited. *)
Theorem zero_weights_draw_candidate (self : ACO) (unvisited : list node)
    (current : node) (s : rng) (ws : list Q) :
  unvisited <> [] ->
  selection_weights self current (candidates self unvisited current) = Ret ws ->
  Forall (fun w => w == 0) ws ->
  let possible_next := candidates self unvisited current in
  let uniform :=
    repeat (1 / inject_Z (Z.of_nat (length possible_next)))
           (length possible_next) in
  calculate_probabilities self current possible_next = Ret uniform
  /\ select_next self unvisited current s
     = random_choices possible_next uniform s
  /\ exists next s',
       select_next self unvisited current s = Ret (next, s')
       /\ In next possible_next /\ In next unvisited.
Proof.
  intros Hne Hws Hzero possible_next uniform. subst uniform.
  destruct (candidates_spec self unvisited current Hne) as [Hc Hincl].
  fold possible_next in Hc, Hincl, Hws.
  assert (Hcalc : calculate_probabilities self current possible_next
                  = Ret (repeat (1 / inject_Z (Z.of_nat (length possible_next)))
                                (length possible_next))).
  { unfold selection_weights in Hws. bind_inv Hws. bind_inv Hws.
    destruct a0 as [t p]. inversion Hws; subst p.
    unfold calculate_probabilities.
    destruct possible_next as [|c0 rest] eqn:Epn; [congruence|].
    rewrite <- Epn in *. rewrite E. cbn [bind]. rewrite E0. cbn [bind].
    apply attractions_spec in E0. destruct E0 as (ws' & Hp & _ & Ht).
    cbn [app] in Hp. subst ws'.
    pose proof (Qsum_zero ws Hzero) as Hs.
    assert (Hz : Qeq_bool t 0 = true) by (apply Qeq_bool_iff; lra).
    rewrite Hz. reflexivity. }
  destruct (select_next_spec self unvisited current s Hne) as (_ & Hsel & Hin).
  fold possible_next in Hsel, Hin.
  split; [assumption|]. split; [now apply Hsel|].
  destruct (random_choices_returns possible_next
              (repeat (1 / inject_Z (Z.of_nat (length possible_next)))
                      (length possible_next)) s Hc)
    as (next & s' & Hrun).
  - now rewrite repeat_length.
  - apply calculate_probabilities_length in Hcalc.
    destruct Hcalc as [_ Hsum]. rewrite (Hsum Hc). reflexivity.
  - exists next, s'. rewrite (Hsel _ Hcalc).
    split; [assumption|].
    apply random_choices_In in Hrun. split; [assumption|now apply Hincl].
Qed.

Lemma zero_weights_draw_candidate_witness :
  exists next s',
    select_next aco3 [2]%nat 0%nat rng_zero = Ret (next, s')
    /\ In next (candidates aco3 [2]%nat 0%nat) /\ In next [2]%nat.
Proof.
  refine (proj2 (proj2 (zero_weights_draw_candidate aco3 [2]%nat 0%nat rng_zero
                          [Qpower 0 1 * Qpower 0 2] _ _ _))).
  - discriminate.
  - reflexivity.
  - constructor; [reflexivity|constructor].
Defined.

(** C7, as stated, fails: on the graph 0 -> 1, 1 -> 0, 1 -> 2, at city 0
    with only city 2 unvisited, the one candidate 2 has weight zero; the code
    draws 2, which is not a neighbour of 0, whereas a draw among the
    neighbours of 0 gives the visited city 1. *)
Lemma zero_weights_draw_neighbor_fails :
  ~ zero_weights_draw_neighbor aco3 [2]%nat 0%nat rng_zero.
Proof.
  intros H.
  specialize (H [Qpower 0 1 * Qpower 0 2] eq_refl).
  assert (Hz : Forall (fun w => w == 0) [Qpower 0 1 * Qpower 0 2])
    by (constructor; [reflexivity|constructor]).
  specialize (H Hz). vm_compute in H. discriminate.
Qed.

(** ** Seeding the archive *)

Lemma update_pheromones_frame (self : ACO) (r : route) (d : xdist) (rate : Q)
    (self' : ACO) :
  update_pheromones self r d rate = Ret self' ->
  exists P, self' = set_pheromone self P.
Proof.
  unfold update_pheromones. destruct r as [|u r].
  - intros H. inversion H; subst. exists (pheromone self'). now destruct self'.
  - intros H. bind_inv H. inversion H. eauto.
Qed.

Lemma route_distance_frame (self : ACO) (P : matrix) (r : route) :
  route_distance (set_pheromone self P) r = route_distance self r.
Proof. reflexivity. Qed.

Lemma reinforce_all_frame (routes : list route) :
  forall self self',
    reinforce_all self routes = Ret self' ->
    exists P, self' = set_pheromone self P.
Proof.
  induction routes as [|r rest IH]; intros self self' H.
  - inversion H; subst. exists (pheromone self'). now destruct self'.
  - cbn [reinforce_all] in H. bind_inv H.
    apply update_pheromones_frame in E. destruct E as [P1 ->].
    apply IH in H. destruct H as [P ->]. now exists P.
Qed.

Lemma seed_loop_spec (routes : list route) :
  forall self best_distances,
    seed_loop self routes best_distances
    = (self' <- reinforce_all self routes ;;
       Ret (self', best_distances ++ map (route_distance self) routes)).
Proof.
  induction routes as [|r rest IH]; intros self best_distances.
  - cbn. now rewrite app_nil_r.
  - cbn [seed_loop reinforce_all map].
    destruct (update_pheromones self r (route_distance self r) 10)
      as [self1|e|] eqn:E; cbn [bind]; try reflexivity.
    rewrite IH. apply update_pheromones_frame in E. destruct E as [P ->].
    rewrite route_distance_frame, <- app_assoc. cbn [app].
    destruct (reinforce_all (set_pheromone self P) rest); cbn [bind];
      try reflexivity.
Qed.

(** C8, as the code has it.  With supplied routes, seeding reinforces the
    matrix once for every supplied route, with that route's own distance and
    the deposit rate 10, and the archive becomes the first [n_ants] supplied
    routes with their distances: it is truncated to [n_ants] entries but not
    padded, so it has [min(len(routes), n_ants)] entries.  Without supplied
    routes (none, or an empty sequence) nothing is reinforced and the archive
    is [n_ants] entries of [([], inf)]. *)
Theorem seed_truncates (self : ACO) (routes : list route) :
  initial_archive self (Some routes)
  = match routes with
    | [] => Ret (self, repeat [] (n_ants self), repeat Inf (n_ants self))
    | _ =>
        self' <- reinforce_all self routes ;;
        Ret (self', firstn (n_ants self) routes,
             firstn (n_ants self) (map (route_distance self) routes))
    end
  /\ initial_archive self None
     = Ret (self, repeat [] (n_ants self), repeat Inf (n_ants self))
  /\ (forall self' best_routes best_distances,
        routes <> [] ->
        initial_archive self (Some routes)
        = Ret (self', best_routes, best_distances) ->
        length best_routes = Nat.min (n_ants self) (length routes)
        /\ length best_distances = Nat.min (n_ants self) (length routes)).
Proof.
  assert (Heq : forall r rs,
    initial_archive self (Some (r :: rs))
    = (self' <- reinforce_all self (r :: rs) ;;
       Ret (self', firstn (n_ants self) (r :: rs),
            firstn (n_ants self) (map (route_distance self) (r :: rs))))).
  { intros r rs. cbn [initial_archive]. unfold seed.
    rewrite seed_loop_spec.
    destruct (reinforce_all self (r :: rs)) as [self1|e|] eqn:E; cbn [bind];
      try reflexivity.
    apply reinforce_all_frame in E. destruct E as [P ->]. reflexivity. }
  split; [|split].
  - destruct routes as [|r rs]; [reflexivity|apply Heq].
  - reflexivity.
  - intros self' br bd Hne H. destruct routes as [|r rs]; [congruence|].
    rewrite Heq in H. bind_inv H. injection H as _ <- <-.
    rewrite !length_firstn. cbn [length]. rewrite length_map. auto.
Qed.

Lemma seed_truncates_witness :
  exists self' best_routes best_distances,
    initial_archive aco3 (Some [[0; 1]%nat])
    = Ret (self', best_routes, best_distances)
    /\ length best_routes = 1%nat /\ length best_distances = 1%nat.
Proof.
  destruct (initial_archive aco3 (Some [[0; 1]%nat]))
    as [[[self' br] bd]|e|] eqn:E; try (vm_compute in E; discriminate).
  exists self', br, bd. split; [reflexivity|].
  exact (proj2 (proj2 (seed_truncates aco3 [[0; 1]%nat])) self' br bd
           ltac:(discriminate) E).
Defined.

(** C8, as stated, fails: one supplied route with 20 ants seeds an archive
    of one entry, not of 20. *)
Lemma seed_fills_archive_fails : ~ seed_fills_archive aco3 [[0; 1]%nat].
Proof.
  intros H. destruct (H _ _ _ eq_refl) as [H1 _]. vm_compute in H1.
  discriminate.
Qed.

(** ** The solver loop *)

Lemma xle_refl (a : xdist) : xle a a.
Proof. apply xltb_irrefl. Qed.

Lemma xle_trans (a b c : xdist) : xle a b -> xle b c -> xle a c.
Proof.
  unfold xle. destruct a as [x|], b as [y|], c as [z|]; cbn; try congruence.
  rewrite !negb_false_iff, !Qle_bool_iff. intros H1 H2. lra.
Qed.

Lemma xltb_xle (a b : xdist) : xltb a b = true -> xle a b.
Proof.
  unfold xle. destruct a as [x|], b as [y|]; cbn; try congruence.
  rewrite negb_true_iff, negb_false_iff, Qle_bool_iff.
  intros H. destruct (Qle_bool y x) eqn:E; [discriminate|].
  destruct (Qlt_le_dec y x) as [Hlt|Hle]; [|assumption].
  exfalso. assert (Qle_bool y x = true) by (apply Qle_bool_iff; lra).
  congruence.
Qed.

Lemma offer_all_snoc (offers : list (route * xdist)) (r : route) (d : xdist) :
  forall a br bd br' bd',
    offer_all offers a = Ret (br, bd) ->
    offer r d br bd = Ret (br', bd') ->
    offer_all (offers ++ [(r, d)]) a = Ret (br', bd').
Proof.
  induction offers as [|[r0 d0] offers IH]; intros a br bd br' bd' H1 H2.
  - cbn in H1. inversion H1; subst. cbn [app offer_all fst snd].
    rewrite H2. reflexivity.
  - cbn [app offer_all] in *. bind_inv H1. destruct a0 as [br0 bd0].
    cbn [bind]. eapply IH; eassumption.
Qed.

Lemma offers_archive (offers : list (route * xdist)) (n : nat)
    (br : list route) (bd : list xdist) :
  offer_all offers (empty_archive n) = Ret (br, bd) ->
  length br = n /\ length bd = n /\ ascending bd.
Proof.
  intros H.
  destruct (offer_all_keeps_archive offers (repeat [] n) (repeat Inf n))
    as (br' & bd' & Hrun & H1 & H2 & Hs).
  - now rewrite !repeat_length.
  - apply ascending_repeat.
  - assert (E : Ret (br', bd') = Ret (br, bd)) by (rewrite <- Hrun; exact H).
    inversion E; subst. rewrite repeat_length in H1, H2. auto.
Qed.

Lemma fill_from_head (r : route) (d : xdist) (br : list route) (bd : list xdist) :
  length br = length bd ->
  hd Inf (snd (fill_from r d br bd))
  = match bd with
    | [] => Inf
    | d0 :: _ => if xltb d d0 then d else d0
    end.
Proof.
  intros Hlen. destruct br as [|r0 br], bd as [|d0 bd]; try discriminate;
    [reflexivity|].
  cbn [fill_from]. destruct (xltb d d0); [reflexivity|].
  now destruct (fill_from r d br bd).
Qed.

(** The best recorded distance after an offer is the smaller of the offered
    distance and the best recorded distance before. *)
Lemma offer_best (r : route) (d : xdist) (br br' : list route)
    (bd bd' : list xdist) :
  length br = length bd -> ascending bd ->
  offer r d br bd = Ret (br', bd') ->
  hd Inf bd' = match bd with
               | [] => Inf
               | d0 :: _ => if xltb d d0 then d else d0
               end.
Proof.
  intros Hlen Hs H. rewrite offer_sorted in H by assumption.
  inversion H as [H']. rewrite <- (fill_from_head r d br bd Hlen).
  now rewrite H'.
Qed.

Lemma offer_best_le (r : route) (d : xdist) (br br' : list route)
    (bd bd' : list xdist) :
  length br = length bd -> ascending bd ->
  offer r d br bd = Ret (br', bd') ->
  xle (hd Inf bd') (hd Inf bd).
Proof.
  intros Hlen Hs H. rewrite (offer_best r d br br' bd bd' Hlen Hs H).
  destruct bd as [|d0 bd]; [apply xle_refl|]. cbn [hd].
  destruct (xltb d d0) eqn:E; [now apply xltb_xle|apply xle_refl].
Qed.

(** One ant: the archive stays the archive of the offers made so far, and
    the best recorded distance does not go up. *)
Lemma ant_keeps (sp : DiGraph -> node -> node -> option (list node))
    (self0 : ACO) (offers : list (route * xdist))
    (st st' : ACO * rng * list route * list xdist) :
  archive_of_offers self0 offers st ->
  ant sp st = Ret st' ->
  exists extra,
    archive_of_offers self0 (offers ++ extra) st'
    /\ xle (best_of st') (best_of st).
Proof.
  destruct st as [[[self s] br] bd]. intros (Hc & Hn & Hcb & Hoff & Hval) H.
  unfold ant in H. bind_inv H. destruct a as [rt s1].
  destruct rt as [|u rt].
  - inversion H; subst. exists []. rewrite app_nil_r.
    split; [|apply xle_refl]. cbn. auto.
  - bind_inv H. destruct a as [br1 bd1]. bind_inv H. inversion H; subst.
    apply update_pheromones_frame in E1. destruct E1 as [P ->].
    destruct (offers_archive offers _ br bd Hoff) as (Hl1 & Hl2 & Hs).
    exists [(u :: rt, route_distance self (u :: rt))]. split.
    + cbn [archive_of_offers set_pheromone cities n_ants update_callback].
      split; [assumption|]. split; [assumption|]. split; [assumption|].
      split.
      * eapply offer_all_snoc; eassumption.
      * apply Forall_app. split; [assumption|].
        constructor; [|constructor]. split; [discriminate|].
        cbn [fst snd]. unfold route_distance. now rewrite Hc.
    + unfold best_of. cbn [snd].
      eapply offer_best_le; [|exact Hs|exact E0]. congruence.
Qed.

Lemma ants_loop_keeps (sp : DiGraph -> node -> node -> option (list node))
    (self0 : ACO) (k : nat) :
  forall offers st st',
    archive_of_offers self0 offers st ->
    ants_loop sp k st = Ret st' ->
    exists extra,
      archive_of_offers self0 (offers ++ extra) st'
      /\ xle (best_of st') (best_of st).
Proof.
  induction k as [|k IH]; intros offers st st' Hinv H.
  - cbn in H. inversion H; subst. exists []. rewrite app_nil_r.
    split; [assumption|apply xle_refl].
  - cbn [ants_loop] in H. bind_inv H.
    destruct (ant_keeps sp self0 offers st a Hinv E) as (e1 & Hinv1 & Hle1).
    destruct (IH _ _ _ Hinv1 H) as (e2 & Hinv2 & Hle2).
    exists (e1 ++ e2). rewrite app_assoc. split; [assumption|].
    eapply xle_trans; eassumption.
Qed.

Lemma xmin_ascending (d0 : xdist) (l : list xdist) :
  ascending (d0 :: l) -> xmin (d0 :: l) = Ret d0.
Proof.
  intros Hs. inversion Hs as [|? ? _ Hall]; subst. cbn [xmin]. f_equal.
  clear Hs. induction l as [|x l IH]; [reflexivity|].
  inversion Hall as [|? ? Hx Hl]; subst. cbn [fold_left].
  unfold xmin2 at 2. unfold xle in Hx. rewrite Hx. now apply IH.
Qed.

Lemma non_increasing_snoc (l : list xdist) (m : xdist) :
  non_increasing l -> Forall (fun x => xle m x) l -> non_increasing (l ++ [m]).
Proof.
  intros Hs Hall. induction Hs as [|a l Hl IH Ha]; cbn [app].
  - constructor; constructor.
  - inversion Hall as [|? ? Hma Hml]; subst.
    constructor; [now apply IH|].
    apply Forall_app. split; [assumption|]. constructor; [assumption|constructor].
Qed.

(** One iteration: the value appended to the "min" history is the best
    recorded distance after the ants of the iteration. *)
Lemma iteration_keeps (sp : DiGraph -> node -> node -> option (list node))
    (self0 : ACO) (offers : list (route * xdist))
    (st st' : ACO * rng * list route * list xdist) (h h' : list xdist * list xdist) :
  archive_of_offers self0 offers st ->
  iteration sp st h = Ret (st', h') ->
  exists extra,
    archive_of_offers self0 (offers ++ extra) st'
    /\ xle (best_of st') (best_of st)
    /\ fst h' = fst h ++ [best_of st'].
Proof.
  intros Hinv H. unfold iteration in H.
  destruct st as [[[self s] br] bd]. bind_inv H.
  destruct a as [[[self1 s1] br1] bd1].
  destruct (ants_loop_keeps sp self0 _ offers _ _ Hinv E) as (extra & Hinv1 & Hle).
  bind_inv H. bind_inv H. bind_inv H. inversion H; subst. clear H.
  exists extra. split; [assumption|]. split; [assumption|].
  cbn [fst]. f_equal. f_equal.
  destruct Hinv1 as (_ & _ & _ & Hoff & _).
  destruct (offers_archive _ _ _ _ Hoff) as (_ & _ & Hs).
  unfold best_of. cbn [snd].
  destruct bd1 as [|d0 bd1]; [discriminate|].
  rewrite (xmin_ascending d0 bd1 Hs) in E1. now inversion E1.
Qed.

Lemma iterations_loop_keeps (sp : DiGraph -> node -> node -> option (list node))
    (self0 : ACO) (k : nat) :
  forall offers st h st' h',
    archive_of_offers self0 offers st ->
    non_increasing (fst h) ->
    Forall (fun x => xle (best_of st) x) (fst h) ->
    iterations_loop sp k st h = Ret (st', h') ->
    exists extra,
      archive_of_offers self0 (offers ++ extra) st'
      /\ non_increasing (fst h')
      /\ Forall (fun x => xle (best_of st') x) (fst h').
Proof.
  induction k as [|k IH]; intros offers st h st' h' Hinv Hni Hall H.
  - cbn in H. inversion H; subst. exists []. rewrite app_nil_r. auto.
  - cbn [iterations_loop] in H. bind_inv H. destruct a as [st1 h1].
    destruct (iteration_keeps sp self0 offers st st1 h h1 Hinv E)
      as (e1 & Hinv1 & Hle1 & Hh1).
    assert (Hall1 : Forall (fun x => xle (best_of st1) x) (fst h)).
    { eapply Forall_impl; [|exact Hall]. intros x Hx.
      eapply xle_trans; eassumption. }
    destruct (IH (offers ++ e1) st1 h1 st' h' Hinv1) as (e2 & Hinv2 & Hni2 & Hall2).
    + rewrite Hh1. now apply non_increasing_snoc.
    + rewrite Hh1. apply Forall_app. split; [assumption|].
      constructor; [apply xle_refl|constructor].
    + exact H.
    + exists (e1 ++ e2). rewrite app_assoc. auto.
Qed.

(** Without supplied routes the "min" history of a run never goes up. *)
Lemma unseeded_min_history_non_increasing
    (sp : DiGraph -> node -> node -> option (list node)) (self : ACO)
    (iterations : nat) (s : rng)
    (st : ACO * rng * list route * list xdist) (h : list xdist * list xdist) :
  construct_solution sp self iterations None s = Ret (st, h) ->
  non_increasing (fst h).
Proof.
  unfold construct_solution. cbn [initial_archive bind]. intros H.
  destruct (iterations_loop_keeps sp self iterations []
              (self, s, repeat [] (n_ants self), repeat Inf (n_ants self))
              ([], []) st h) as (_ & _ & Hni & _); try assumption.
  - cbn. repeat split; constructor.
  - constructor.
  - constructor.
Qed.

(** ** run_aco *)

(** The best recorded distance of a nonempty archive is infinite exactly when
    the archive started that way and every offered distance was infinite. *)
Lemma offers_best_inf (offers : list (route * xdist)) :
  forall br0 bd0 br bd,
    length br0 = length bd0 -> ascending bd0 -> bd0 <> [] ->
    offer_all offers (br0, bd0) = Ret (br, bd) ->
    (hd Inf bd = Inf
     <-> hd Inf bd0 = Inf /\ Forall (fun o => snd o = Inf) offers).
Proof.
  induction offers as [|[r d] offers IH]; intros br0 bd0 br bd Hlen Hs Hne H.
  - cbn in H. inversion H; subst. split; [auto|tauto].
  - cbn [offer_all fst snd] in H. bind_inv H. destruct a as [br1 bd1].
    destruct (offer_keeps_archive r d br0 bd0 Hlen Hs)
      as (br1' & bd1' & Hrun & Hl1 & Hl2 & Hs1).
    rewrite Hrun in E. inversion E; subst br1' bd1'.
    pose proof (offer_best r d br0 br1 bd0 bd1 Hlen Hs Hrun) as Hbest.
    assert (Hne1 : bd1 <> []).
    { destruct bd1; [|discriminate]. destruct bd0; [congruence|discriminate]. }
    rewrite (IH br1 bd1 br bd ltac:(congruence) Hs1 Hne1 H), Hbest.
    destruct bd0 as [|d0 bd0]; [congruence|]. cbn [hd].
    destruct (xltb d d0) eqn:Hlt.
    + split.
      * intros [-> _]. destruct d0; discriminate.
      * intros [_ Hall]. inversion Hall as [|? ? Hd _].
        cbn [snd] in Hd. rewrite Hd in Hlt. discriminate.
    + split.
      * intros [-> Hall]. split; [reflexivity|]. constructor; [|assumption].
        cbn [snd]. destruct d; [discriminate|reflexivity].
      * intros [-> Hall]. inversion Hall as [|? ? _ Hrest]. auto.
Qed.

(** *** Which errors a run can raise *)

Lemma bind_below {A B : Type} (m : outcome A) (k : A -> outcome B) :
  below_run_aco m -> (forall a, below_run_aco (k a)) -> below_run_aco (bind m k).
Proof.
  unfold below_run_aco. intros Hm Hk. destruct m as [a|e|]; cbn [bind].
  - apply Hk.
  - intros H. apply Hm. now inversion H.
  - discriminate.
Qed.

Ltac below :=
  unfold below_run_aco;
  repeat match goal with
         | |- context [match ?x with _ => _ end] => destruct x
         | |- context [if ?b then _ else _] => destruct b
         end;
  cbn [bind]; try discriminate.

Lemma node_to_idx_below (self : ACO) (u : node) :
  below_run_aco (node_to_idx self u).
Proof. unfold node_to_idx. below. Qed.

Lemma fdiv_below (num : Q) (d : xdist) : below_run_aco (fdiv num d).
Proof. unfold fdiv. below. Qed.

Lemma set_item_below {A : Type} (i : nat) (x : A) (l : list A) :
  below_run_aco (set_item i x l).
Proof. unfold set_item. below. Qed.

Lemma first_item_below {A : Type} (l : list A) : below_run_aco (first_item l).
Proof. unfold first_item. below. Qed.

Lemma xmin_below (l : list xdist) : below_run_aco (xmin l).
Proof. unfold xmin. below. Qed.

Lemma xmean_below (l : list xdist) : below_run_aco (xmean l).
Proof. unfold xmean. below. Qed.

Lemma random_choice_below (l : list node) (s : rng) :
  below_run_aco (random_choice l s).
Proof. unfold random_choice, draw. below. Qed.

Lemma random_choices_below (population : list node) (weights : list Q) (s : rng) :
  below_run_aco (random_choices population weights s).
Proof. unfold random_choices, draw. below. Qed.

Lemma attractions_below (self : ACO) (current : node) (current_idx : nat) :
  forall possible_next total pheromones,
    below_run_aco
      (attractions self current current_idx possible_next total pheromones).
Proof.
  induction possible_next as [|city rest IH]; intros total pheromones;
    [discriminate|].
  cbn [attractions].
  apply bind_below; [apply node_to_idx_below|intros ci].
  apply bind_below; [apply fdiv_below|intros inv]. apply IH.
Qed.

Lemma calculate_probabilities_below (self : ACO) (current : node)
    (possible_next : list node) :
  below_run_aco (calculate_probabilities self current possible_next).
Proof.
  unfold calculate_probabilities. destruct possible_next as [|c cs];
    [discriminate|].
  apply bind_below; [apply node_to_idx_below|intros ci].
  apply bind_below; [apply attractions_below|intros [t p]]. below.
Qed.

Lemma select_next_below (self : ACO) (unvisited : list node) (current : node)
    (s : rng) :
  below_run_aco (select_next self unvisited current s).
Proof.
  unfold select_next. cbv zeta.
  apply bind_below; [apply calculate_probabilities_below|intros probs].
  destruct probs; [apply random_choice_below|apply random_choices_below].
Qed.

Lemma tour_step_below (sp : DiGraph -> node -> node -> option (list node))
    (self : ACO) (rt : route) (unvisited : list node) (current : node) (s : rng) :
  below_run_aco (tour_step sp self rt unvisited current s).
Proof.
  unfold tour_step. cbv zeta.
  apply bind_below; [apply select_next_below|intros [n s1]].
  apply bind_below; [below|intros rt']. discriminate.
Qed.

Lemma ant_tour_loop_below (sp : DiGraph -> node -> node -> option (list node))
    (self : ACO) (fuel : nat) :
  forall rt unvisited current s,
    below_run_aco (ant_tour_loop sp fuel self rt unvisited current s).
Proof.
  induction fuel as [|fuel IH]; intros rt unvisited current s;
    destruct unvisited as [|u us]; cbn [ant_tour_loop]; try discriminate.
  apply bind_below; [apply tour_step_below|intros [[[rt' un'] c'] s']].
  apply IH.
Qed.

Lemma ant_tour_below (sp : DiGraph -> node -> node -> option (list node))
    (self : ACO) (s : rng) :
  below_run_aco (ant_tour sp self s).
Proof.
  unfold ant_tour, ant_tour_fuel. cbv zeta.
  destruct (nodup Nat.eq_dec (nodes (cities self))) as [|u us] eqn:E;
    [discriminate|]. rewrite <- E.
  apply bind_below; [apply random_choice_below|intros [c s1]].
  apply ant_tour_loop_below.
Qed.

Lemma offer_loop_below (r : route) (d : xdist) (idxs : list nat) :
  forall br bd, below_run_aco (offer_loop r d idxs br bd).
Proof.
  induction idxs as [|i idxs IH]; intros br bd; cbn [offer_loop];
    [discriminate|].
  destruct (nth_error bd i) as [best_distance|]; [|discriminate].
  destruct (xltb d best_distance); [|apply IH]. cbv zeta.
  apply bind_below; [apply set_item_below|intros br'].
  apply bind_below; [apply set_item_below|intros bd']. apply IH.
Qed.

Lemma update_pheromones_loop_below (self : ACO) (r : route) (d : xdist)
    (rate : Q) (idxs : list nat) :
  forall P, below_run_aco (update_pheromones_loop self r d rate idxs P).
Proof.
  induction idxs as [|i idxs IH]; intros P; cbn [update_pheromones_loop];
    [discriminate|].
  apply bind_below; [apply node_to_idx_below|intros ui].
  apply bind_below; [apply node_to_idx_below|intros vi].
  destruct (has_edge _ _ _); [|apply IH].
  apply bind_below; [apply fdiv_below|intros dep]. apply IH.
Qed.

Lemma update_pheromones_below (self : ACO) (r : route) (d : xdist) (rate : Q) :
  below_run_aco (update_pheromones self r d rate).
Proof.
  unfold update_pheromones. destruct r as [|u r]; [discriminate|].
  apply bind_below; [apply update_pheromones_loop_below|discriminate].
Qed.

Lemma ant_below (sp : DiGraph -> node -> node -> option (list node))
    (st : ACO * rng * list route * list xdist) :
  below_run_aco (ant sp st).
Proof.
  destruct st as [[[self s] br] bd]. unfold ant.
  apply bind_below; [apply ant_tour_below|intros [rt s1]].
  destruct rt as [|u rt]; [discriminate|].
  apply bind_below; [apply offer_loop_below|intros [br1 bd1]].
  apply bind_below; [apply update_pheromones_below|discriminate].
Qed.

Lemma ants_loop_below (sp : DiGraph -> node -> node -> option (list node))
    (k : nat) :
  forall st, below_run_aco (ants_loop sp k st).
Proof.
  induction k as [|k IH]; intros st; cbn [ants_loop]; [discriminate|].
  apply bind_below; [apply ant_below|apply IH].
Qed.

Lemma iteration_below (sp : DiGraph -> node -> node -> option (list node))
    (st : ACO * rng * list route * list xdist) (h : list xdist * list xdist) :
  below_run_aco (iteration sp st h).
Proof.
  destruct st as [[[self s] br] bd]. unfold iteration.
  apply bind_below; [apply ants_loop_below|intros [[[self1 s1] br1] bd1]].
  apply bind_below.
  - destruct (update_callback self1); [|discriminate].
    apply bind_below; [apply first_item_below|intros r0].
    apply bind_below; [apply first_item_below|discriminate].
  - intros _. apply bind_below; [apply xmin_below|intros m].
    apply bind_below; [apply xmean_below|discriminate].
Qed.

Lemma iterations_loop_below (sp : DiGraph -> node -> node -> option (list node))
    (k : nat) :
  forall st h, below_run_aco (iterations_loop sp k st h).
Proof.
  induction k as [|k IH]; intros st h; cbn [iterations_loop]; [discriminate|].
  apply bind_below; [apply iteration_below|intros [st1 h1]]. apply IH.
Qed.

(** The iterations of a run without supplied routes never raise "route not
    found". *)
Lemma construct_solution_below
    (sp : DiGraph -> node -> node -> option (list node)) (self : ACO)
    (iterations : nat) (s : rng) :
  below_run_aco (construct_solution sp self iterations None s).
Proof.
  unfold construct_solution. cbn [initial_archive bind].
  apply iterations_loop_below.
Qed.

(** C5, as the code has it.  With at least one ant, [run_aco] raises "route
    not found" exactly when the iterations complete and the best recorded
    distance is still infinite.  When the iterations complete, the archive is what the offers
    of the ants (nonempty routes with their distances) made of the empty
    archive, the best recorded distance is infinite exactly when no ant
    offered a finite distance, and otherwise [run_aco] returns the best
    route, its distance and the convergence history.  An exception raised
    during the iterations is passed on and is never "route not found". *)
Theorem run_aco_not_found
    (sp : DiGraph -> node -> node -> option (list node)) (self : ACO)
    (iterations : nat) (s : rng) :
  (1 <= n_ants self)%nat ->
  (run_aco sp self iterations s = Raise RouteNotFound
   <-> exists self' s' best_routes best_distances h,
         construct_solution sp self iterations None s
         = Ret (self', s', best_routes, best_distances, h)
         /\ hd_error best_distances = Some Inf)
  /\ (forall self' s' best_routes best_distances h,
        construct_solution sp self iterations None s
        = Ret (self', s', best_routes, best_distances, h) ->
        exists offers r0 d0,
          offer_all offers (empty_archive (n_ants self))
          = Ret (best_routes, best_distances)
          /\ Forall (valid_offer self) offers
          /\ hd_error best_routes = Some r0
          /\ hd_error best_distances = Some d0
          /\ (d0 = Inf <-> Forall (fun o => snd o = Inf) offers)
          /\ (run_aco sp self iterations s = Raise RouteNotFound <-> d0 = Inf)
          /\ (d0 <> Inf -> run_aco sp self iterations s = Ret (r0, d0, h)))
  /\ (forall e,
        construct_solution sp self iterations None s = Raise e ->
        run_aco sp self iterations s = Raise e /\ e <> RouteNotFound).
Proof.
  intros Hants.
  assert (Hret : forall self' s' best_routes best_distances h,
    construct_solution sp self iterations None s
    = Ret (self', s', best_routes, best_distances, h) ->
    exists offers r0 d0,
      offer_all offers (empty_archive (n_ants self))
      = Ret (best_routes, best_distances)
      /\ Forall (valid_offer self) offers
      /\ hd_error best_routes = Some r0
      /\ hd_error best_distances = Some d0
      /\ (d0 = Inf <-> Forall (fun o => snd o = Inf) offers)
      /\ (run_aco sp self iterations s = Raise RouteNotFound <-> d0 = Inf)
      /\ (d0 <> Inf -> run_aco sp self iterations s = Ret (r0, d0, h))).
  { intros self' s' best_routes best_distances h Hrun.
    assert (Hloop := Hrun). unfold construct_solution in Hloop.
    cbn [initial_archive bind] in Hloop.
    destruct (iterations_loop_keeps sp self iterations []
                (self, s, repeat [] (n_ants self), repeat Inf (n_ants self))
                ([], []) (self', s', best_routes, best_distances) h)
      as (offers & Hinv & _ & _); try assumption.
    { cbn. repeat split; constructor. }
    { constructor. }
    { constructor. }
    cbn [app] in Hinv. destruct Hinv as (_ & _ & _ & Hoff & Hval).
    destruct (offers_archive _ _ _ _ Hoff) as (Hl1 & Hl2 & Hs).
    destruct best_routes as [|r0 br]; [cbn in Hl1; lia|].
    destruct best_distances as [|d0 bd]; [cbn in Hl2; lia|].
    exists offers, r0, d0.
    split; [assumption|]. split; [assumption|].
    split; [reflexivity|]. split; [reflexivity|].
    assert (Hinf : d0 = Inf <-> Forall (fun o => snd o = Inf) offers).
    { pose proof (offers_best_inf offers (repeat [] (n_ants self))
                    (repeat Inf (n_ants self)) (r0 :: br) (d0 :: bd)) as Hb.
      cbn [hd] in Hb. rewrite Hb.
      - destruct (n_ants self); [lia|]. cbn. tauto.
      - now rewrite !repeat_length.
      - apply ascending_repeat.
      - destruct (n_ants self); [lia|discriminate].
      - exact Hoff. }
    split; [assumption|].
    unfold run_aco. rewrite Hrun. cbn [bind first_item].
    destruct d0 as [q|]; cbn [xltb bind fst snd].
    - split; [split; discriminate|reflexivity].
    - split; [split; reflexivity|congruence]. }
  split; [|split; [exact Hret|]].
  - split.
    + intros Hrnf.
      pose proof (construct_solution_below sp self iterations s) as Hbelow.
      unfold below_run_aco in Hbelow. unfold run_aco in Hrnf.
      destruct (construct_solution sp self iterations None s)
        as [[[[[self' s'] br] bd] h]|e|] eqn:E; cbn [bind] in Hrnf.
      * destruct (Hret self' s' br bd h eq_refl)
          as (offers & r0 & d0 & _ & _ & _ & Hd & _ & Hiff & _).
        exists self', s', br, bd, h. split; [reflexivity|].
        rewrite Hd. f_equal. apply Hiff. unfold run_aco. rewrite E. exact Hrnf.
      * injection Hrnf as ->. exfalso. now apply Hbelow.
      * discriminate.
    + intros (self' & s' & br & bd & h & Hrun & Hd).
      destruct (Hret self' s' br bd h Hrun)
        as (offers & r0 & d0 & _ & _ & _ & Hd0 & _ & Hiff & _).
      apply Hiff. congruence.
  - intros e E. split.
    + unfold run_aco. rewrite E. reflexivity.
    + intros ->. apply (construct_solution_below sp self iterations s).
      exact E.
Qed.

Lemma run_aco_not_found_witness :
  exists r0 d0 h, run_aco no_path acoK 2 rngK = Ret (r0, d0, h).
Proof.
  destruct (construct_solution no_path acoK 2 None rngK)
    as [[[[[self' s'] br] bd] h]|e|] eqn:E; try (vm_compute in E; discriminate).
  assert (Hants : (1 <= n_ants acoK)%nat) by (cbn; lia).
  destruct (proj1 (proj2 (run_aco_not_found no_path acoK 2 rngK Hants))
              self' s' br bd h E)
    as (offers & r0 & d0 & _ & _ & _ & Hd & _ & _ & Hret).
  exists r0, d0, h. apply Hret.
  vm_compute in E. injection E as _ _ _ <- _.
  cbn in Hd. injection Hd as <-. discriminate.
Defined.

(** *** A run that ends in a third way *)

(** Node 2 of [graph3] has no outgoing edge. *)
Lemma graph3_no_edge_from_2 (v : node) : has_edge graph3 2%nat v = false.
Proof. reflexivity. Qed.

(** So no path leaves it: a shortest-path service that returns paths along
    edges finds none from node 2 to another node. *)
Lemma graph3_no_path_from_2
    (sp : DiGraph -> node -> node -> option (list node)) (v : node) :
  path_contract sp -> v <> 2%nat -> sp graph3 2%nat v = None.
Proof.
  intros Hsp Hv. destruct (sp graph3 2%nat v) as [p|] eqn:E; [|reflexivity].
  destruct (Hsp _ _ _ _ E) as (Hhd & Hlast & Hedges).
  destruct p as [|a [|b p']]; cbn in Hhd, Hlast.
  - discriminate.
  - congruence.
  - injection Hhd as ->. cbn [consecutive forallb] in Hedges.
    apply andb_true_iff in Hedges. destruct Hedges as [He _].
    unfold pair_is_edge in He. cbn [fst snd] in He.
    rewrite graph3_no_edge_from_2 in He. discriminate.
Qed.

(** A pass of the loop whose draw is not a neighbour and cannot be reached
    raises the error of the shortest-path service (line 76). *)
Lemma tour_step_no_path
    (sp : DiGraph -> node -> node -> option (list node)) (self : ACO)
    (rt : route) (unvisited : list node) (current next : node) (s s' : rng) :
  select_next self unvisited current s = Ret (next, s') ->
  mem next (neighbors (cities self) current) = false ->
  sp (cities self) current next = None ->
  tour_step sp self rt unvisited current s = Raise NetworkXNoPath.
Proof.
  intros Hsel Hmem Hsp. unfold tour_step. cbv zeta.
  rewrite Hsel. cbn [bind]. rewrite Hmem, Hsp. reflexivity.
Qed.

(** On [graph3] an ant that starts at node 2 is stranded: the candidates are
    the other two nodes, neither is a neighbour, and the tour stops with the
    error of [nx.shortest_path]. *)
Lemma ant_tour_stranded (sp : DiGraph -> node -> node -> option (list node)) :
  path_contract sp ->
  ant_tour sp aco3 rng_two = Raise NetworkXNoPath.
Proof.
  intros Hsp.
  change (ant_tour sp aco3 rng_two)
    with (ant_tour_loop sp 3 aco3 [2%nat] [0%nat; 1%nat] 2%nat
            (fun n => rng_two (S n))).
  cbn [ant_tour_loop].
  rewrite (tour_step_no_path sp aco3 [2%nat] [0%nat; 1%nat] 2%nat 0%nat
             (fun n => rng_two (S n)) (fun n => rng_two (S (S n)))).
  - reflexivity.
  - reflexivity.
  - reflexivity.
  - apply graph3_no_path_from_2; [assumption|discriminate].
Qed.

(** The error is not caught by [construct_solution] nor by [run_aco]. *)
Lemma run_aco_stranded (sp : DiGraph -> node -> node -> option (list node)) :
  path_contract sp ->
  run_aco sp aco3 1 rng_two = Raise NetworkXNoPath.
Proof.
  intros Hsp. unfold run_aco, construct_solution.
  cbn [initial_archive bind iterations_loop]. unfold iteration.
  change (n_ants aco3) with 20%nat. cbn [ants_loop]. unfold ant at 1.
  rewrite (ant_tour_stranded sp Hsp). reflexivity.
Qed.

(** C5, as stated, fails: on [graph3] with 20 ants, when the first ant starts
    at node 2, the run neither raises "route not found" nor returns; it ends
    with the error of [nx.shortest_path], whatever paths the service
    returns. *)
Lemma not_found_or_returns_fails :
  ~ exists sp, path_contract sp /\ not_found_or_returns sp aco3 1 rng_two.
Proof.
  intros (sp & Hsp & [H|(r & d & h & H)]);
    rewrite (run_aco_stranded sp Hsp) in H; discriminate.
Qed.

(** ** The "min" history of a seeded run *)

(** C6, on supplied routes.  On the complete graph [graphK] with two ants,
    seeded with a route of distance 10 followed by a route of distance 2, the
    "min" history of two iterations is 2, then 3, so it goes up: the offer of
    distance 3 in the second iteration shifts the archive [10, 2] right from
    slot 0, which drops the route of distance 2 from the last slot.  (Without
    supplied routes the history never goes up, see
    [unseeded_min_history_non_increasing].) *)
Lemma seeded_min_history_goes_up
    (sp : DiGraph -> node -> node -> option (list node)) :
  exists st avg,
    construct_solution sp acoK 2 (Some seedsK) rngK
    = Ret (st, ([Fin 2; Fin 3], avg))
    /\ xltb (Fin 2) (Fin 3) = true
    /\ ~ non_increasing [Fin 2; Fin 3].
Proof.
  destruct (construct_solution sp acoK 2 (Some seedsK) rngK)
    as [[st h]|e|] eqn:E; try (vm_compute in E; discriminate).
  exists st, (snd h). split; [|split].
  - vm_compute in E. injection E as <- <-. reflexivity.
  - reflexivity.
  - intros H. inversion H as [|? ? _ Hall]; subst.
    inversion Hall as [|? ? Hx _]; subst. vm_compute in Hx. discriminate.
Qed.

(** ** Worked evaluations *)

Example route_distance_path : route_distance aco3 [0; 1; 2]%nat = Fin 2.
Proof. reflexivity. Qed.

Example route_distance_missing_edge : route_distance aco3 [0; 2]%nat = Inf.
Proof. reflexivity. Qed.

(** The insertion loop on the sorted archive 1, 5, 7, 9 and the offer 3. *)
Example offer_fills_tail :
  offer [9%nat] (Fin 3) [[1]; [5]; [7]; [9]]%nat [Fin 1; Fin 5; Fin 7; Fin 9]
  = Ret ([[1]; [9]; [9]; [9]]%nat, [Fin 1; Fin 3; Fin 3; Fin 3]).
Proof. reflexivity. Qed.

Example ant_tour_returns :
  exists s, ant_tour no_path aco3 rng_zero = Ret ([0; 1; 2]%nat, s).
Proof. eexists. reflexivity. Qed.

Example update_pheromones_unknown_node :
  update_pheromones aco3 [0; 7]%nat (Fin 1) 1 = Raise KeyError.
Proof. reflexivity. Qed.

Example update_pheromones_zero :
  update_pheromones aco3 [0; 1]%nat (Fin 0) 1 = Raise ZeroDivisionError.
Proof. reflexivity. Qed.

(** An edge of weight 0 stops the run with the division error, not with
    "route not found". *)
Example run_aco_zero_weight :
  run_aco no_path aco_zero 1 rng_zero = Raise ZeroDivisionError.
Proof. reflexivity. Qed.

(** A graph without nodes: every tour is empty and nothing is recorded. *)
Example run_aco_empty_graph :
  run_aco no_path (init (mkGraph [] []) 2%nat 1%nat 2%nat (1 # 2) false) 3 rng_zero
  = Raise RouteNotFound.
Proof. reflexivity. Qed.

(** Three nodes: two passes of the loop are enough, one is not. *)
Example ant_tour_two_passes :
  ant_tour_fuel no_path 2 aco3 rng_zero = ant_tour no_path aco3 rng_zero
  /\ ant_tour_fuel no_path 1 aco3 rng_zero = Diverge.
Proof. split; reflexivity. Qed.

(** * Further properties of the code *)

(** ** The node index and the initial matrix (__init__) *)

Lemma index_of_nth (l : list node) :
  NoDup l -> forall i, (i < length l)%nat -> index_of (nth i l O) l = Some i.
Proof.
  induction 1 as [|x l Hx Hnd IH]; intros i Hi; [cbn in Hi; lia|].
  destruct i as [|i]; cbn [nth index_of].
  - now rewrite Nat.eqb_refl.
  - cbn [length] in Hi.
    destruct (Nat.eqb_spec x (nth i l O)) as [E|_].
    + exfalso. apply Hx. rewrite E. apply nth_In. lia.
    + rewrite IH by lia. reflexivity.
Qed.

Lemma index_of_None (u : node) (l : list node) :
  index_of u l = None <-> ~ In u l.
Proof.
  split.
  - intros H Hin. destruct (index_of_In u l Hin) as [i Hi]. congruence.
  - intros H. destruct (index_of u l) as [i|] eqn:E; [|reflexivity].
    exfalso. apply H. destruct (index_of_Some u l i E) as [Hi <-].
    now apply nth_In.
Qed.

(** X1.  [node_to_idx] and [node_list] are inverse to each other: an index
    returned for a node is in range and holds that node; a node has no index
    ([KeyError]) exactly when it is not in [node_list]; and, the nodes being
    listed once each, the node at position [i] has index [i]. *)
Theorem node_to_idx_round_trip (self : ACO) (u : node) (i : nat) :
  (node_to_idx self u = Ret i ->
   (i < n_cities self)%nat /\ nth i (node_list self) O = u)
  /\ (node_to_idx self u = Raise KeyError <-> ~ In u (node_list self))
  /\ (NoDup (node_list self) -> (i < n_cities self)%nat ->
      node_to_idx self (nth i (node_list self) O) = Ret i).
Proof.
  unfold node_to_idx, n_cities. split; [|split].
  - destruct (index_of u (node_list self)) as [k|] eqn:E; [|discriminate].
    intros H. inversion H; subst. now apply index_of_Some.
  - rewrite <- index_of_None.
    destruct (index_of u (node_list self)); split; congruence.
  - intros Hnd Hi. now rewrite index_of_nth.
Qed.

Lemma nth_nonneg (l : list Q) (j : nat) :
  Forall (fun x => 0 <= x) l -> 0 <= nth j l 0.
Proof.
  intros H. revert j. induction H as [|x l Hx _ IH]; intros [|j]; cbn; auto; lra.
Qed.

Lemma entry_nonneg (P : matrix) :
  Forall (Forall (fun x => 0 <= x)) P -> forall a b, 0 <= entry P a b.
Proof.
  intros H a b. unfold entry. apply nth_nonneg.
  revert a. induction H as [|row P Hrow _ IH]; intros [|a]; cbn; auto.
Qed.

(** ** More on update_pheromones *)

(** What a call that returns has done to the matrix, whatever the route. *)
Lemma update_pheromones_loop_ret (self : ACO) (r : route) (d : xdist) (rate : Q) :
  forall idxs P P',
    update_pheromones_loop self r d rate idxs P = Ret P' ->
    matrix_shape (n_cities self) P ->
    matrix_shape (n_cities self) P'
    /\ forall a b,
         entry P' a b
         == entry P a b
            + deposit_sum self a b (deposit_of rate d) (map (pair_at r) idxs).
Proof.
  induction idxs as [|i idxs IH]; intros P P' H HP.
  - cbn in H. inversion H; subst. split; [assumption|].
    intros a b. unfold deposit_sum. cbn [map fold_right]. lra.
  - cbn [update_pheromones_loop] in H. unfold node_to_idx in H.
    destruct (index_of (nth i r O) (node_list self)) as [ui|] eqn:Hui;
      cbn [bind] in H; [|discriminate].
    destruct (index_of (nth ((i + 1) mod length r) r O) (node_list self))
      as [vi|] eqn:Hvi; cbn [bind] in H; [|discriminate].
    cbn [map]. change (pair_at r i)
      with (nth i r O, nth ((i + 1) mod length r) r O).
    destruct (has_edge (cities self) (nth i r O)
                (nth ((i + 1) mod length r) r O)) eqn:He.
    + destruct (fdiv rate d) as [dep| |] eqn:Hdiv; cbn [bind] in H;
        try discriminate.
      destruct (index_of_Some _ _ _ Hui) as [Hui' _].
      destruct (index_of_Some _ _ _ Hvi) as [Hvi' _].
      destruct (IH _ _ H (matrix_shape_add_at _ P ui vi dep HP)) as [Hsh Hent].
      split; [assumption|]. intros a b.
      rewrite Hent, deposit_sum_cons.
      rewrite (entry_add_at _ P ui vi a b dep HP Hui' Hvi').
      rewrite (deposit_at_indices self a b _ _ _ _ Hui Hvi), He.
      unfold deposit_of. rewrite Hdiv. cbn [andb].
      destruct ((ui =? a)%nat && (vi =? b)%nat); lra.
    + destruct (IH _ _ H HP) as [Hsh Hent].
      split; [assumption|]. intros a b.
      rewrite Hent, deposit_sum_cons.
      rewrite (deposit_at_indices self a b _ _ _ _ Hui Hvi), He.
      cbn [andb]. lra.
Qed.

Lemma update_pheromones_ret (self self' : ACO) (r : route) (d : xdist) (rate : Q) :
  update_pheromones self r d rate = Ret self' ->
  matrix_shape (n_cities self) (pheromone self) ->
  r <> [] ->
  self' = set_pheromone self (pheromone self')
  /\ matrix_shape (n_cities self) (pheromone self')
  /\ forall a b,
       entry (pheromone self') a b
       == evaporation self * entry (pheromone self) a b
          + deposit_sum self a b (deposit_of rate d) (route_pairs r).
Proof.
  intros H HP Hr. unfold update_pheromones in H.
  destruct r as [|u r']; [congruence|]. bind_inv H.
  inversion H; subst. cbn [pheromone set_pheromone].
  destruct (update_pheromones_loop_ret self (u :: r') d rate _ _ _ E
              (matrix_shape_scale _ (evaporation self) _ HP)) as [Hsh Hent].
  split; [reflexivity|]. split; [assumption|].
  intros x y. rewrite Hent, entry_scale. reflexivity.
Qed.

Lemma deposit_at_edge (self : ACO) (a b : nat) (p : node * node) :
  deposit_at self a b p = true ->
  has_edge (cities self) (nth a (node_list self) O) (nth b (node_list self) O)
  = true.
Proof.
  unfold deposit_at. destruct p as [x y]. cbn [fst snd]. intros H.
  apply andb_true_iff in H. destruct H as [He H].
  destruct (index_of x (node_list self)) as [i|] eqn:Hx; [|discriminate].
  destruct (index_of y (node_list self)) as [j|] eqn:Hy; [|discriminate].
  apply andb_true_iff in H. destruct H as [Hi Hj].
  apply Nat.eqb_eq in Hi, Hj. subst.
  destruct (index_of_Some _ _ _ Hx) as [_ ->].
  destruct (index_of_Some _ _ _ Hy) as [_ ->]. exact He.
Qed.

(** X3.  [update_pheromones] deposits on edges of the graph only: after a
    call that returns, with a nonempty route, the entry of two positions whose
    nodes are not joined by an edge is exactly the evaporation factor times
    its value before the call, whatever the route and the distance; so an
    entry that is 0 for a missing edge stays 0. *)
Theorem update_pheromones_skips_non_edges (self self' : ACO) (r : route)
    (d : xdist) (rate : Q) (a b : nat) :
  matrix_shape (n_cities self) (pheromone self) ->
  r <> [] ->
  update_pheromones self r d rate = Ret self' ->
  has_edge (cities self) (nth a (node_list self) O) (nth b (node_list self) O)
  = false ->
  entry (pheromone self') a b == evaporation self * entry (pheromone self) a b
  /\ (entry (pheromone self) a b == 0 -> entry (pheromone self') a b == 0).
Proof.
  intros HP Hr Hrun He.
  destruct (update_pheromones_ret self self' r d rate Hrun HP Hr)
    as (_ & _ & Hent).
  assert (H : entry (pheromone self') a b
              == evaporation self * entry (pheromone self) a b).
  { rewrite Hent, deposit_sum_miss; [lra|].
    intros p _. destruct (deposit_at self a b p) eqn:E; [|reflexivity].
    apply deposit_at_edge in E. congruence. }
  split; [exact H|]. intros H0. rewrite H, H0. ring.
Qed.

Lemma update_pheromones_skips_non_edges_witness :
  exists self',
    update_pheromones aco3 [0; 1]%nat (Fin 1) 1 = Ret self'
    /\ entry (pheromone self') 0 2 == 0.
Proof.
  destruct (update_pheromones aco3 [0; 1]%nat (Fin 1) 1) as [self'| |] eqn:E;
    try (vm_compute in E; discriminate).
  exists self'. split; [reflexivity|].
  refine (proj2 (update_pheromones_skips_non_edges aco3 self' [0; 1]%nat (Fin 1) 1
                   0 2 matrix_shape_aco3 _ E _) _).
  - discriminate.
  - reflexivity.
  - reflexivity.
Defined.

Lemma fdiv_good (rate : Q) (d : xdist) :
  0 <= rate -> (d = Inf \/ exists q, d = Fin q /\ 0 < q) ->
  exists dep, fdiv rate d = Ret dep /\ 0 <= dep.
Proof.
  intros Hr [->|(q & -> & Hq)].
  - exists 0. split; [reflexivity|lra].
  - exists (rate / q). split; [now apply fdiv_pos|now apply Qdiv_nonneg].
Qed.

(** X4.  [update_pheromones] keeps the solver well formed.  For a route over
    known nodes, a distance that is positive or infinite, and non-negative
    rate and evaporation factor, the call returns; it changes no field but the
    matrix, the matrix stays N by N, and if no entry was negative before the
    call none is negative after it. *)
Theorem update_pheromones_keeps_invariants (self : ACO) (r : route) (d : xdist)
    (rate : Q) :
  matrix_shape (n_cities self) (pheromone self) ->
  (forall u, In u r -> In u (node_list self)) ->
  0 <= evaporation self -> 0 <= rate ->
  (d = Inf \/ exists q, d = Fin q /\ 0 < q) ->
  exists P',
    update_pheromones self r d rate = Ret (set_pheromone self P')
    /\ matrix_shape (n_cities self) P'
    /\ ((forall a b, 0 <= entry (pheromone self) a b) ->
        forall a b, 0 <= entry P' a b).
Proof.
  intros HP Hnodes Hev Hrate Hd.
  destruct r as [|u r'] eqn:Er.
  - exists (pheromone self). split; [|split; [assumption|auto]].
    cbn. now destruct self.
  - rewrite <- Er in *.
    destruct (fdiv_good rate d Hrate Hd) as (dep & Hdiv & Hdep).
    destruct (update_pheromones_entries self r d rate dep HP
                ltac:(rewrite Er; discriminate) Hnodes Hdiv)
      as (P' & Hrun & Hsh & Hent).
    exists P'. split; [assumption|]. split; [assumption|].
    intros Hnn a b. rewrite Hent.
    pose proof (deposit_sum_nonneg self a b dep (route_pairs r) Hdep).
    pose proof (Hnn a b).
    assert (0 <= evaporation self * entry (pheromone self) a b)
      by (now apply Qmult_le_0_compat).
    lra.
Qed.

Lemma aco3_nonneg : forall a b, 0 <= entry (pheromone aco3) a b.
Proof.
  apply entry_nonneg. cbn. repeat constructor; discriminate.
Defined.

Lemma update_pheromones_keeps_invariants_witness :
  exists P',
    update_pheromones aco3 [0; 1]%nat (Fin 1) 1 = Ret (set_pheromone aco3 P')
    /\ matrix_shape (n_cities aco3) P'
    /\ forall a b, 0 <= entry P' a b.
Proof.
  destruct (update_pheromones_keeps_invariants aco3 [0; 1]%nat (Fin 1) 1)
    as (P' & Hrun & Hsh & Hnn).
  - exact matrix_shape_aco3.
  - exact route01_known.
  - discriminate.
  - discriminate.
  - right. exists 1. split; reflexivity.
  - exists P'. split; [assumption|]. split; [assumption|].
    apply Hnn. exact aco3_nonneg.
Defined.

(** X5.  Two calls in a row: the deposit of the first call is multiplied by
    the evaporation factor in the second.  For nonempty routes over known
    nodes and positive distances, both calls return and every entry becomes
    evaporation squared times its first value, plus evaporation times the
    deposits of the first route, plus the deposits of the second route. *)
Theorem update_pheromones_twice (self : ACO) (r1 r2 : route) (d1 d2 rate1 rate2 : Q) :
  matrix_shape (n_cities self) (pheromone self) ->
  r1 <> [] -> r2 <> [] ->
  (forall u, In u r1 -> In u (node_list self)) ->
  (forall u, In u r2 -> In u (node_list self)) ->
  0 < d1 -> 0 < d2 ->
  exists self1 self2,
    update_pheromones self r1 (Fin d1) rate1 = Ret self1
    /\ update_pheromones self1 r2 (Fin d2) rate2 = Ret self2
    /\ forall a b,
         entry (pheromone self2) a b
         == evaporation self * evaporation self * entry (pheromone self) a b
            + evaporation self * deposit_sum self a b (rate1 / d1) (route_pairs r1)
            + deposit_sum self a b (rate2 / d2) (route_pairs r2).
Proof.
  intros HP Hr1 Hr2 Hk1 Hk2 Hd1 Hd2.
  destruct (update_pheromones_entries self r1 (Fin d1) rate1 (rate1 / d1)
              HP Hr1 Hk1 (fdiv_pos rate1 d1 Hd1)) as (P1 & Hrun1 & Hsh1 & Hent1).
  destruct (update_pheromones_entries (set_pheromone self P1) r2 (Fin d2) rate2
              (rate2 / d2) Hsh1 Hr2 Hk2 (fdiv_pos rate2 d2 Hd2))
    as (P2 & Hrun2 & Hsh2 & Hent2).
  exists (set_pheromone self P1), (set_pheromone self P2).
  split; [assumption|]. split; [exact Hrun2|].
  intros a b. cbn [pheromone set_pheromone evaporation] in *.
  rewrite Hent2, Hent1.
  change (deposit_sum (set_pheromone self P1) a b (rate2 / d2) (route_pairs r2))
    with (deposit_sum self a b (rate2 / d2) (route_pairs r2)).
  ring.
Qed.

Lemma update_pheromones_twice_witness :
  exists self1 self2,
    update_pheromones aco3 [0; 1]%nat (Fin 1) 1 = Ret self1
    /\ update_pheromones self1 [0; 1]%nat (Fin 1) 1 = Ret self2
    /\ forall a b,
         entry (pheromone self2) a b
         == evaporation aco3 * evaporation aco3 * entry (pheromone aco3) a b
            + evaporation aco3
              * deposit_sum aco3 a b (1 / 1) (route_pairs [0; 1]%nat)
            + deposit_sum aco3 a b (1 / 1) (route_pairs [0; 1]%nat).
Proof.
  apply (update_pheromones_twice aco3 [0; 1]%nat [0; 1]%nat 1 1 1 1).
  - exact matrix_shape_aco3.
  - discriminate.
  - discriminate.
  - exact route01_known.
  - exact route01_known.
  - reflexivity.
  - reflexivity.
Defined.

(** A pair with an unknown node stops the loop with [KeyError], unless a
    division by zero comes first. *)
Lemma update_pheromones_loop_unknown (self : ACO) (r : route) (d : xdist)
    (rate dep : Q) :
  fdiv rate d = Ret dep ->
  forall idxs P,
    (exists i, In i idxs
       /\ (~ In (fst (pair_at r i)) (node_list self)
           \/ ~ In (snd (pair_at r i)) (node_list self))) ->
    update_pheromones_loop self r d rate idxs P = Raise KeyError.
Proof.
  intros Hdiv. induction idxs as [|i idxs IH]; intros P (k & Hk & Hun).
  - contradiction.
  - cbn [update_pheromones_loop]. unfold node_to_idx.
    destruct (index_of (nth i r O) (node_list self)) as [ui|] eqn:Hui;
      cbn [bind]; [|reflexivity].
    destruct (index_of (nth ((i + 1) mod length r) r O) (node_list self))
      as [vi|] eqn:Hvi; cbn [bind]; [|reflexivity].
    assert (Hrest : exists j, In j idxs
       /\ (~ In (fst (pair_at r j)) (node_list self)
           \/ ~ In (snd (pair_at r j)) (node_list self))).
    { destruct Hk as [->|Hk]; [|exists k; auto]. exfalso.
      unfold pair_at in Hun. cbn [fst snd] in Hun.
      destruct Hun as [Hun|Hun]; apply index_of_None in Hun; congruence. }
    destruct (has_edge _ _ _); [rewrite Hdiv; cbn [bind]|]; now apply IH.
Qed.

(** X6.  A route through a node that the graph does not have makes
    [update_pheromones] raise [KeyError], for every distance other than
    zero. *)
Theorem update_pheromones_missing_node (self : ACO) (r : route) (d : xdist)
    (rate dep : Q) (u : node) :
  fdiv rate d = Ret dep ->
  In u r -> ~ In u (node_list self) ->
  update_pheromones self r d rate = Raise KeyError.
Proof.
  intros Hdiv Hin Hun. unfold update_pheromones.
  destruct r as [|x r'] eqn:Er; [contradiction|]. rewrite <- Er in *.
  destruct (In_nth r u O Hin) as (i & Hi & Hnth).
  rewrite (update_pheromones_loop_unknown self r d rate dep Hdiv); [reflexivity|].
  exists i. split; [apply in_seq; lia|]. left.
  unfold pair_at. cbn [fst]. now rewrite Hnth.
Qed.

Lemma update_pheromones_missing_node_witness :
  update_pheromones aco3 [0; 7]%nat (Fin 1) 1 = Raise KeyError.
Proof.
  apply (update_pheromones_missing_node aco3 [0; 7]%nat (Fin 1) 1 (1 / 1) 7%nat).
  - reflexivity.
  - cbn. auto.
  - cbn. intros [H|[H|[H|[]]]]; discriminate.
Defined.

(** ** The pairs scored, reinforced and drawn *)

Lemma map_pair_at_consecutive (rest pre : route) :
  map (pair_at (pre ++ rest)) (seq (length pre) (length rest - 1))
  = consecutive rest.
Proof.
  revert pre. induction rest as [|u rest IH]; intros pre; [reflexivity|].
  destruct rest as [|v rest']; [reflexivity|].
  replace (length (u :: v :: rest') - 1)%nat with (S (length rest'))
    by (cbn; lia).
  cbn [seq map]. rewrite consecutive_cons. f_equal.
  - unfold pair_at. f_equal.
    + rewrite app_nth2 by lia. now rewrite Nat.sub_diag.
    + rewrite Nat.mod_small by (rewrite length_app; cbn; lia).
      rewrite app_nth2 by lia.
      now replace (length pre + 1 - length pre)%nat with 1%nat by lia.
  - specialize (IH (pre ++ [u])).
    rewrite <- app_assoc in IH. cbn [app] in IH.
    rewrite length_app in IH. cbn [length] in IH.
    replace (length pre + 1)%nat with (S (length pre)) in IH by lia.
    replace (S (length rest') - 1)%nat with (length rest') in IH by lia.
    exact IH.
Qed.

Lemma nth_pred_last (r : route) :
  nth (length r - 1) r O = last r O.
Proof.
  induction r as [|u r IH]; [reflexivity|].
  destruct r as [|v r']; [reflexivity|].
  change (last (u :: v :: r') O) with (last (v :: r') O). rewrite <- IH.
  replace (length (u :: v :: r') - 1)%nat with (S (length (v :: r') - 1))
    by (cbn; lia).
  reflexivity.
Qed.

(** X7.  The pairs drawn by the script ([route_edges], line 147) are the
    consecutive pairs that [route_distance] scores, first to last.  The pairs
    that [update_pheromones] reinforces are these followed by one more, the
    pair from the last node back to the first; for a route of one node this
    is the pair of that node with itself. *)
Theorem route_pairs_closing (r : route) :
  route_edges r = consecutive r
  /\ route_pairs r
     = match r with
       | [] => []
       | first :: _ => route_edges r ++ [(last r O, first)]
       end.
Proof.
  assert (He : route_edges r = consecutive r)
    by (exact (map_pair_at_consecutive r [])).
  split; [exact He|].
  destruct r as [|u r'] eqn:Er; [reflexivity|]. rewrite <- Er.
  unfold route_pairs, route_edges.
  assert (Hlen : length r = S (length r - 1)) by (rewrite Er; cbn; lia).
  rewrite Hlen at 1. rewrite seq_S, map_app. cbn [map Nat.add]. f_equal.
  unfold pair_at. rewrite nth_pred_last. do 2 f_equal.
  replace (length r - 1 + 1)%nat with (length r) by lia.
  rewrite Nat.Div0.mod_same. now rewrite Er.
Qed.

(** ** More on route_distance *)

Lemma route_distance_xeq (self : ACO) (r : route) :
  xeq (route_distance self r)
      (if forallb (pair_is_edge (cities self)) (consecutive r)
       then Fin (path_weight (cities self) r) else Inf).
Proof.
  unfold route_distance.
  pose proof (route_distance_loop_spec (cities self) r [] 0) as H.
  cbn [app length] in H.
  destruct (route_distance_loop (cities self) r (seq 0 (length r - 1)) 0);
    destruct (forallb (pair_is_edge (cities self)) (consecutive r));
    cbn [xeq] in *; try contradiction; try exact I.
  lra.
Qed.

Lemma consecutive_app (l1 l2 : route) :
  l1 <> [] ->
  consecutive (l1 ++ l2) = consecutive l1 ++ consecutive (last l1 O :: l2).
Proof.
  induction l1 as [|u l1 IH]; intros Hne; [congruence|].
  destruct l1 as [|v l1'].
  - cbn [app last]. destruct l2; reflexivity.
  - change ((u :: v :: l1') ++ l2) with (u :: v :: (l1' ++ l2)).
    rewrite !consecutive_cons.
    change (last (u :: v :: l1') O) with (last (v :: l1') O).
    cbn [app]. f_equal. apply (IH ltac:(discriminate)).
Qed.

Lemma path_weight_app (g : DiGraph) (l1 l2 : route) :
  l1 <> [] ->
  path_weight g (l1 ++ l2)
  == path_weight g l1 + path_weight g (last l1 O :: l2).
Proof.
  intros Hne. unfold path_weight. rewrite (consecutive_app l1 l2 Hne).
  rewrite fold_right_app.
  generalize (fold_right (fun p acc => get_weight g (fst p) (snd p) + acc) 0
                (consecutive (last l1 O :: l2))).
  intros t. induction (consecutive l1) as [|p ps IH]; cbn [fold_right]; [lra|].
  rewrite IH. ring.
Qed.

(** X8.  The distance adds up along a route: cut at any node, the distance
    of the whole route is the distance of the part up to that node plus the
    distance of the part from that node on ([inf] when either part is). *)
Theorem route_distance_concat (self : ACO) (r1 : route) (u : node) (r2 : route) :
  xeq (route_distance self (r1 ++ u :: r2))
      (xadd (route_distance self (r1 ++ [u])) (route_distance self (u :: r2))).
Proof.
  pose proof (route_distance_xeq self (r1 ++ u :: r2)) as H.
  pose proof (route_distance_xeq self (r1 ++ [u])) as H1.
  pose proof (route_distance_xeq self (u :: r2)) as H2.
  replace (r1 ++ u :: r2) with ((r1 ++ [u]) ++ r2) in H
    by (now rewrite <- app_assoc).
  assert (Hne : r1 ++ [u] <> []) by (destruct r1; discriminate).
  rewrite (consecutive_app (r1 ++ [u]) r2 Hne), forallb_app, last_last in H.
  pose proof (path_weight_app (cities self) (r1 ++ [u]) r2 Hne) as Hw.
  rewrite last_last in Hw.
  replace (r1 ++ u :: r2) with ((r1 ++ [u]) ++ r2) by (now rewrite <- app_assoc).
  destruct (route_distance self ((r1 ++ [u]) ++ r2)) as [q|];
    destruct (route_distance self (r1 ++ [u])) as [q1|];
    destruct (route_distance self (u :: r2)) as [q2|];
    destruct (forallb (pair_is_edge (cities self)) (consecutive (r1 ++ [u])));
    destruct (forallb (pair_is_edge (cities self)) (consecutive (u :: r2)));
    cbn [xeq xadd andb] in *; try contradiction; try exact I.
  lra.
Qed.

Lemma path_weight_sign (g : DiGraph) (r : route) :
  forallb (pair_is_edge g) (consecutive r) = true ->
  ((forall u v, has_edge g u v = true -> 0 <= get_weight g u v) ->
   0 <= path_weight g r)
  /\ ((forall u v, has_edge g u v = true -> 0 < get_weight g u v) ->
      consecutive r <> [] -> 0 < path_weight g r).
Proof.
  unfold path_weight. induction (consecutive r) as [|[u v] ps IH]; intros Hall.
  - split; [cbn; lra|congruence].
  - cbn [forallb] in Hall. apply andb_true_iff in Hall. destruct Hall as [He Hall].
    unfold pair_is_edge in He. cbn [fst snd] in He.
    destruct (IH Hall) as [IH1 IH2]. cbn [fold_right fst snd]. split.
    + intros Hw. specialize (IH1 Hw). specialize (Hw u v He). lra.
    + intros Hw _. pose proof (Hw u v He) as Huv.
      assert (0 <= fold_right
                     (fun p acc => get_weight g (fst p) (snd p) + acc) 0 ps).
      { apply IH1. intros x y Hxy. apply Qlt_le_weak. now apply Hw. }
      lra.
Qed.

(** X9.  The sign of a distance.  A route of at most one node has distance
    0.  When no edge of the graph has a negative weight, a distance is [inf]
    or not negative; when every edge has a positive weight, the finite
    distance of a route of two or more nodes is positive, so dividing by it
    is safe. *)
Theorem route_distance_sign (self : ACO) (r : route) :
  ((length r <= 1)%nat -> route_distance self r = Fin 0)
  /\ ((forall u v, has_edge (cities self) u v = true ->
                   0 <= get_weight (cities self) u v) ->
      route_distance self r = Inf
      \/ exists q, route_distance self r = Fin q /\ 0 <= q)
  /\ ((forall u v, has_edge (cities self) u v = true ->
                   0 < get_weight (cities self) u v) ->
      (2 <= length r)%nat ->
      forall q, route_distance self r = Fin q -> 0 < q).
Proof.
  pose proof (route_distance_xeq self r) as H.
  split; [|split].
  - intros Hlen. destruct r as [|u [|v r']]; [reflexivity|reflexivity|].
    cbn in Hlen. lia.
  - intros Hw. destruct (route_distance self r) as [q|]; [right|now left].
    exists q. split; [reflexivity|].
    destruct (forallb (pair_is_edge (cities self)) (consecutive r)) eqn:Hall;
      cbn [xeq] in H; [|contradiction].
    destruct (path_weight_sign (cities self) r Hall) as [Hs _].
    specialize (Hs Hw). lra.
  - intros Hw Hlen q Hq. rewrite Hq in H.
    destruct (forallb (pair_is_edge (cities self)) (consecutive r)) eqn:Hall;
      cbn [xeq] in H; [|contradiction].
    destruct (path_weight_sign (cities self) r Hall) as [_ Hs].
    assert (Hne : consecutive r <> []).
    { destruct r as [|u [|v r']]; cbn in Hlen; try lia.
      rewrite consecutive_cons. discriminate. }
    specialize (Hs Hw Hne). lra.
Qed.

(** ** More on calculate_probabilities *)

Lemma attractions_nonneg (self : ACO) (current : node) (current_idx : nat) :
  (forall a b, 0 <= entry (pheromone self) a b) ->
  (forall v, has_edge (cities self) current v = true ->
             0 <= get_weight (cities self) current v) ->
  forall possible_next total pheromones t p,
    attractions self current current_idx possible_next total pheromones
    = Ret (t, p) ->
    Forall (fun x => 0 <= x) pheromones -> Forall (fun x => 0 <= x) p.
Proof.
  intros Hnn Hw.
  induction possible_next as [|city rest IH]; intros total pheromones t p H Hp.
  - cbn in H. now inversion H; subst.
  - cbn [attractions] in H. bind_inv H. bind_inv H.
    apply IH in H; [assumption|].
    apply Forall_app. split; [assumption|]. constructor; [|constructor].
    apply Qmult_le_0_compat; apply Qpower_0_le; [apply Hnn|].
    rewrite route_distance_pair in E0.
    destruct (has_edge (cities self) current city) eqn:He.
    + unfold fdiv in E0.
      destruct (Qeq_bool (0 + get_weight (cities self) current city) 0) eqn:Hz;
        [discriminate|].
      inversion E0; subst. specialize (Hw city He).
      assert (Hne : ~ 0 + get_weight (cities self) current city == 0).
      { intros Hc. apply Qeq_bool_iff in Hc. congruence. }
      apply Qdiv_nonneg; lra.
    + cbn in E0. inversion E0; subst. lra.
Qed.

Lemma Qsum_bound (l : list Q) (x : Q) :
  Forall (fun y => 0 <= y) l -> In x l -> x <= Qsum l.
Proof.
  induction 1 as [|y l Hy Hl IH]; intros Hin; [contradiction|].
  cbn [Qsum fold_right]. fold (Qsum l).
  assert (0 <= Qsum l).
  { clear IH Hin. induction Hl as [|z l Hz _ IHl]; cbn; [lra|].
    fold (Qsum l). lra. }
  destruct Hin as [->|Hin]; [lra|]. specialize (IH Hin). lra.
Qed.

(** X10.  What [calculate_probabilities] returns is a probability
    distribution over the candidates.  When no entry of the matrix and no
    weight of an edge out of the current node is negative and the call
    returns, there is one value per candidate, every value lies between 0 and
    1, and, for a nonempty candidate list, the values add up to 1. *)
Theorem calculate_probabilities_distribution (self : ACO) (current : node)
    (possible_next : list node) (probabilities : list Q) :
  (forall a b, 0 <= entry (pheromone self) a b) ->
  (forall v, has_edge (cities self) current v = true ->
             0 <= get_weight (cities self) current v) ->
  calculate_probabilities self current possible_next = Ret probabilities ->
  length probabilities = length possible_next
  /\ Forall (fun p => 0 <= p /\ p <= 1) probabilities
  /\ (possible_next <> [] -> Qsum probabilities == 1).
Proof.
  intros Hnn Hw Hrun.
  destruct (calculate_probabilities_length self current possible_next
              probabilities Hrun) as [Hlen Hsum].
  split; [assumption|].
  assert (Hpos : Forall (fun p => 0 <= p) probabilities).
  { unfold calculate_probabilities in Hrun.
    destruct possible_next as [|c0 rest] eqn:Epn.
    - inversion Hrun. constructor.
    - rewrite <- Epn in *. bind_inv Hrun. bind_inv Hrun. destruct a0 as [t p].
      pose proof (attractions_nonneg self current a Hnn Hw _ _ _ _ _ E0
                    (Forall_nil _)) as Hp.
      apply attractions_spec in E0. destruct E0 as (ws & Hws & _ & Ht).
      cbn [app] in Hws. subst ws.
      assert (Hn : (0 < length possible_next)%nat) by (rewrite Epn; cbn; lia).
      pose proof (inject_nat_pos _ Hn) as Hn'.
      destruct (Qeq_bool t 0) eqn:Hz; inversion Hrun; subst probabilities.
      + apply Forall_forall. intros x Hx. apply repeat_spec in Hx. subst x.
        apply Qdiv_nonneg; lra.
      + assert (Hne : ~ t == 0).
        { intros Hc. apply Qeq_bool_iff in Hc. congruence. }
        assert (Hs : 0 <= Qsum p).
        { clear - Hp. induction Hp as [|z l Hz _ IHl]; cbn; [lra|].
          fold (Qsum l). lra. }
        assert (Htpos : 0 < t).
        { destruct (Qlt_le_dec 0 t) as [Hlt|Hle]; [assumption|].
          exfalso. apply Hne. lra. }
        rewrite Forall_map. eapply Forall_impl; [|exact Hp].
        intros x Hx. cbv beta in *. now apply Qdiv_nonneg. }
  split; [|assumption].
  apply Forall_forall. intros x Hx. split.
  - rewrite Forall_forall in Hpos. now apply Hpos.
  - destruct possible_next as [|c0 rest] eqn:Epn.
    + destruct probabilities; [contradiction|discriminate].
    + rewrite <- (Hsum ltac:(discriminate)). now apply Qsum_bound.
Qed.

Lemma graph3_nonneg_from_1 (v : node) :
  has_edge (cities aco3) 1%nat v = true -> 0 <= get_weight (cities aco3) 1%nat v.
Proof.
  destruct v as [|[|[|v]]]; cbn; intros H; discriminate.
Defined.

Lemma calculate_probabilities_distribution_witness :
  exists probabilities,
    calculate_probabilities aco3 1%nat [0; 2]%nat = Ret probabilities
    /\ Qsum probabilities == 1.
Proof.
  destruct (calculate_probabilities aco3 1%nat [0; 2]%nat)
    as [probabilities| |] eqn:E; try (vm_compute in E; discriminate).
  exists probabilities. split; [reflexivity|].
  refine (proj2 (proj2 (calculate_probabilities_distribution aco3 1%nat
                          [0; 2]%nat probabilities aco3_nonneg
                          graph3_nonneg_from_1 E)) _).
  discriminate.
Defined.

(** ** More on the insertion loop *)

Section Aligned.
Context {A B : Type}.
Variable R : A -> B -> Prop.

Lemma Forall2_same_length (l : list A) (l' : list B) :
  Forall2 R l l' -> length l = length l'.
Proof. induction 1; cbn; congruence. Qed.

Lemma Forall2_firstn_both (n : nat) (l : list A) (l' : list B) :
  Forall2 R l l' -> Forall2 R (firstn n l) (firstn n l').
Proof.
  intros H. revert n. induction H; intros [|n]; cbn; constructor; auto.
Qed.

Lemma Forall2_skipn_both (n : nat) (l : list A) (l' : list B) :
  Forall2 R l l' -> Forall2 R (skipn n l) (skipn n l').
Proof.
  intros H. revert n. induction H; intros [|n]; cbn; try constructor; auto.
Qed.

Lemma Forall2_removelast_both (l : list A) (l' : list B) :
  Forall2 R l l' -> Forall2 R (removelast l) (removelast l').
Proof.
  induction 1 as [|x y l l' Hxy Hl IH]; [constructor|].
  destruct Hl as [|x' y' l l' Hxy' Hl].
  - constructor.
  - change (removelast (x :: x' :: l)) with (x :: removelast (x' :: l)).
    change (removelast (y :: y' :: l')) with (y :: removelast (y' :: l')).
    constructor; assumption.
Qed.

Lemma Forall2_update_nth_both (x : A) (y : B) (i : nat) (l : list A) (l' : list B) :
  R x y -> Forall2 R l l' ->
  Forall2 R (update_nth (fun _ => x) i l) (update_nth (fun _ => y) i l').
Proof.
  intros Hxy H. revert i. induction H; intros [|i]; cbn; constructor; auto.
Qed.

Lemma Forall2_slice_shift (i : nat) (l : list A) (l' : list B) :
  Forall2 R l l' -> Forall2 R (slice_shift i l) (slice_shift i l').
Proof.
  intros H. unfold slice_shift. apply Forall2_app.
  - now apply Forall2_firstn_both.
  - now apply Forall2_skipn_both, Forall2_removelast_both.
Qed.
End Aligned.

Lemma length_slice_shift {A : Type} (i : nat) (l : list A) :
  (i < length l)%nat -> length (slice_shift i l) = length l.
Proof.
  intros Hi. unfold slice_shift.
  rewrite length_app, length_firstn, length_skipn.
  destruct l as [|x l]; [cbn in Hi; lia|].
  rewrite length_removelast_cons. cbn [length] in *. lia.
Qed.

Lemma In_slice_shift {A : Type} (i : nat) (l : list A) (x : A) :
  In x (slice_shift i l) -> In x l.
Proof.
  unfold slice_shift. intros H. apply in_app_or in H. destruct H as [H|H].
  - rewrite <- (firstn_skipn (i + 1) l). apply in_or_app. now left.
  - apply In_removelast. rewrite <- (firstn_skipn i (removelast l)).
    apply in_or_app. now right.
Qed.

Lemma In_update_nth {A : Type} (y : A) (i : nat) (l : list A) (x : A) :
  In x (update_nth (fun _ => y) i l) -> x = y \/ In x l.
Proof.
  revert i. induction l as [|z l IH]; intros [|i] H; cbn in *; auto.
  - destruct H as [H|H]; auto.
  - destruct H as [H|H]; auto. destruct (IH i H); auto.
Qed.

Lemma set_item_in_range {A : Type} (i : nat) (x : A) (l : list A) :
  (i < length l)%nat -> set_item i x l = Ret (update_nth (fun _ => x) i l).
Proof.
  intros H. unfold set_item. apply Nat.ltb_lt in H. now rewrite H.
Qed.

Lemma offer_loop_aligned (R : route -> xdist -> Prop) (r : route) (d : xdist) :
  R r d ->
  forall idxs br bd,
    Forall2 R br bd ->
    exists br' bd',
      offer_loop r d idxs br bd = Ret (br', bd')
      /\ Forall2 R br' bd'
      /\ length bd' = length bd
      /\ (forall x, In x bd' -> x = d \/ In x bd).
Proof.
  intros Hrd. induction idxs as [|i idxs IH]; intros br bd Hal.
  - exists br, bd. cbn. auto.
  - cbn [offer_loop]. destruct (nth_error bd i) as [e|] eqn:En.
    + destruct (xltb d e).
      * cbv zeta.
        assert (Hi : (i < length bd)%nat)
          by (apply nth_error_Some; congruence).
        set (shift := (i <? length bd - 1)%nat).
        set (bd1 := if shift then slice_shift i bd else bd).
        set (br1 := if shift then slice_shift i br else br).
        assert (Hal1 : Forall2 R br1 bd1).
        { subst br1 bd1. destruct shift; [now apply Forall2_slice_shift|assumption]. }
        assert (Hl1 : length bd1 = length bd).
        { subst bd1. destruct shift; [now apply length_slice_shift|reflexivity]. }
        assert (Hin1 : forall x, In x bd1 -> In x bd).
        { subst bd1. destruct shift; [apply In_slice_shift|auto]. }
        pose proof (Forall2_same_length R br1 bd1 Hal1) as Hl2.
        rewrite (set_item_in_range i r br1) by lia. cbn [bind].
        rewrite (set_item_in_range i d bd1) by lia. cbn [bind].
        destruct (IH _ _ (Forall2_update_nth_both R r d i br1 bd1 Hrd Hal1))
          as (br' & bd' & Hrun & Hal' & Hlen' & Hin').
        exists br', bd'. split; [assumption|]. split; [assumption|].
        split; [rewrite Hlen', length_update_nth; lia|].
        intros x Hx. destruct (Hin' x Hx) as [->|Hx']; [now left|].
        apply In_update_nth in Hx'. destruct Hx' as [->|Hx']; auto.
      * apply IH. assumption.
    + exists br, bd. auto.
Qed.

(** X11.  The insertion loop keeps routes and distances paired, on any
    archive, sorted or not.  When every slot holds a route with a distance
    related to it and the offered route and distance are related, the loop
    returns without an error, the archive keeps its length, every slot still
    holds a related pair, and every distance in it is the offered one or was
    in the archive before. *)
Theorem offer_keeps_pairs (R : route -> xdist -> Prop) (r : route) (d : xdist)
    (best_routes : list route) (best_distances : list xdist) :
  Forall2 R best_routes best_distances ->
  R r d ->
  exists best_routes' best_distances',
    offer r d best_routes best_distances = Ret (best_routes', best_distances')
    /\ Forall2 R best_routes' best_distances'
    /\ length best_routes' = length best_routes
    /\ length best_distances' = length best_distances
    /\ (forall x, In x best_distances' -> x = d \/ In x best_distances).
Proof.
  intros Hal Hrd.
  destruct (offer_loop_aligned R r d Hrd (seq 0 (length best_distances))
              best_routes best_distances Hal)
    as (br' & bd' & Hrun & Hal' & Hlen & Hin).
  exists br', bd'. split; [exact Hrun|]. split; [assumption|].
  split; [|split; assumption].
  rewrite (Forall2_same_length R _ _ Hal'), Hlen.
  symmetry. exact (Forall2_same_length R _ _ Hal).
Qed.

Lemma offer_keeps_pairs_witness :
  exists best_routes' best_distances',
    offer [0; 1]%nat (Fin 3) [[1; 0]; [0]]%nat [Fin 5; Fin 1]
    = Ret (best_routes', best_distances')
    /\ length best_distances' = 2%nat.
Proof.
  destruct (offer_keeps_pairs (fun _ _ => True) [0; 1]%nat (Fin 3)
              [[1; 0]; [0]]%nat [Fin 5; Fin 1])
    as (br' & bd' & Hrun & _ & _ & Hlen & _).
  - repeat constructor.
  - exact I.
  - exists br', bd'. split; assumption.
Defined.

Lemma fill_from_prefix (r : route) (d : xdist) :
  forall br bd,
    length br = length bd -> ascending bd ->
    exists k,
      (k <= length bd)%nat
      /\ fill_from r d br bd
         = (firstn k br ++ repeat r (length bd - k),
            firstn k bd ++ repeat d (length bd - k))
      /\ Forall (fun x => xle x d) (firstn k bd)
      /\ Forall (fun x => xltb d x = true) (skipn k bd).
Proof.
  induction br as [|r0 br IH]; intros [|d0 bd] Hlen Hs; try discriminate.
  - exists O. cbn. repeat split; auto.
  - cbn [fill_from]. destruct (xltb d d0) eqn:Hlt.
    + exists O. split; [lia|]. split; [reflexivity|]. split; [constructor|].
      cbn [skipn]. inversion Hs as [|? ? _ Hall]; subst.
      constructor; [assumption|].
      eapply Forall_impl; [|exact Hall].
      intros x Hx. eapply xltb_le_trans; eassumption.
    + inversion Hs as [|? ? Htl _]; subst.
      destruct (IH bd ltac:(cbn in Hlen; lia) Htl) as (k & Hk & Heq & Hpre & Hsuf).
      exists (S k). split; [cbn; lia|]. rewrite Heq.
      split; [reflexivity|]. split; [|exact Hsuf].
      cbn [firstn]. constructor; assumption.
Qed.

(** X12.  What one offer does to a sorted archive.  The entries that are not
    greater than the offered distance keep their slots, and every slot after
    them is overwritten with the offered route and distance, so the entries
    that were there are all dropped, not only the last one.  An offer that
    beats the best entry therefore fills the whole archive with copies of
    itself. *)
Theorem offer_overwrites_tail (r : route) (d : xdist) (best_routes : list route)
    (best_distances : list xdist) :
  length best_routes = length best_distances ->
  ascending best_distances ->
  (exists k,
     (k <= length best_distances)%nat
     /\ offer r d best_routes best_distances
        = Ret (firstn k best_routes ++ repeat r (length best_distances - k),
               firstn k best_distances ++ repeat d (length best_distances - k))
     /\ Forall (fun x => xle x d) (firstn k best_distances)
     /\ Forall (fun x => xltb d x = true) (skipn k best_distances))
  /\ (xltb d (hd Inf best_distances) = true ->
      offer r d best_routes best_distances
      = Ret (repeat r (length best_distances), repeat d (length best_distances))).
Proof.
  intros Hlen Hs. rewrite (offer_sorted r d _ _ Hlen Hs). split.
  - destruct (fill_from_prefix r d _ _ Hlen Hs) as (k & Hk & Heq & Hpre & Hsuf).
    exists k. rewrite Heq. auto.
  - intros Hlt. destruct best_routes as [|r0 br], best_distances as [|d0 bd];
      try discriminate; [reflexivity|].
    cbn [hd] in Hlt. cbn [fill_from]. now rewrite Hlt.
Qed.

Lemma ascending_1579 : ascending [Fin 1; Fin 5; Fin 7; Fin 9].
Proof.
  repeat (constructor; [|repeat (constructor; [reflexivity|]); constructor]).
  constructor.
Defined.

Lemma offer_overwrites_tail_witness :
  offer [9%nat] (Fin (1 # 2)) [[1]; [5]; [7]; [9]]%nat
    [Fin 1; Fin 5; Fin 7; Fin 9]
  = Ret (repeat [9%nat] 4, repeat (Fin (1 # 2)) 4).
Proof.
  apply (proj2 (offer_overwrites_tail [9%nat] (Fin (1 # 2))
                  [[1]; [5]; [7]; [9]]%nat [Fin 1; Fin 5; Fin 7; Fin 9]
                  eq_refl ascending_1579)).
  reflexivity.
Defined.

(** ** More on ant_tour *)

Lemma neighbors_has_edge (g : DiGraph) (u v : node) :
  In v (neighbors g u) <-> has_edge g u v = true.
Proof.
  unfold neighbors, has_edge. rewrite in_map_iff, existsb_exists. split.
  - intros (e & Hd & He). apply filter_In in He. destruct He as [Hin Hs].
    exists e. split; [assumption|]. unfold is_edge. rewrite Hs, Hd.
    now rewrite Nat.eqb_refl.
  - intros (e & Hin & He). unfold is_edge in He.
    apply andb_true_iff in He. destruct He as [Hs Hd].
    apply Nat.eqb_eq in Hd. exists e. split; [assumption|].
    apply filter_In. auto.
Qed.

Lemma candidates_with_neighbor (self : ACO) (unvisited : list node)
    (current v : node) :
  In v (neighbors (cities self) current) -> In v unvisited ->
  forall c, In c (candidates self unvisited current) ->
            In c (neighbors (cities self) current) /\ In c unvisited.
Proof.
  intros Hn Hu c Hc. unfold candidates in Hc.
  assert (Hv : In v (filter (fun n => mem n unvisited)
                       (neighbors (cities self) current))).
  { apply filter_In. split; [assumption|now apply mem_In]. }
  destruct (filter (fun n => mem n unvisited) (neighbors (cities self) current))
    as [|c0 cs] eqn:E; [contradiction|].
  rewrite <- E in Hc. apply filter_In in Hc. destruct Hc as [H1 H2].
  split; [assumption|now apply mem_In].
Qed.

(** With an unvisited neighbour the step does not depend on the shortest-path
    service, whatever its outcome; when it returns, it appended the drawn
    neighbour. *)
Lemma tour_step_with_neighbor
    (sp sp' : DiGraph -> node -> node -> option (list node)) (self : ACO)
    (rt : route) (unvisited : list node) (current v : node) (s : rng) :
  In v (neighbors (cities self) current) -> In v unvisited ->
  tour_step sp self rt unvisited current s
  = tour_step sp' self rt unvisited current s
  /\ forall rt' unvisited' next s',
       tour_step sp self rt unvisited current s
       = Ret (rt', unvisited', next, s') ->
       rt' = rt ++ [next]
       /\ has_edge (cities self) current next = true
       /\ In next unvisited
       /\ unvisited' = remove_node next unvisited.
Proof.
  intros Hn Hu.
  assert (Hne : unvisited <> []) by (destruct unvisited; [contradiction|discriminate]).
  destruct (select_next_spec self unvisited current s Hne) as (_ & _ & Hin).
  unfold tour_step. cbv zeta.
  destruct (select_next self unvisited current s) as [[n s1]|e|] eqn:E;
    cbn [bind]; [|split; [reflexivity|discriminate]
                 |split; [reflexivity|discriminate]].
  destruct (candidates_with_neighbor self unvisited current v Hn Hu n
              (Hin n s1 eq_refl)) as [Hnn Hnu].
  rewrite (proj2 (mem_In n (neighbors (cities self) current)) Hnn).
  rewrite (proj2 (mem_In n unvisited) Hnu). cbn [bind].
  split; [reflexivity|].
  intros rt' unvisited' next s' H. inversion H; subst.
  split; [reflexivity|]. split; [now apply neighbors_has_edge|].
  split; [assumption|reflexivity].
Qed.

(** X13.  While the current city has an unvisited neighbour, a pass of the
    loop never asks for a shortest path: its outcome is the same for every
    shortest-path service, and when it returns it has appended exactly one
    city, an unvisited neighbour joined to the current city by an edge, and
    removed that city from the unvisited set. *)
Theorem tour_step_direct
    (sp sp' : DiGraph -> node -> node -> option (list node)) (self : ACO)
    (rt : route) (unvisited : list node) (current v : node) (s : rng) :
  In v (neighbors (cities self) current) -> In v unvisited ->
  tour_step sp self rt unvisited current s
  = tour_step sp' self rt unvisited current s
  /\ forall rt' unvisited' next s',
       tour_step sp self rt unvisited current s
       = Ret (rt', unvisited', next, s') ->
       rt' = rt ++ [next]
       /\ has_edge (cities self) current next = true
       /\ In next unvisited
       /\ unvisited' = remove_node next unvisited.
Proof. exact (tour_step_with_neighbor sp sp' self rt unvisited current v s). Qed.

Lemma tour_step_direct_witness :
  exists s',
    tour_step no_path aco3 [0]%nat [1; 2]%nat 0%nat rng_zero
    = Ret ([0; 1]%nat, [2]%nat, 1%nat, s')
    /\ has_edge (cities aco3) 0%nat 1%nat = true.
Proof.
  destruct (tour_step no_path aco3 [0]%nat [1; 2]%nat 0%nat rng_zero)
    as [[[[rt' un'] next] s']| |] eqn:E; try (vm_compute in E; discriminate).
  destruct (proj2 (tour_step_direct no_path no_path aco3 [0]%nat [1; 2]%nat
                     0%nat 1%nat rng_zero ltac:(cbn; auto) ltac:(cbn; auto))
              rt' un' next s' E) as (H1 & H2 & H3 & H4).
  exists s'. split; [|reflexivity].
  vm_compute in E. injection E as <- <- <- <-. reflexivity.
Defined.

Lemma last_default {A : Type} (l : list A) (d d' : A) :
  l <> [] -> last l d = last l d'.
Proof.
  induction l as [|x l IH]; intros Hne; [congruence|].
  destruct l as [|y l]; [reflexivity|].
  change (last (x :: y :: l) d) with (last (y :: l) d).
  change (last (x :: y :: l) d') with (last (y :: l) d').
  apply IH. discriminate.
Qed.

Lemma last_app_right {A : Type} (l1 l2 : list A) (d : A) :
  l2 <> [] -> last (l1 ++ l2) d = last l2 d.
Proof.
  intros Hne. induction l1 as [|x l1 IH]; [reflexivity|].
  cbn [app]. destruct (l1 ++ l2) as [|y l] eqn:E.
  - destruct l1; [cbn in E; congruence|discriminate].
  - exact IH.
Qed.

(** A pass that returns drew an unvisited city and removed it. *)
Lemma tour_step_next (sp : DiGraph -> node -> node -> option (list node))
    (self : ACO) (rt : route) (unvisited : list node) (current : node) (s : rng)
    (rt' : route) (unvisited' : list node) (next : node) (s' : rng) :
  unvisited <> [] ->
  tour_step sp self rt unvisited current s = Ret (rt', unvisited', next, s') ->
  In next unvisited
  /\ unvisited' = remove_node next unvisited
  /\ ((mem next (neighbors (cities self) current) = true /\ rt' = rt ++ [next])
      \/ (mem next (neighbors (cities self) current) = false
          /\ exists p, sp (cities self) current next = Some p
                       /\ rt' = rt ++ tl p)).
Proof.
  intros Hne H. unfold tour_step in H. cbv zeta in H.
  bind_inv H. destruct a as [n s1].
  destruct (select_next_spec self unvisited current s Hne) as (_ & _ & Hin).
  specialize (Hin _ _ E).
  destruct (candidates_spec self unvisited current Hne) as [_ Hincl].
  apply Hincl in Hin.
  pose proof (proj2 (mem_In n unvisited) Hin) as Hm. rewrite Hm in H.
  destruct (mem n (neighbors (cities self) current)) eqn:Hmem; cbn [bind] in H.
  - inversion H; subst. split; [assumption|]. split; [reflexivity|].
    left. split; [assumption|reflexivity].
  - destruct (sp (cities self) current n) as [p|] eqn:Hp; cbn [bind] in H;
      [|discriminate].
    inversion H; subst. split; [assumption|]. split; [reflexivity|].
    right. split; [assumption|]. exists p. split; [assumption|reflexivity].
Qed.

Lemma remove_node_In (x y : node) (l : list node) :
  In y l -> y = x \/ In y (remove_node x l).
Proof.
  intros H. destruct (Nat.eq_dec y x) as [->|Hne]; [now left|right].
  unfold remove_node. apply filter_In. split; [assumption|].
  apply negb_true_iff. now apply Nat.eqb_neq.
Qed.

Lemma remove_node_incl (x : node) (l : list node) :
  incl (remove_node x l) l.
Proof. intros y Hy. unfold remove_node in Hy. now apply filter_In in Hy. Qed.

Lemma remove_node_not_In (x : node) (l : list node) :
  ~ In x (remove_node x l).
Proof.
  unfold remove_node. intros H. apply filter_In in H. destruct H as [_ H].
  rewrite Nat.eqb_refl in H. discriminate.
Qed.

Section TourRoute.
Variable sp : DiGraph -> node -> node -> option (list node).
Hypothesis sp_paths : path_contract sp.

(** The route built so far ends at the current city and runs along edges;
    a pass keeps this and puts the drawn city at the end. *)
Lemma tour_step_route (self : ACO) (rt : route) (unvisited : list node)
    (current : node) (s : rng) (rt' : route) (unvisited' : list node)
    (next : node) (s' : rng) :
  unvisited <> [] -> rt <> [] -> last rt O = current ->
  forallb (pair_is_edge (cities self)) (consecutive rt) = true ->
  tour_step sp self rt unvisited current s = Ret (rt', unvisited', next, s') ->
  rt' <> [] /\ last rt' O = next
  /\ forallb (pair_is_edge (cities self)) (consecutive rt') = true
  /\ (exists ext, rt' = rt ++ ext).
Proof.
  intros Hne Hrt Hlast Hedges H.
  destruct (tour_step_next sp self rt unvisited current s rt' unvisited' next s'
              Hne H) as (_ & _ & [[Hmem ->]|(Hmem & p & Hp & ->)]).
  - split; [destruct rt; discriminate|]. split; [apply last_last|].
    split; [|now exists [next]].
    rewrite (consecutive_app rt [next] Hrt), forallb_app, Hedges, Hlast.
    cbn. unfold pair_is_edge. cbn [fst snd].
    apply mem_In, neighbors_has_edge in Hmem. now rewrite Hmem.
  - destruct (sp_paths _ _ _ _ Hp) as (Hhd & Hl & He).
    destruct p as [|x p']; [discriminate|]. cbn in Hhd. inversion Hhd; subst x.
    cbn [tl]. split; [destruct rt; [congruence|discriminate]|].
    split; [|split; [|now exists p']].
    + destruct p' as [|y p''].
      * rewrite app_nil_r. cbn in Hl. congruence.
      * rewrite last_app_right by discriminate.
        rewrite <- Hl.
        change (last (current :: y :: p'') current) with (last (y :: p'') current).
        apply last_default. discriminate.
    + rewrite (consecutive_app rt p' Hrt), forallb_app, Hedges, Hlast.
      exact He.
Qed.

Lemma ant_tour_loop_route (self : ACO) (fuel : nat) :
  forall rt unvisited current s rt_final s',
    rt <> [] -> last rt O = current ->
    forallb (pair_is_edge (cities self)) (consecutive rt) = true ->
    ant_tour_loop sp fuel self rt unvisited current s = Ret (rt_final, s') ->
    forallb (pair_is_edge (cities self)) (consecutive rt_final) = true
    /\ (exists ext, rt_final = rt ++ ext)
    /\ (forall u, In u unvisited -> In u rt_final).
Proof.
  induction fuel as [|fuel IH];
    intros rt unvisited current s rt_final s' Hrt Hlast Hedges H.
  - destruct unvisited; [|discriminate]. cbn in H. inversion H; subst.
    split; [assumption|]. split; [exists []; now rewrite app_nil_r|].
    intros u [].
  - destruct unvisited as [|x xs] eqn:Eu.
    + cbn in H. inversion H; subst.
      split; [assumption|]. split; [exists []; now rewrite app_nil_r|].
      intros u [].
    + rewrite <- Eu in *.
      assert (Hne : unvisited <> []) by (rewrite Eu; discriminate).
      assert (Hstep : exists rt1 un1 c1 s1,
                tour_step sp self rt unvisited current s = Ret (rt1, un1, c1, s1)
                /\ ant_tour_loop sp fuel self rt1 un1 c1 s1 = Ret (rt_final, s')).
      { rewrite Eu in H. cbn [ant_tour_loop] in H. rewrite <- Eu in H.
        bind_inv H. destruct a as [[[rt1 un1] c1] s1]. eauto 6. }
      destruct Hstep as (rt1 & un1 & c1 & s1 & Hs & Hloop).
      destruct (tour_step_route self rt unvisited current s rt1 un1 c1 s1
                  Hne Hrt Hlast Hedges Hs) as (Hrt1 & Hlast1 & Hedges1 & ext1 & Hext1).
      destruct (tour_step_next sp self rt unvisited current s rt1 un1 c1 s1 Hne Hs)
        as (Hin & Hun1 & _).
      destruct (IH rt1 un1 c1 s1 rt_final s' Hrt1 Hlast1 Hedges1 Hloop)
        as (Hfin & (ext & Hext) & Hcov).
      split; [assumption|]. split.
      * exists (ext1 ++ ext). rewrite Hext, Hext1. now rewrite app_assoc.
      * intros u Hu. destruct (remove_node_In c1 u unvisited Hu) as [->|Hu'].
        -- rewrite Hext. apply in_or_app. left. rewrite <- Hlast1.
           destruct rt1 as [|y rt1']; [congruence|].
           apply (@exists_last _ (y :: rt1')) in Hrt1.
           destruct Hrt1 as (l' & a & ->). rewrite last_last.
           apply in_or_app. right. now left.
        -- apply Hcov. now rewrite Hun1.
Qed.
End TourRoute.

Lemma route_distance_finite (self : ACO) (r : route) :
  forallb (pair_is_edge (cities self)) (consecutive r) = true ->
  exists q, route_distance self r = Fin q.
Proof.
  intros H. pose proof (route_distance_xeq self r) as Hx. rewrite H in Hx.
  destruct (route_distance self r) as [q|]; [now exists q|contradiction].
Qed.

(** What a returned tour looks like, the shortest-path service keeping its
    contract. *)
Lemma ant_tour_route_facts
    (sp : DiGraph -> node -> node -> option (list node)) (self : ACO) (s : rng)
    (rt : route) (s' : rng) :
  path_contract sp ->
  ant_tour sp self s = Ret (rt, s') ->
  (rt = [] <-> nodes (cities self) = [])
  /\ (forall u, In u (nodes (cities self)) -> In u rt)
  /\ forallb (pair_is_edge (cities self)) (consecutive rt) = true.
Proof.
  intros Hsp H. unfold ant_tour, ant_tour_fuel in H. cbv zeta in H.
  destruct (nodup Nat.eq_dec (nodes (cities self))) as [|x xs] eqn:Eu.
  - inversion H; subst.
    assert (Hnil : nodes (cities self) = []).
    { destruct (nodes (cities self)) as [|y ys] eqn:En; [reflexivity|].
      exfalso. assert (Hy : In y (nodup Nat.eq_dec (y :: ys)))
        by (apply nodup_In; now left).
      rewrite Eu in Hy. contradiction. }
    split; [tauto|]. split; [|reflexivity].
    intros u Hu. rewrite Hnil in Hu. contradiction.
  - rewrite <- Eu in *. bind_inv H. destruct a as [current s1].
    destruct (ant_tour_loop_route sp Hsp self _ [current] _ current s1 rt s'
                ltac:(discriminate) eq_refl eq_refl H)
      as (Hedges & (ext & Hext) & Hcov).
    split; [|split; [|assumption]].
    + split.
      * intros ->. discriminate.
      * intros Hnil. rewrite Hnil in Eu. discriminate.
    + intros u Hu. apply (nodup_In Nat.eq_dec) in Hu.
      destruct (remove_node_In current u _ Hu) as [->|Hu'].
      * rewrite Hext. now left.
      * now apply Hcov.
Qed.

(** X14.  The routes of [ant_tour].  When the shortest-path service returns
    node sequences from its source to its target along edges, a returned
    route is empty only for a graph without nodes, contains every node of the
    graph (so it has at least N entries), and every two consecutive entries
    are joined by an edge, so its distance is finite. *)
Theorem ant_tour_route
    (sp : DiGraph -> node -> node -> option (list node)) (self : ACO) (s : rng)
    (rt : route) (s' : rng) :
  path_contract sp ->
  ant_tour sp self s = Ret (rt, s') ->
  (rt = [] <-> nodes (cities self) = [])
  /\ (forall u, In u (nodes (cities self)) -> In u rt)
  /\ (length (nodup Nat.eq_dec (nodes (cities self))) <= length rt)%nat
  /\ forallb (pair_is_edge (cities self)) (consecutive rt) = true
  /\ exists q, route_distance self rt = Fin q.
Proof.
  intros Hsp H.
  destruct (ant_tour_route_facts sp self s rt s' Hsp H) as (H1 & H2 & H3).
  split; [assumption|]. split; [assumption|]. split; [|split; [assumption|]].
  - apply NoDup_incl_length; [apply NoDup_nodup|].
    intros u Hu. apply H2. now apply nodup_In in Hu.
  - now apply route_distance_finite.
Qed.

Lemma no_path_contract : path_contract no_path.
Proof. intros g u v p H. discriminate. Defined.

Lemma ant_tour_route_witness :
  exists rt s' q,
    ant_tour no_path acoK rngK = Ret (rt, s')
    /\ route_distance acoK rt = Fin q.
Proof.
  destruct (ant_tour no_path acoK rngK) as [[rt s']| |] eqn:E;
    try (vm_compute in E; discriminate).
  destruct (ant_tour_route no_path acoK rngK rt s' no_path_contract E)
    as (_ & _ & _ & _ & q & Hq).
  exists rt, s', q. split; [reflexivity|assumption].
Defined.

(** *** Tours on a complete graph *)

Lemma complete_neighbor (self : ACO) (unvisited : list node) (current : node) :
  complete (cities self) ->
  In current (nodes (cities self)) -> ~ In current unvisited ->
  incl unvisited (nodes (cities self)) -> unvisited <> [] ->
  exists v, In v (neighbors (cities self) current) /\ In v unvisited.
Proof.
  intros Hc Hcur Hnot Hincl Hne. destruct unvisited as [|v vs]; [congruence|].
  exists v. split; [|now left]. apply neighbors_has_edge. apply Hc.
  - assumption.
  - apply Hincl. now left.
  - intros ->. apply Hnot. now left.
Qed.

Lemma ant_tour_loop_complete
    (sp sp' : DiGraph -> node -> node -> option (list node)) (self : ACO)
    (fuel : nat) :
  complete (cities self) ->
  forall rt unvisited current s,
    In current (nodes (cities self)) -> ~ In current unvisited ->
    incl unvisited (nodes (cities self)) ->
    ant_tour_loop sp fuel self rt unvisited current s
    = ant_tour_loop sp' fuel self rt unvisited current s
    /\ forall rt_final s',
         ant_tour_loop sp fuel self rt unvisited current s = Ret (rt_final, s') ->
         NoDup unvisited -> NoDup rt -> (forall u, In u rt -> ~ In u unvisited) ->
         NoDup rt_final
         /\ forall u, In u rt_final <-> In u rt \/ In u unvisited.
Proof.
  intros Hc. induction fuel as [|fuel IH];
    intros rt unvisited current s Hcur Hnot Hincl.
  - destruct unvisited as [|x xs]; cbn [ant_tour_loop].
    + split; [reflexivity|]. intros rt_final s' H _ Hnd _.
      inversion H; subst. split; [assumption|]. intros u. tauto.
    + split; [reflexivity|discriminate].
  - destruct unvisited as [|x xs] eqn:Eu.
    + cbn [ant_tour_loop]. split; [reflexivity|]. intros rt_final s' H _ Hnd _.
      inversion H; subst. split; [assumption|]. intros u. tauto.
    + cbn [ant_tour_loop]. rewrite <- Eu in *.
      assert (Hne : unvisited <> []) by (rewrite Eu; discriminate).
      destruct (complete_neighbor self unvisited current Hc Hcur Hnot Hincl Hne)
        as (v & Hvn & Hvu).
      destruct (tour_step_with_neighbor sp sp' self rt unvisited current v s
                  Hvn Hvu) as [Heq Hfacts].
      rewrite <- Heq.
      destruct (tour_step sp self rt unvisited current s)
        as [[[[rt1 un1] c1] s1]|e|] eqn:Es; cbn [bind];
        [|split; [reflexivity|discriminate]|split; [reflexivity|discriminate]].
      destruct (Hfacts rt1 un1 c1 s1 eq_refl) as (Hrt1 & _ & Hin1 & Hun1).
      subst rt1 un1.
      destruct (IH (rt ++ [c1]) (remove_node c1 unvisited) c1 s1
                  (Hincl c1 Hin1) (remove_node_not_In c1 unvisited)
                  (fun u Hu => Hincl u (remove_node_incl c1 unvisited u Hu)))
        as [IHeq IHfacts].
      split; [exact IHeq|].
      intros rt_final s' H Hndu Hndr Hdis.
      destruct (IHfacts rt_final s' H (remove_node_NoDup c1 unvisited Hndu))
        as [Hndf Hmem].
      * apply NoDup_app; [assumption|repeat constructor; intros []|].
        intros u Hu [E|[]]. subst u. exact (Hdis c1 Hu Hin1).
      * intros u Hu Hu'. apply in_app_or in Hu. destruct Hu as [Hu|[E|[]]].
        -- apply (Hdis u Hu). now apply remove_node_incl in Hu'.
        -- subst u. exact (remove_node_not_In c1 unvisited Hu').
      * split; [assumption|]. intros u. rewrite Hmem. split.
        -- intros [Hu|Hu].
           ++ apply in_app_or in Hu. destruct Hu as [Hu|[E|[]]]; [now left|].
              subst u. now right.
           ++ right. now apply remove_node_incl in Hu.
        -- intros [Hu|Hu].
           ++ left. apply in_or_app. now left.
           ++ destruct (remove_node_In c1 u unvisited Hu) as [->|Hu'].
              ** left. apply in_or_app. right. now left.
              ** now right.
Qed.

Lemma nodup_nonempty_choice (self : ACO) (s : rng) (x : node) (xs : list node) :
  nodup Nat.eq_dec (nodes (cities self)) = x :: xs ->
  exists current s1,
    random_choice (nodup Nat.eq_dec (nodes (cities self))) s = Ret (current, s1)
    /\ In current (nodes (cities self))
    /\ In current (nodup Nat.eq_dec (nodes (cities self))).
Proof.
  intros Eu.
  destruct (random_choice_In (nodup Nat.eq_dec (nodes (cities self))) s)
    as (current & s1 & Hc & Hin); [rewrite Eu; discriminate|].
  exists current, s1. split; [assumption|]. split; [|assumption].
  now apply nodup_In in Hin.
Qed.

(** X16.  Tours on a complete graph.  When every two different nodes are
    joined by an edge, [ant_tour] never asks for a shortest path: its outcome
    is the same for every shortest-path service; and a returned route holds
    every node of the graph exactly once (N entries, no repetition). *)
Theorem ant_tour_complete
    (sp : DiGraph -> node -> node -> option (list node)) (self : ACO) (s : rng) :
  complete (cities self) ->
  (forall sp', ant_tour sp' self s = ant_tour sp self s)
  /\ (forall rt s',
        ant_tour sp self s = Ret (rt, s') ->
        NoDup rt
        /\ (forall u, In u rt <-> In u (nodes (cities self)))
        /\ length rt = length (nodup Nat.eq_dec (nodes (cities self)))).
Proof.
  intros Hc. unfold ant_tour, ant_tour_fuel. cbv zeta.
  pose proof (NoDup_nodup Nat.eq_dec (nodes (cities self))) as Hnd.
  destruct (nodup Nat.eq_dec (nodes (cities self))) as [|x xs] eqn:Eu.
  - split; [reflexivity|].
    intros rt s' H. inversion H; subst. split; [constructor|].
    split; [|reflexivity]. intros u. split; [intros []|].
    intros Hu. apply (nodup_In Nat.eq_dec) in Hu. now rewrite Eu in Hu.
  - rewrite <- Eu in *.
    destruct (nodup_nonempty_choice self s x xs Eu)
      as (current & s1 & Hch & Hcur & Hcur').
    rewrite Hch. cbn [bind].
    set (all := nodup Nat.eq_dec (nodes (cities self))) in *.
    assert (Hincl : incl (remove_node current all) (nodes (cities self))).
    { intros u Hu. apply remove_node_incl in Hu. now apply nodup_In in Hu. }
    split.
    + intros sp'.
      exact (proj1 (ant_tour_loop_complete sp' sp self (length all) Hc
                      [current] (remove_node current all) current s1 Hcur
                      (remove_node_not_In current all) Hincl)).
    + intros rt s' H.
      destruct (proj2 (ant_tour_loop_complete sp sp self (length all) Hc
                         [current] (remove_node current all) current s1 Hcur
                         (remove_node_not_In current all) Hincl) rt s' H
                  (remove_node_NoDup current all Hnd))
        as [Hndf Hmem].
      * repeat constructor. intros [].
      * intros u [<-|[]]. apply remove_node_not_In.
      * assert (Hiff : forall u, In u rt <-> In u all).
        { intros u. rewrite Hmem. split.
          - intros [[<-|[]]|Hu]; [assumption|now apply remove_node_incl in Hu].
          - intros Hu. destruct (remove_node_In current u all Hu) as [->|Hu'];
              [left; now left|now right]. }
        split; [assumption|]. split.
        -- intros u. rewrite Hiff. apply nodup_In.
        -- apply Nat.le_antisymm; apply NoDup_incl_length; try assumption;
             intros u Hu; now apply Hiff.
Qed.

Lemma graphK_complete : complete (cities acoK).
Proof.
  intros u v Hu Hv Hne. cbn in Hu, Hv.
  destruct Hu as [<-|[<-|[<-|[]]]], Hv as [<-|[<-|[<-|[]]]];
    try congruence; reflexivity.
Defined.

Lemma ant_tour_complete_witness :
  exists rt s',
    ant_tour no_path acoK rngK = Ret (rt, s')
    /\ NoDup rt /\ length rt = 3%nat.
Proof.
  destruct (ant_tour no_path acoK rngK) as [[rt s']| |] eqn:E;
    try (vm_compute in E; discriminate).
  destruct (proj2 (ant_tour_complete no_path acoK rngK graphK_complete) rt s' E)
    as (Hnd & _ & Hlen).
  exists rt, s'. split; [reflexivity|]. split; [assumption|exact Hlen].
Defined.

(** ** More on construct_solution and run_aco *)

Lemma iteration_history (sp : DiGraph -> node -> node -> option (list node))
    (st st' : ACO * rng * list route * list xdist) (h h' : list xdist * list xdist) :
  iteration sp st h = Ret (st', h') ->
  length (fst h') = S (length (fst h)) /\ length (snd h') = S (length (snd h)).
Proof.
  intros H. unfold iteration in H. destruct st as [[[self s] br] bd].
  bind_inv H. destruct a as [[[self1 s1] br1] bd1].
  bind_inv H. bind_inv H. bind_inv H. inversion H; subst. cbn [fst snd].
  rewrite !length_app. cbn. lia.
Qed.

Lemma iterations_loop_history
    (sp : DiGraph -> node -> node -> option (list node)) (k : nat) :
  forall st h st' h',
    iterations_loop sp k st h = Ret (st', h') ->
    length (fst h') = (length (fst h) + k)%nat
    /\ length (snd h') = (length (snd h) + k)%nat.
Proof.
  induction k as [|k IH]; intros st h st' h' H.
  - cbn in H. inversion H; subst. lia.
  - cbn [iterations_loop] in H. bind_inv H. destruct a as [st1 h1].
    apply iteration_history in E. apply IH in H. lia.
Qed.

(** X17.  The convergence history has one entry per iteration: a run of
    [construct_solution] that returns, with or without supplied routes,
    returns a "min" list and an "avg" list of exactly [iterations] entries
    each. *)
Theorem construct_solution_history_length
    (sp : DiGraph -> node -> node -> option (list node)) (self : ACO)
    (iterations : nat) (routes : option (list route)) (s : rng)
    (st : ACO * rng * list route * list xdist) (h : list xdist * list xdist) :
  construct_solution sp self iterations routes s = Ret (st, h) ->
  length (fst h) = iterations /\ length (snd h) = iterations.
Proof.
  intros H. unfold construct_solution in H. bind_inv H.
  destruct a as [[self1 br] bd].
  apply iterations_loop_history in H. cbn in H. exact H.
Qed.

Lemma construct_solution_history_length_witness :
  exists st h,
    construct_solution no_path acoK 2 (Some seedsK) rngK = Ret (st, h)
    /\ length (fst h) = 2%nat /\ length (snd h) = 2%nat.
Proof.
  destruct (construct_solution no_path acoK 2 (Some seedsK) rngK)
    as [[st h]| |] eqn:E; try (vm_compute in E; discriminate).
  exists st, h. split; [reflexivity|].
  exact (construct_solution_history_length no_path acoK 2 (Some seedsK) rngK
           st h E).
Defined.

Lemma valid_offer_scored (self0 : ACO) (o : route * xdist) :
  valid_offer self0 o -> scored self0 (fst o) (snd o).
Proof. intros [H1 H2]. right. auto. Qed.

Lemma offer_all_scored (self0 : ACO) (offers : list (route * xdist)) :
  forall br0 bd0 br bd,
    Forall2 (scored self0) br0 bd0 ->
    Forall (valid_offer self0) offers ->
    offer_all offers (br0, bd0) = Ret (br, bd) ->
    Forall2 (scored self0) br bd.
Proof.
  induction offers as [|[r d] offers IH]; intros br0 bd0 br bd Hal Hval H.
  - cbn in H. now inversion H; subst.
  - cbn [offer_all fst snd] in H. bind_inv H. destruct a as [br1 bd1].
    inversion Hval as [|? ? Hv Hrest]; subst.
    destruct (offer_loop_aligned (scored self0) r d (valid_offer_scored _ _ Hv)
                (seq 0 (length bd0)) br0 bd0 Hal)
      as (br' & bd' & Hrun & Hal' & _).
    unfold offer in E. rewrite Hrun in E. inversion E; subst.
    eapply IH; eassumption.
Qed.

Lemma scored_empty_archive (self0 : ACO) (n : nat) :
  Forall2 (scored self0) (repeat [] n) (repeat Inf n).
Proof.
  induction n as [|n IH]; cbn; constructor; [left; auto|assumption].
Qed.

(** After at least one iteration the last entry of the "min" history is the
    best recorded distance. *)
Lemma iterations_loop_last
    (sp : DiGraph -> node -> node -> option (list node)) (self0 : ACO) (k : nat) :
  forall offers st h st' h',
    archive_of_offers self0 offers st ->
    iterations_loop sp (S k) st h = Ret (st', h') ->
    last (fst h') Inf = best_of st'.
Proof.
  induction k as [|k IH]; intros offers st h st' h' Hinv H.
  - cbn [iterations_loop] in H. bind_inv H. destruct a as [st1 h1].
    inversion H; subst.
    destruct (iteration_keeps sp self0 offers st st' h h' Hinv E)
      as (_ & _ & _ & Hh). rewrite Hh. apply last_last.
  - change (iterations_loop sp (S (S k)) st h)
      with (bind (iteration sp st h)
              (fun x => match x with (st1, h1) => iterations_loop sp (S k) st1 h1 end))
      in H.
    bind_inv H. destruct a as [st1 h1].
    destruct (iteration_keeps sp self0 offers st st1 h h1 Hinv E)
      as (e1 & Hinv1 & _ & _).
    eapply IH; eassumption.
Qed.

Lemma iterations_loop_best_le
    (sp : DiGraph -> node -> node -> option (list node)) (self0 : ACO) (k : nat) :
  forall offers st h st' h',
    archive_of_offers self0 offers st ->
    iterations_loop sp k st h = Ret (st', h') ->
    xle (best_of st') (best_of st).
Proof.
  induction k as [|k IH]; intros offers st h st' h' Hinv H.
  - cbn in H. inversion H; subst. apply xle_refl.
  - cbn [iterations_loop] in H. bind_inv H. destruct a as [st1 h1].
    destruct (iteration_keeps sp self0 offers st st1 h h1 Hinv E)
      as (e1 & Hinv1 & Hle & _).
    eapply xle_trans; [|exact Hle]. eapply IH; eassumption.
Qed.

Lemma archive_of_offers_start (self : ACO) (s : rng) :
  archive_of_offers self []
    (self, s, repeat [] (n_ants self), repeat Inf (n_ants self)).
Proof. cbn. repeat split; constructor. Qed.

(** What a run without supplied routes leaves behind. *)
Lemma unseeded_run_facts
    (sp : DiGraph -> node -> node -> option (list node)) (self : ACO)
    (iterations : nat) (s : rng) (self' : ACO) (s' : rng)
    (br : list route) (bd : list xdist) (h : list xdist * list xdist) :
  construct_solution sp self iterations None s = Ret (self', s', br, bd, h) ->
  length br = n_ants self /\ length bd = n_ants self
  /\ ascending bd
  /\ Forall2 (scored self) br bd
  /\ non_increasing (fst h)
  /\ Forall (fun m => xle (hd Inf bd) m) (fst h)
  /\ ((1 <= iterations)%nat -> last (fst h) Inf = hd Inf bd).
Proof.
  intros H. unfold construct_solution in H. cbn [initial_archive bind] in H.
  destruct (iterations_loop_keeps sp self iterations [] _ ([], [])
              (self', s', br, bd) h (archive_of_offers_start self s)
              ltac:(constructor) ltac:(constructor) H)
    as (offers & Hinv & Hni & Hall).
  cbn [app] in Hinv. destruct Hinv as (_ & _ & _ & Hoff & Hval).
  destruct (offers_archive _ _ _ _ Hoff) as (Hl1 & Hl2 & Hs).
  split; [assumption|]. split; [assumption|]. split; [assumption|].
  split; [|split; [assumption|split; [exact Hall|]]].
  - eapply offer_all_scored; [apply scored_empty_archive|exact Hval|exact Hoff].
  - intros Hk. destruct iterations as [|k]; [lia|].
    exact (iterations_loop_last sp self k [] _ ([], []) (self', s', br, bd) h
             (archive_of_offers_start self s) H).
Qed.

(** X18.  A run without supplied routes, as [run_aco] starts it.  The archive
    it returns has [n_ants] slots sorted ascending by distance, each holding
    a route with its own distance or still the initial [([], inf)]; the "min"
    history never goes up, none of its entries is below the final best
    distance, and after at least one iteration its last entry is the final
    best distance. *)
Theorem unseeded_run
    (sp : DiGraph -> node -> node -> option (list node)) (self : ACO)
    (iterations : nat) (s : rng) (self' : ACO) (s' : rng)
    (best_routes : list route) (best_distances : list xdist)
    (h : list xdist * list xdist) :
  construct_solution sp self iterations None s
  = Ret (self', s', best_routes, best_distances, h) ->
  length best_routes = n_ants self /\ length best_distances = n_ants self
  /\ ascending best_distances
  /\ Forall2 (scored self) best_routes best_distances
  /\ non_increasing (fst h)
  /\ Forall (fun m => xle (hd Inf best_distances) m) (fst h)
  /\ ((1 <= iterations)%nat -> last (fst h) Inf = hd Inf best_distances).
Proof. apply unseeded_run_facts. Qed.

Lemma unseeded_run_witness :
  exists self' s' best_routes best_distances h,
    construct_solution no_path acoK 2 None rngK
    = Ret (self', s', best_routes, best_distances, h)
    /\ ascending best_distances
    /\ non_increasing (fst h).
Proof.
  destruct (construct_solution no_path acoK 2 None rngK)
    as [[[[[self' s'] br] bd] h]| |] eqn:E; try (vm_compute in E; discriminate).
  destruct (unseeded_run no_path acoK 2 rngK self' s' br bd h E)
    as (_ & _ & Hs & _ & Hni & _).
  exists self', s', br, bd, h. auto.
Defined.

(** X19.  What [run_aco] returns.  The returned route is not empty, the
    returned distance is finite and is the distance of the returned route,
    and it is the last entry of the returned "min" history, which has one
    entry per iteration and never goes up; a run returns only with at least
    one ant and at least one iteration. *)
Theorem run_aco_result
    (sp : DiGraph -> node -> node -> option (list node)) (self : ACO)
    (iterations : nat) (s : rng) (r : route) (d : xdist)
    (h : list xdist * list xdist) :
  run_aco sp self iterations s = Ret (r, d, h) ->
  r <> []
  /\ d = route_distance self r
  /\ (exists q, d = Fin q)
  /\ (1 <= n_ants self)%nat /\ (1 <= iterations)%nat
  /\ length (fst h) = iterations /\ length (snd h) = iterations
  /\ non_increasing (fst h)
  /\ last (fst h) Inf = d.
Proof.
  intros H. unfold run_aco in H.
  destruct (construct_solution sp self iterations None s)
    as [[[[[self' s'] br] bd] h0]| |] eqn:E; cbn [bind] in H; try discriminate.
  destruct (unseeded_run_facts sp self iterations s self' s' br bd h0 E)
    as (Hl1 & Hl2 & _ & Hsc & Hni & _ & Hlast).
  destruct bd as [|d0 bd]; cbn [first_item bind] in H; [discriminate|].
  destruct d0 as [q|]; cbn [xltb bind] in H; [|discriminate].
  destruct br as [|r0 br]; cbn [first_item bind fst snd] in H; [discriminate|].
  inversion H; subst r d h0. clear H.
  inversion Hsc as [|? ? ? ? Hhd _]; subst.
  destruct Hhd as [[_ Hinf]|[Hne Hd]]; [discriminate|].
  assert (Hit : (1 <= iterations)%nat).
  { destruct iterations as [|k]; [|lia]. exfalso.
    unfold construct_solution in E. cbn in E. inversion E as [[H1 H2 H3 H4]].
    destruct (n_ants self); discriminate. }
  split; [assumption|]. split; [assumption|]. split; [now exists q|].
  split; [cbn in Hl2; lia|]. split; [assumption|].
  unfold construct_solution in E. cbn [initial_archive bind] in E.
  destruct (iterations_loop_history sp iterations _ _ _ _ E) as [Hh1 Hh2].
  cbn in Hh1, Hh2.
  split; [assumption|]. split; [assumption|]. split; [assumption|].
  now apply Hlast.
Qed.

Lemma run_aco_result_witness :
  exists r q h,
    run_aco no_path acoK 2 rngK = Ret (r, Fin q, h)
    /\ Fin q = route_distance acoK r.
Proof.
  destruct (run_aco no_path acoK 2 rngK) as [[[r d] h]| |] eqn:E;
    try (vm_compute in E; discriminate).
  destruct (run_aco_result no_path acoK 2 rngK r d h E)
    as (_ & Hd & (q & Hq) & _).
  exists r, q, h. split; congruence.
Defined.

Lemma xle_finite (a b : xdist) : xle a b -> b <> Inf -> a <> Inf.
Proof.
  unfold xle. intros H Hb ->. destruct b as [q|]; [discriminate|congruence].
Qed.

Section FindsRoute.
Variable sp : DiGraph -> node -> node -> option (list node).
Hypothesis sp_paths : path_contract sp.
Variable self0 : ACO.
Hypothesis has_nodes : nodes (cities self0) <> [].
Hypothesis has_ants : (1 <= n_ants self0)%nat.

(** Every ant records a finite distance. *)
Lemma ant_finite (offers : list (route * xdist))
    (st st' : ACO * rng * list route * list xdist) :
  archive_of_offers self0 offers st ->
  ant sp st = Ret st' ->
  best_of st' <> Inf.
Proof.
  destruct st as [[[self s] br] bd]. intros (Hc & Hn & _ & Hoff & _) H.
  unfold ant in H. bind_inv H. destruct a as [rt s1].
  destruct (ant_tour_route_facts sp self s rt s1 sp_paths E) as (Hnil & _ & He).
  destruct rt as [|u rt'].
  - exfalso. apply has_nodes. rewrite <- Hc. now apply Hnil.
  - bind_inv H. destruct a as [br1 bd1]. bind_inv H. inversion H; subst.
    unfold best_of. cbn [snd].
    destruct (offers_archive offers _ br bd Hoff) as (Hl1 & Hl2 & Hs).
    rewrite (offer_best _ _ br br1 bd bd1 ltac:(congruence) Hs E0).
    destruct (route_distance_finite self (u :: rt') He) as [q Hq].
    rewrite Hq. destruct bd as [|d0 bd]; [cbn in Hl2; lia|].
    destruct (xltb (Fin q) d0) eqn:Hlt; [discriminate|].
    intros ->. discriminate.
Qed.

Lemma ants_loop_finite (k : nat) (offers : list (route * xdist))
    (st st' : ACO * rng * list route * list xdist) :
  archive_of_offers self0 offers st ->
  ants_loop sp (S k) st = Ret st' ->
  best_of st' <> Inf.
Proof.
  intros Hinv H. cbn [ants_loop] in H. bind_inv H.
  pose proof (ant_finite offers st a Hinv E) as Hfin.
  destruct (ant_keeps sp self0 offers st a Hinv E) as (e1 & Hinv1 & _).
  destruct (ants_loop_keeps sp self0 k _ a st' Hinv1 H) as (_ & _ & Hle).
  eapply xle_finite; eassumption.
Qed.

Lemma iteration_finite (offers : list (route * xdist))
    (st st' : ACO * rng * list route * list xdist) (h h' : list xdist * list xdist) :
  archive_of_offers self0 offers st ->
  iteration sp st h = Ret (st', h') ->
  best_of st' <> Inf.
Proof.
  intros Hinv H. unfold iteration in H. destruct st as [[[self s] br] bd].
  bind_inv H. destruct a as [[[self1 s1] br1] bd1].
  bind_inv H. bind_inv H. bind_inv H. inversion H; subst.
  assert (Hn : n_ants self = n_ants self0) by (destruct Hinv as (_ & Hn & _); exact Hn).
  destruct (n_ants self) as [|k] eqn:Ek; [lia|].
  eapply ants_loop_finite; eassumption.
Qed.

Lemma iterations_loop_finite (k : nat) (offers : list (route * xdist))
    (st st' : ACO * rng * list route * list xdist) (h h' : list xdist * list xdist) :
  archive_of_offers self0 offers st ->
  iterations_loop sp (S k) st h = Ret (st', h') ->
  best_of st' <> Inf.
Proof.
  intros Hinv H. cbn [iterations_loop] in H. bind_inv H. destruct a as [st1 h1].
  pose proof (iteration_finite offers st st1 h h1 Hinv E) as Hfin.
  destruct (iteration_keeps sp self0 offers st st1 h h1 Hinv E)
    as (e1 & Hinv1 & _).
  pose proof (iterations_loop_best_le sp self0 k _ st1 h1 st' h' Hinv1 H) as Hle.
  eapply xle_finite; eassumption.
Qed.
End FindsRoute.

(** X20.  On a graph with at least one node, with at least one ant and one
    iteration, and a shortest-path service that keeps its contract, a run
    whose iterations complete always finds a route: [run_aco] returns, and it
    never raises "route not found". *)
Theorem run_aco_finds_route
    (sp : DiGraph -> node -> node -> option (list node)) (self : ACO)
    (iterations : nat) (s : rng) :
  path_contract sp ->
  nodes (cities self) <> [] ->
  (1 <= n_ants self)%nat -> (1 <= iterations)%nat ->
  run_aco sp self iterations s <> Raise RouteNotFound
  /\ forall st h,
       construct_solution sp self iterations None s = Ret (st, h) ->
       exists r d, run_aco sp self iterations s = Ret (r, d, h).
Proof.
  intros Hsp Hnodes Hants Hit.
  assert (Hret : forall st h,
    construct_solution sp self iterations None s = Ret (st, h) ->
    exists r d, run_aco sp self iterations s = Ret (r, d, h)).
  { intros [[[self' s'] br] bd] h E.
    destruct (unseeded_run_facts sp self iterations s self' s' br bd h E)
      as (Hl1 & Hl2 & _).
    assert (Hfin : hd Inf bd <> Inf).
    { destruct iterations as [|k]; [lia|].
      unfold construct_solution in E. cbn [initial_archive bind] in E.
      exact (iterations_loop_finite sp Hsp self Hnodes Hants k [] _
               (self', s', br, bd) ([], []) h
               (archive_of_offers_start self s) E). }
    unfold run_aco. rewrite E. cbn [bind].
    destruct bd as [|d0 bd]; [cbn in Hl2; lia|].
    destruct br as [|r0 br]; [cbn in Hl1; lia|].
    cbn [hd] in Hfin. destruct d0 as [q|]; [|congruence].
    cbn. eauto. }
  split; [|exact Hret].
  intros Hrnf.
  pose proof (construct_solution_below sp self iterations s) as Hbelow.
  unfold below_run_aco in Hbelow.
  destruct (construct_solution sp self iterations None s) as [[st h]|e|] eqn:E.
  - destruct (Hret st h eq_refl) as (r & d & Hr). congruence.
  - unfold run_aco in Hrnf. rewrite E in Hrnf. cbn [bind] in Hrnf.
    injection Hrnf as ->. now apply Hbelow.
  - unfold run_aco in Hrnf. rewrite E in Hrnf. discriminate.
Qed.

Lemma run_aco_finds_route_witness :
  run_aco no_path acoK 2 rngK <> Raise RouteNotFound.
Proof.
  apply (run_aco_finds_route no_path acoK 2 rngK no_path_contract).
  - discriminate.
  - cbn. lia.
  - lia.
Defined.

Lemma fold_left_xadd_Inf (l : list xdist) : fold_left xadd l Inf = Inf.
Proof.
  induction l as [|x l IH]; [reflexivity|]. cbn [fold_left].
  destruct x; exact IH.
Qed.

Lemma xmin_nonempty (l : list xdist) : l <> [] -> exists m, xmin l = Ret m.
Proof.
  destruct l as [|x l]; [congruence|]. intros _. cbn. eauto.
Qed.

Lemma xmean_nonempty (l : list xdist) : l <> [] -> exists a, xmean l = Ret a.
Proof.
  destruct l as [|x l]; [congruence|]. intros _. unfold xmean.
  destruct (fold_left xadd (x :: l) (Fin 0)); eauto.
Qed.

(** On a graph without nodes an ant changes nothing. *)
Lemma ant_no_nodes (sp : DiGraph -> node -> node -> option (list node))
    (self : ACO) (s : rng) (br : list route) (bd : list xdist) :
  nodes (cities self) = [] ->
  ant sp (self, s, br, bd) = Ret (self, s, br, bd).
Proof.
  intros Hn. unfold ant, ant_tour, ant_tour_fuel. rewrite Hn. reflexivity.
Qed.

Lemma ants_loop_no_nodes (sp : DiGraph -> node -> node -> option (list node))
    (k : nat) (self : ACO) (s : rng) (br : list route) (bd : list xdist) :
  nodes (cities self) = [] ->
  ants_loop sp k (self, s, br, bd) = Ret (self, s, br, bd).
Proof.
  intros Hn. induction k as [|k IH]; [reflexivity|].
  cbn [ants_loop]. rewrite (ant_no_nodes sp self s br bd Hn). exact IH.
Qed.

Lemma iterations_loop_no_nodes
    (sp : DiGraph -> node -> node -> option (list node))
    (k : nat) (self : ACO) (s : rng) (br : list route) (bd : list xdist) :
  nodes (cities self) = [] -> br <> [] -> bd <> [] ->
  forall h, exists h',
    iterations_loop sp k (self, s, br, bd) h = Ret (self, s, br, bd, h').
Proof.
  intros Hn Hbr Hbd. induction k as [|k IH]; intros h; [cbn; eauto|].
  cbn [iterations_loop]. unfold iteration.
  rewrite (ants_loop_no_nodes sp (n_ants self) self s br bd Hn). cbn [bind].
  destruct (xmin_nonempty bd Hbd) as [m Hm].
  destruct (xmean_nonempty bd Hbd) as [a Ha].
  assert (Hcb : (if update_callback self
                 then r0 <- first_item br ;; d0 <- first_item bd ;; Ret tt
                 else Ret tt) = Ret tt).
  { destruct (update_callback self); [|reflexivity].
    destruct br; [congruence|]. destruct bd; [congruence|]. reflexivity. }
  rewrite Hcb, Hm, Ha. cbn [bind]. apply IH.
Qed.

(** X21.  With at least one ant, a run of no iterations, or on a graph without
    nodes, records no route: [run_aco] raises "route not found". *)
Theorem run_aco_nothing_to_find
    (sp : DiGraph -> node -> node -> option (list node)) (self : ACO)
    (iterations : nat) (s : rng) :
  (1 <= n_ants self)%nat ->
  iterations = 0%nat \/ nodes (cities self) = [] ->
  run_aco sp self iterations s = Raise RouteNotFound.
Proof.
  intros Hants Hcase.
  assert (Hrun : exists h,
    construct_solution sp self iterations None s
    = Ret (self, s, repeat [] (n_ants self), repeat Inf (n_ants self), h)).
  { unfold construct_solution. cbn [initial_archive bind].
    destruct Hcase as [-> | Hn]; [cbn; eauto|].
    apply iterations_loop_no_nodes; try assumption;
      destruct (n_ants self); try lia; discriminate. }
  destruct Hrun as [h Hrun]. unfold run_aco. rewrite Hrun. cbn [bind].
  destruct (n_ants self); [lia|]. reflexivity.
Qed.

Lemma run_aco_nothing_to_find_witness :
  run_aco no_path acoK 0 rngK = Raise RouteNotFound
  /\ run_aco no_path
       (init {| nodes := []; edges := [] |} 3 1 2 (1 # 2) false) 4 rngK
     = Raise RouteNotFound.
Proof.
  split.
  - apply (run_aco_nothing_to_find no_path acoK 0 rngK); [cbn; lia|now left].
  - apply run_aco_nothing_to_find; [cbn; lia|now right].
Defined.

(** X22.  Without ants the archive is empty and a run fails on its first use
    of the archive: with no iterations [run_aco] raises [IndexError] at
    [distances[0]]; otherwise the first iteration raises [IndexError] at
    [best_routes[0]] when a callback is registered, and [ValueError] at
    [min(best_distances)] when none is. *)
Theorem run_aco_no_ants
    (sp : DiGraph -> node -> node -> option (list node)) (self : ACO)
    (iterations : nat) (s : rng) :
  n_ants self = 0%nat ->
  run_aco sp self iterations s
  = Raise (match iterations with
           | O => IndexError
           | S _ => if update_callback self then IndexError else ValueError
           end).
Proof.
  intros Hn. unfold run_aco, construct_solution.
  cbn [initial_archive bind]. rewrite Hn. cbn [repeat].
  destruct iterations as [|k]; [reflexivity|].
  cbn [iterations_loop]. unfold iteration. rewrite Hn. cbn [ants_loop bind].
  destruct (update_callback self); reflexivity.
Qed.

Lemma run_aco_no_ants_witness :
  run_aco no_path
    (init graphK 0 1 2 (1 # 2) false) 3 rngK = Raise IndexError
  /\ run_aco no_path
       (init graphK 0 1 2 (1 # 2) true) 3 rngK = Raise ValueError.
Proof.
  split.
  - apply (run_aco_no_ants no_path
             (init graphK 0 1 2 (1 # 2) false) 3 rngK). reflexivity.
  - apply (run_aco_no_ants no_path
             (init graphK 0 1 2 (1 # 2) true) 3 rngK). reflexivity.
Defined.
